(** * suspense-loader: the load/cache/suspension protocol of [index.tsx]

    A shallow embedding of [src/index.tsx] (and of the revision of the same
    file that carries the [timeout] parameter and the React 17 path) together
    with the properties stated about it.

    The embedding keeps the shape of the TypeScript source:
    - the objects used as dictionaries ([cacheMap], [promiseMap],
      [cacheSrcMap], the document's elements by id) are finite maps keyed by
      strings;
    - the mutable [property] record of a mounted [SuspenseLoader], its hook
      states and the promise objects live in one [World] that every
      operation threads explicitly;
    - a promise is a cell of a heap, [then] registers a reaction, a settled
      promise queues reaction jobs, and jobs run one at a time from the
      microtask queue, as in ECMAScript;
    - closures are defunctionalised: a callback is a constructor that names
      the coordinator whose [property] it closes over;
    - the rendering engine, the external [loader] and the timer are the
      environment: they appear as events applied to the world;
    - one world is one Tree Context scope: its [treeContext] is what
      [useTreeContext()] returns to every coordinator mounted in it, be it
      the tables of a [TreeContext.Provider] or [globalTreeContext]. *)

From stdpp Require Import gmap strings list fin_maps.
From Stdlib Require Import ZArith DecimalString.

Local Open Scope string_scope.
Local Open Scope list_scope.
Local Open Scope nat_scope.
#[local] Set Warnings "-register-all".

(** ** JavaScript values *)

(** The data that flows through the loader: JSON data and [undefined].
    Numbers are the integers; nothing below depends on fractions. *)
Inductive jsval : Type :=
  | JUndefined
  | JNull
  | JBool (b : bool)
  | JNum (z : Z)
  | JStr (s : string)
  | JArr (l : list jsval)
  | JObj (l : list (string * jsval)).

(** [ToBoolean]: what [if (value)] and [a || b] test. *)
Definition truthy (v : jsval) : bool :=
  match v with
  | JUndefined | JNull => false
  | JBool b => b
  | JNum z => negb (z =? 0)%Z
  | JStr s => negb (String.eqb s EmptyString)
  | JArr _ | JObj _ => true
  end.

(** [a || b] on values. *)
Definition js_or (a b : jsval) : jsval := if truthy a then a else b.

(** [obj[key]] on a dictionary object: a missing key reads [undefined]. *)
Definition js_get (m : gmap string jsval) (key : string) : jsval :=
  default JUndefined (m !! key).

(** [obj[key]] on an object given by its members in source order: the last
    member with that key counts, and a missing key reads [undefined]. *)
Definition assoc_get (l : list (string * jsval)) (key : string) : jsval :=
  foldl (λ found kv, if String.eqb kv.1 key then kv.2 else found) JUndefined l.

(** [x.value] on a parsed JSON text: reading a property of [null] or
    [undefined] throws ([None]); of any other non-object it is [undefined]. *)
Definition get_value_field (x : jsval) : option jsval :=
  match x with
  | JUndefined | JNull => None
  | JObj l => Some (assoc_get l "value")
  | _ => Some JUndefined
  end.

(** The object literal [{ value }]. *)
Definition value_object (v : jsval) : jsval := JObj [("value", v)].

(** The host's JSON codec ([JSON.stringify], [JSON.parse]); [JSON_parse]
    is [None] where [JSON.parse] throws. *)
Class JSON := {
  JSON_stringify : jsval → string;
  JSON_parse : string → option jsval;
}.

(** ** A JSON codec

    An executable instance of the host's [JSON]: the printer follows
    [JSON.stringify] on the values of [jsval] (a property whose value is
    [undefined] is omitted, an [undefined] array element prints as [null]),
    the parser reads what the printer writes, with optional white space. *)
Module HostJSON.
Import Stdlib.Strings.Ascii.

Definition quoteChar : ascii := ascii_of_nat 34.
Definition backslash : ascii := ascii_of_nat 92.

Fixpoint escape (s : string) : string :=
  match s with
  | EmptyString => EmptyString
  | String ch s' =>
      if Ascii.eqb ch quoteChar || Ascii.eqb ch backslash
      then String backslash (String ch (escape s'))
      else String ch (escape s')
  end.

Definition quote (s : string) : string :=
  String quoteChar (String.append (escape s) (String quoteChar EmptyString)).

Definition join (sep : string) (parts : list string) : string :=
  match parts with
  | [] => EmptyString
  | x :: xs => foldl (λ acc y, String.append acc (String.append sep y)) x xs
  end.

Definition isUndefined (v : jsval) : bool :=
  match v with JUndefined => true | _ => false end.

Fixpoint stringify (v : jsval) : string :=
  match v with
  | JUndefined | JNull => "null"
  | JBool true => "true"
  | JBool false => "false"
  | JNum z => NilZero.string_of_int (Z.to_int z)
  | JStr s => quote s
  | JArr l => String.append "[" (String.append (join "," (map stringify l)) "]")
  | JObj l =>
      let member (kv : string * jsval) : list string :=
        if isUndefined kv.2 then []
        else [String.append (quote kv.1) (String.append ":" (stringify kv.2))] in
      String.append "{" (String.append (join "," (concat (map member l))) "}")
  end.

Definition isSpace (ch : ascii) : bool :=
  Ascii.eqb ch (ascii_of_nat 32) || Ascii.eqb ch (ascii_of_nat 10)
  || Ascii.eqb ch (ascii_of_nat 13) || Ascii.eqb ch (ascii_of_nat 9).

Fixpoint skipSpace (s : string) : string :=
  match s with
  | String ch s' => if isSpace ch then skipSpace s' else s
  | EmptyString => s
  end.

(** [expect lit s]: [s] without its prefix [lit]. *)
Fixpoint expect (lit s : string) : option string :=
  match lit, s with
  | EmptyString, _ => Some s
  | String a lit', String b s' => if Ascii.eqb a b then expect lit' s' else None
  | _, _ => None
  end.

(** The characters up to the closing quote, unescaped. *)
Fixpoint stringBody (s : string) : option (string * string) :=
  match s with
  | EmptyString => None
  | String ch s' =>
      if Ascii.eqb ch quoteChar then Some (EmptyString, s')
      else if Ascii.eqb ch backslash then
        match s' with
        | String ch' s'' =>
            '(body, rest) ← stringBody s''; Some (String ch' body, rest)
        | EmptyString => None
        end
      else '(body, rest) ← stringBody s'; Some (String ch body, rest)
  end.

Definition isDigit (ch : ascii) : bool :=
  (48 <=? nat_of_ascii ch)%nat && (nat_of_ascii ch <=? 57)%nat.

Fixpoint numberText (s : string) : string * string :=
  match s with
  | String ch s' =>
      if isDigit ch || Ascii.eqb ch "-"%char
      then let '(n, rest) := numberText s' in (String ch n, rest)
      else (EmptyString, s)
  | EmptyString => (EmptyString, s)
  end.

Definition number (s : string) : option (jsval * string) :=
  let '(n, rest) := numberText s in
  z ← NilZero.int_of_string n;
  match n with
  | EmptyString => None
  | _ => Some (JNum (Z.of_int z), rest)
  end.

Fixpoint parseValue (fuel : nat) (s : string) : option (jsval * string) :=
    match fuel with
    | O => None
    | S n =>
        match skipSpace s with
        | EmptyString => None
        | String ch rest =>
            if Ascii.eqb ch "n"%char then r ← expect "ull" rest; Some (JNull, r)
            else if Ascii.eqb ch "t"%char then r ← expect "rue" rest; Some (JBool true, r)
            else if Ascii.eqb ch "f"%char then r ← expect "alse" rest; Some (JBool false, r)
            else if Ascii.eqb ch quoteChar then
              '(body, r) ← stringBody rest; Some (JStr body, r)
            else if Ascii.eqb ch "["%char then
              match skipSpace rest with
              | String ch' r =>
                  if Ascii.eqb ch' "]"%char then Some (JArr [], r)
                  else '(vs, r') ← parseElements n rest; Some (JArr vs, r')
              | EmptyString => None
              end
            else if Ascii.eqb ch "{"%char then
              match skipSpace rest with
              | String ch' r =>
                  if Ascii.eqb ch' "}"%char then Some (JObj [], r)
                  else '(kvs, r') ← parseMembers n rest; Some (JObj kvs, r')
              | EmptyString => None
              end
            else number (String ch rest)
        end
    end
  with parseElements (fuel : nat) (s : string) : option (list jsval * string) :=
    match fuel with
    | O => None
    | S n =>
        '(v, rest) ← parseValue n s;
        match skipSpace rest with
        | String ch r =>
            if Ascii.eqb ch ","%char then '(vs, r') ← parseElements n r; Some (v :: vs, r')
            else if Ascii.eqb ch "]"%char then Some ([v], r)
            else None
        | EmptyString => None
        end
    end
  with parseMembers (fuel : nat) (s : string) : option (list (string * jsval) * string) :=
    match fuel with
    | O => None
    | S n =>
        match skipSpace s with
        | String ch rest =>
            if Ascii.eqb ch quoteChar then
              '(key, r0) ← stringBody rest;
              r1 ← expect ":" (skipSpace r0);
              '(v, r2) ← parseValue n r1;
              match skipSpace r2 with
              | String ch' r =>
                  if Ascii.eqb ch' ","%char then
                    '(kvs, r') ← parseMembers n r; Some ((key, v) :: kvs, r')
                  else if Ascii.eqb ch' "}"%char then Some ([(key, v)], r)
                  else None
              | EmptyString => None
              end
            else None
        | EmptyString => None
        end
    end.

Definition parse (s : string) : option jsval :=
  '(v, rest) ← parseValue (S (String.length s)) s;
  match skipSpace rest with
  | EmptyString => Some v
  | _ => None
  end.

Definition codec : JSON := {| JSON_stringify := stringify; JSON_parse := parse |}.
End HostJSON.

#[global] Existing Instance HostJSON.codec | 100.

(** ** Types of [index.tsx] *)

Inductive SuspenseType := streaming | ssr | csr.

Global Instance SuspenseType_eq_dec : EqDecision SuspenseType.
Proof. solve_decision. Defined.

(** [SuspensePropeatyType<T, V>]; the optional booleans are only ever
    tested for truthiness, so [undefined] is [false]. *)
Record SuspensePropeatyType := mkProperty {
  value : jsval;
  isInit : bool;
  isSuspenseLoad : bool;
  loaderValue : jsval;
}.

(** The [{}] of [useRef<SuspensePropeatyType<T, V>>({})]. *)
Definition emptyProperty : SuspensePropeatyType :=
  mkProperty JUndefined false false JUndefined.

(** An entry of [PromiseMap]: [{ streaming, promise }]; promises are
    addresses of the promise heap. *)
Record PendingEntry := mkEntry {
  entry_streaming : bool;
  entry_promise : option nat;
}.

Record SuspenseTreeContextType := mkContext {
  promiseMap : gmap string PendingEntry;
  cacheMap : gmap string jsval;
}.

Definition emptyContext : SuspenseTreeContextType := mkContext ∅ ∅.

(** ** Promises *)

Inductive PromiseState :=
  | Pending
  | Fulfilled (v : jsval)
  | Rejected (e : jsval).

(** The two arrow functions that [load] passes to [then]. *)
Inductive Callback :=
  | OnSettled (c : nat)  (** [(value) => { property.isInit = true; ... }] *)
  | OnLoader (c : nat) (outer : nat).
      (** [(v) => { property.isSuspenseLoad = false; resolve(v); }] where
          [resolve] belongs to the promise [outer] *)

(** [p.then(cb)] yields a derived promise and leaves a reaction on [p]. *)
Record Reaction := mkReaction {
  onFulfilled : Callback;
  derived : nat;
}.

(** A promise: its state, the reactions waiting for it, and whether [then]
    was ever called on it (the [[PromiseIsHandled]] slot, which decides
    whether a rejection is reported as unhandled). *)
Record PromiseCell := mkCell {
  pstate : PromiseState;
  reactions : list Reaction;
  isHandled : bool;
}.

(** A queued reaction job: the reaction and the settlement it reacts to. *)
Record Job := mkJob {
  job_reaction : Reaction;
  job_settled : PromiseState;
}.

(** ** A mounted [SuspenseLoader] *)

Record Coordinator := mkCoordinator {
  name : string;                    (** prop [name] *)
  defaultValue : jsval;             (** prop [loaderValue] *)
  type : SuspenseType;              (** prop [type] *)
  property : SuspensePropeatyType;  (** [useRef({}).current] *)
  isCSRFallback : bool;             (** [useState(type === 'csr')] *)
  isVisible : bool;                 (** [useState(true)] *)
  isRequestData : option bool;      (** the state of the mounted
                                        [SuspenseWapper], if one is mounted *)
  reloads : nat;                    (** how often [reload({})] was called *)
}.

(** One invocation of the external [loader], as observed from outside:
    the coordinator whose [load] made it and that coordinator's [name], the
    argument passed, and the promise the loader returned. *)
Record LoaderCall := mkCall {
  call_coordinator : nat;
  call_name : string;
  call_argument : jsval;
  call_promise : nat;
}.

(** ** The world *)

Record World := mkWorld {
  isServer : bool;                        (** [typeof window === 'undefined'] *)
  document : gmap string string;          (** id ↦ [innerHTML] *)
  treeContext : SuspenseTreeContextType;  (** what [useTreeContext()] returns *)
  cacheSrcMap : gmap string jsval;
  coordinators : list Coordinator;
  promises : list PromiseCell;
  microtasks : list Job;
  loaderCalls : list LoaderCall;
  onLoadedCalls : list (nat * jsval);
}.

Definition initialWorld (server : bool) (doc : gmap string string) : World :=
  mkWorld server doc emptyContext ∅ [] [] [] [] [].

Definition set_treeContext (f : SuspenseTreeContextType → SuspenseTreeContextType)
    (w : World) : World :=
  mkWorld (isServer w) (document w) (f (treeContext w)) (cacheSrcMap w)
    (coordinators w) (promises w) (microtasks w) (loaderCalls w) (onLoadedCalls w).

Definition set_cacheSrcMap (m : gmap string jsval) (w : World) : World :=
  mkWorld (isServer w) (document w) (treeContext w) m
    (coordinators w) (promises w) (microtasks w) (loaderCalls w) (onLoadedCalls w).

Definition set_coordinators (f : list Coordinator → list Coordinator)
    (w : World) : World :=
  mkWorld (isServer w) (document w) (treeContext w) (cacheSrcMap w)
    (f (coordinators w)) (promises w) (microtasks w) (loaderCalls w) (onLoadedCalls w).

Definition set_promises (f : list PromiseCell → list PromiseCell)
    (w : World) : World :=
  mkWorld (isServer w) (document w) (treeContext w) (cacheSrcMap w)
    (coordinators w) (f (promises w)) (microtasks w) (loaderCalls w) (onLoadedCalls w).

Definition set_microtasks (f : list Job → list Job) (w : World) : World :=
  mkWorld (isServer w) (document w) (treeContext w) (cacheSrcMap w)
    (coordinators w) (promises w) (f (microtasks w)) (loaderCalls w) (onLoadedCalls w).

Definition log_loaderCall (call : LoaderCall) (w : World) : World :=
  mkWorld (isServer w) (document w) (treeContext w) (cacheSrcMap w)
    (coordinators w) (promises w) (microtasks w)
    (loaderCalls w ++ [call]) (onLoadedCalls w).

Definition log_onLoaded (c : nat) (v : jsval) (w : World) : World :=
  mkWorld (isServer w) (document w) (treeContext w) (cacheSrcMap w)
    (coordinators w) (promises w) (microtasks w)
    (loaderCalls w) (onLoadedCalls w ++ [(c, v)]).

Definition set_cacheMap (f : gmap string jsval → gmap string jsval)
    (ctx : SuspenseTreeContextType) : SuspenseTreeContextType :=
  mkContext (promiseMap ctx) (f (cacheMap ctx)).

Definition set_promiseMap (f : gmap string PendingEntry → gmap string PendingEntry)
    (ctx : SuspenseTreeContextType) : SuspenseTreeContextType :=
  mkContext (f (promiseMap ctx)) (cacheMap ctx).

Definition set_property (f : SuspensePropeatyType → SuspensePropeatyType)
    (co : Coordinator) : Coordinator :=
  mkCoordinator (name co) (defaultValue co) (type co) (f (property co))
    (isCSRFallback co) (isVisible co) (isRequestData co) (reloads co).

Definition set_isCSRFallback (b : bool) (co : Coordinator) : Coordinator :=
  mkCoordinator (name co) (defaultValue co) (type co) (property co)
    b (isVisible co) (isRequestData co) (reloads co).

Definition set_isVisible (b : bool) (co : Coordinator) : Coordinator :=
  mkCoordinator (name co) (defaultValue co) (type co) (property co)
    (isCSRFallback co) b (isRequestData co) (reloads co).

Definition set_isRequestData (o : option bool) (co : Coordinator) : Coordinator :=
  mkCoordinator (name co) (defaultValue co) (type co) (property co)
    (isCSRFallback co) (isVisible co) o (reloads co).

Definition bump_reloads (co : Coordinator) : Coordinator :=
  mkCoordinator (name co) (defaultValue co) (type co) (property co)
    (isCSRFallback co) (isVisible co) (isRequestData co) (S (reloads co)).

(** Mutation of the [property] object of coordinator [c]. *)
Definition update_property (c : nat)
    (f : SuspensePropeatyType → SuspensePropeatyType) (w : World) : World :=
  set_coordinators (alter (set_property f) c) w.

Definition update_coordinator (c : nat) (f : Coordinator → Coordinator)
    (w : World) : World :=
  set_coordinators (alter f c) w.

Definition the_cacheMap (w : World) : gmap string jsval :=
  cacheMap (treeContext w).

Definition the_promiseMap (w : World) : gmap string PendingEntry :=
  promiseMap (treeContext w).

(** ** Promise operations *)

(** [new Promise(...)]: a fresh pending cell; its address is returned. *)
Definition newPromise (w : World) : nat * World :=
  (length (promises w), set_promises (λ ps, ps ++ [mkCell Pending [] false]) w).

Definition promiseState (w : World) (p : nat) : option PromiseState :=
  pstate <$> promises w !! p.

(** Settling a pending promise queues one job per reaction, in order, and
    empties the reaction list; settling a settled promise does nothing. *)
Definition settlePromise (p : nat) (s : PromiseState) (w : World) : World :=
  match promises w !! p with
  | Some (mkCell Pending rs h) =>
      set_microtasks (λ q, q ++ map (λ r, mkJob r s) rs)
        (set_promises (<[p := mkCell s [] h]>) w)
  | _ => w
  end.

Definition resolvePromise (p : nat) (v : jsval) : World → World :=
  settlePromise p (Fulfilled v).

Definition rejectPromise (p : nat) (e : jsval) : World → World :=
  settlePromise p (Rejected e).

(** [p.then(cb)]: allocates the derived promise and marks [p] as handled;
    on a pending [p] the reaction waits, on a settled [p] its job is queued
    at once. *)
Definition thenPromise (p : nat) (cb : Callback) (w : World) : nat * World :=
  let '(d, w1) := newPromise w in
  let r := mkReaction cb d in
  match promises w1 !! p with
  | Some (mkCell Pending rs _) =>
      (d, set_promises (<[p := mkCell Pending (rs ++ [r]) true]>) w1)
  | Some (mkCell s rs _) =>
      (d, set_microtasks (λ q, q ++ [mkJob r s])
            (set_promises (<[p := mkCell s rs true]>) w1))
  | None => (d, w1)
  end.

(** The bodies of the two callbacks. *)
Definition runCallback (cb : Callback) (v : jsval) (w : World) : World :=
  match cb with
  | OnSettled c =>
      match coordinators w !! c with
      | Some co =>
          let w1 := update_property c
            (λ pr, mkProperty v true (isSuspenseLoad pr) (loaderValue pr)) w in
          let w2 := set_treeContext (set_cacheMap (<[name co := v]>)) w1 in
          log_onLoaded c v w2
      | None => w
      end
  | OnLoader c outer =>
      let w1 := update_property c
        (λ pr, mkProperty (value pr) (isInit pr) false (loaderValue pr)) w in
      resolvePromise outer v w1
  end.

(** A reaction job: on fulfilment the callback runs and the derived promise
    is fulfilled with its result ([undefined]); a rejection has no handler
    and passes to the derived promise. *)
Definition runJob (j : Job) (w : World) : World :=
  let r := job_reaction j in
  match job_settled j with
  | Fulfilled v => resolvePromise (derived r) JUndefined (runCallback (onFulfilled r) v w)
  | Rejected e => rejectPromise (derived r) e w
  | Pending => w
  end.

(** One turn of the microtask queue. *)
Definition tick (w : World) : World :=
  match microtasks w with
  | [] => w
  | j :: q => runJob j (set_microtasks (λ _, q) w)
  end.

Fixpoint drainFuel (fuel : nat) (w : World) : World :=
  match fuel with
  | O => w
  | S n => match microtasks w with [] => w | _ => drainFuel n (tick w) end
  end.

(** What remains to be run: queued jobs and reactions still waiting. *)
Definition pendingWork (w : World) : nat :=
  length (microtasks w) + sum_list (map (λ cell, length (reactions cell)) (promises w)).

(** Run the microtask queue to completion. *)
Definition drain (w : World) : World := drainFuel (pendingWork w) w.

(** A promise that was rejected and on which [then] was never called. *)
Definition unhandledRejection (w : World) (p : nat) : Prop :=
  ∃ e, promises w !! p = Some (mkCell (Rejected e) [] false).

(** ** [SuspenseLoader]: the parts shared by both revisions *)

Definition idName (nm : string) : string :=
  String.append "#__NEXT_DATA__STREAM__" nm.

(** The first block of [SuspenseLoader]:
    [if (!property.isInit) { const value = cacheMap[name]; if (value) ... }] *)
Definition adoptCache (c : nat) (w : World) : World :=
  match coordinators w !! c with
  | Some co =>
      if isInit (property co) then w
      else
        let v := js_get (the_cacheMap w) (name co) in
        if truthy v then
          log_onLoaded c v
            (update_property c (λ pr, mkProperty v true false (loaderValue pr)) w)
        else w
  | None => w
  end.

Section Load.
Context `{JSON}.

(** The executor of [new Promise<T>((resolve) => ...)] in [load]. *)
Definition loadExecutor (c : nat) (co : Coordinator) (p : nat) (w : World) : World :=
  match (if isServer w then None else document w !! idName (name co)) with
  | Some innerHTML =>
      let w1 := update_property c
        (λ pr, mkProperty (value pr) (isInit pr) true (loaderValue pr)) w in
      match JSON_parse innerHTML ≫= get_value_field with
      | Some v => resolvePromise p v w1
      | None => rejectPromise p (JStr "Error") w1
      end
  | None =>
      let arg := js_or (loaderValue (property co)) (defaultValue co) in
      let '(lp, w1) := newPromise w in
      let w2 := log_loaderCall (mkCall c (name co) arg lp) w1 in
      snd (thenPromise lp (OnLoader c p) w2)
  end.

(** [load], the [useCallback] of [SuspenseLoader]. *)
Definition load (c : nat) (w : World) : option (nat * World) :=
  co ← coordinators w !! c;
  let registered :=
    if isServer w then the_promiseMap w !! name co ≫= entry_promise else None in
  let '(promise, w1) :=
    match registered with
    | Some p => (p, w)
    | None => let '(p, w0) := newPromise w in (p, loadExecutor c co p w0)
    end in
  let w2 := snd (thenPromise promise (OnSettled c) w1) in
  let w3 :=
    if isServer w then
      set_treeContext (set_promiseMap
        (<[name co := mkEntry (bool_decide (type co = streaming)) (Some promise)]>)) w2
    else w2 in
  Some (promise, w3).

(** [load] as a world transformer, for callers that drop the promise. *)
Definition load_ (c : nat) (w : World) : World :=
  match load c w with Some (_, w') => w' | None => w end.
End Load.

(** [loadDispatch] without its revision-specific [setVisible]. *)
Definition loadDispatchCore (c : nat) (arg : jsval) (w : World) : World :=
  match coordinators w !! c with
  | Some co =>
      let w1 := update_property c (λ pr, mkProperty JUndefined false (isSuspenseLoad pr) arg) w in
      let w2 := set_treeContext (set_cacheMap (delete (name co))) w1 in
      set_treeContext (set_promiseMap (delete (name co))) w2
  | None => w
  end.

(** ** Rendering *)

(** What one evaluation of [SuspenseLoader] hands to the engine. *)
Inductive Rendered :=
  | Fallback                     (** [<>{fallback}</>] *)
  | Suspended (p : nat)          (** [SuspenseWapper] threw [load()] *)
  | Hidden                       (** [<Suspense>] around [false] *)
  | Null                         (** [SuspenseWapper] returned [null] *)
  | Content (marker : option (string * string)).
      (** the provider and its children; [marker] is the
          [<script id=... type="application/json">] element with its
          [__html], when it is part of the output *)


(** The coordinator created by mounting [<SuspenseLoader name loaderValue type>]. *)
Definition newCoordinator (nm : string) (dflt : jsval) (ty : SuspenseType) : Coordinator :=
  mkCoordinator nm dflt ty emptyProperty (bool_decide (ty = csr)) true None 0.

(** [useState((isSuspenseLoad || isServer) && streaming)]: the initial value
    is used when the wrapper mounts, the stored one afterwards. *)
Definition requestDataState (w : World) (co : Coordinator) (streaming : bool) : bool :=
  match isRequestData co with
  | Some b => b
  | None => (isSuspenseLoad (property co) || isServer w) && streaming
  end.

(** The prop [streaming={!cacheSrcMap[name]}]. *)
Definition streamingProp (w : World) (co : Coordinator) : bool :=
  negb (truthy (js_get (cacheSrcMap w) (name co))).

(** [useEffect(() => setRequestData(false), [])] of a mounted wrapper. *)
Definition wapperEffect (c : nat) (w : World) : World :=
  update_coordinator c
    (λ co, match isRequestData co with
           | Some _ => set_isRequestData (Some false) co
           | None => co
           end) w.

(** [Object.assign(target, source)]: the source's entries win. *)
Definition Object_assign {A} (target source : gmap string A) : gmap string A :=
  source ∪ target.

(** *** [src/index.tsx] *)
Module Index.
Section WithJSON.
Context `{JSON}.

Definition SuspenseWapper (c : nat) (streaming : bool) (w : World)
    : option (Rendered * World) :=
  co ← coordinators w !! c;
  if negb (isInit (property co)) then
    '(p, w') ← load c w; Some (Suspended p, w')
  else
    let isRequestData := requestDataState w co streaming in
    let w1 := update_coordinator c (set_isRequestData (Some isRequestData)) w in
    Some (Content
            (if isRequestData
             then Some (idName (name co),
                        JSON_stringify (value_object (value (property co))))
             else None),
          w1).

Definition SuspenseLoader (c : nat) (w : World) : option (Rendered * World) :=
  let w1 := adoptCache c w in
  co ← coordinators w1 !! c;
  if isCSRFallback co then Some (Fallback, w1)
  else if isVisible co then SuspenseWapper c (streamingProp w1 co) w1
  else Some (Hidden, update_coordinator c (set_isRequestData None) w1).

Definition loadDispatch (c : nat) (arg : jsval) (w : World) : World :=
  update_coordinator c (λ co, bump_reloads (set_isVisible (isServer w || false) co))
    (loadDispatchCore c arg w).

(** The two effects of [SuspenseLoader]: [setCSRFallback(false)] and
    [setVisible(true)]. *)
Definition loaderEffects (c : nat) (w : World) : World :=
  update_coordinator c (λ co, set_isVisible true (set_isCSRFallback false co)) w.
End WithJSON.

(** [globalTreeContext] is the world's [treeContext] when no provider is
    in scope. *)
Definition setSuspenseTreeContext (context : option SuspenseTreeContextType)
    (w : World) : World :=
  match context with
  | None => w
  | Some ctx =>
      let w1 := set_treeContext
        (set_promiseMap (λ target, Object_assign target (promiseMap ctx))) w in
      let w2 := set_treeContext
        (set_cacheMap (λ target, Object_assign target (cacheMap ctx))) w1 in
      set_cacheSrcMap (cacheMap ctx) w2
  end.
End Index.

(** *** The revision with [timeout] and the React 17 path *)
Module Part000.
Section WithJSON.
Context `{JSON}.
(** [Number(/(\d+)/.exec(React.version)![0]) >= 18] *)
Variable isReact18 : bool.

Definition SuspenseWapper (c : nat) (streaming : bool) (w : World)
    : option (Rendered * World) :=
  co ← coordinators w !! c;
  if negb (isInit (property co)) && (isReact18 || negb (isServer w)) then
    '(p, w') ← load c w; Some (Suspended p, w')
  else
    let isRequestData := requestDataState w co streaming in
    let w1 := update_coordinator c (set_isRequestData (Some isRequestData)) w in
    if negb (isInit (property co)) then
      '(_, w') ← load c w1; Some (Null, w')
    else
      Some (Content
              (if isRequestData
               then Some (idName (name co),
                          JSON_stringify (value_object (value (property co))))
               else None),
            w1).

Definition SuspenseLoader (c : nat) (w : World) : option (Rendered * World) :=
  let w1 := adoptCache c w in
  co ← coordinators w1 !! c;
  if isCSRFallback co then Some (Fallback, w1)
  else if isServer w1 && negb isReact18 then
    if bool_decide (is_Some (the_promiseMap w1 !! name co))
       && negb (isInit (property co))
    then Some (Fallback, w1)
    else SuspenseWapper c (streamingProp w1 co) w1
  else SuspenseWapper c (streamingProp w1 co) w1.

Definition loadDispatch (c : nat) (arg : jsval) (w : World) : World :=
  update_coordinator c bump_reloads (loadDispatchCore c arg w).

Definition loaderEffects (c : nat) (w : World) : World :=
  update_coordinator c (set_isCSRFallback false) w.
End WithJSON.

Definition setSuspenseTreeContext (context : option SuspenseTreeContextType)
    (w : World) : World :=
  match context with
  | None => w
  | Some ctx =>
      let w1 := set_treeContext (set_promiseMap (λ _, promiseMap ctx)) w in
      let w2 := set_treeContext (set_cacheMap (λ _, cacheMap ctx)) w1 in
      set_cacheSrcMap (cacheMap ctx) w2
  end.
End Part000.

(** ** The environment *)

Inductive Revision :=
  | IndexTsx
  | Part000Tsx (isReact18 : bool).

(** What the engine, the user, the loader and the job queue do to a world. *)
Inductive Event :=
  | Mount (nm : string) (dflt : jsval) (ty : SuspenseType)
      (** a [SuspenseLoader] is mounted and evaluated for the first time *)
  | Render (c : nat)               (** coordinator [c] is evaluated again *)
  | LoaderEffects (c : nat)        (** the effects of [SuspenseLoader] run *)
  | WapperEffect (c : nat)         (** the effect of [SuspenseWapper] runs *)
  | Dispatch (c : nat) (arg : jsval)   (** [dispatch(arg)] *)
  | LoaderSettles (p : nat) (s : PromiseState)
      (** the promise returned by a [loader] call settles *)
  | Tick.                          (** one job of the microtask queue runs *)

Definition isLoaderPromise (w : World) (p : nat) : bool :=
  bool_decide (p ∈ map call_promise (loaderCalls w)).

Section Events.
Context `{JSON}.
Variable rev : Revision.

Definition render (c : nat) (w : World) : option (Rendered * World) :=
  match rev with
  | IndexTsx => Index.SuspenseLoader c w
  | Part000Tsx r => Part000.SuspenseLoader r c w
  end.

Definition loadDispatch (c : nat) (arg : jsval) (w : World) : World :=
  match rev with
  | IndexTsx => Index.loadDispatch c arg w
  | Part000Tsx _ => Part000.loadDispatch c arg w
  end.

Definition loaderEffects (c : nat) (w : World) : World :=
  match rev with
  | IndexTsx => Index.loaderEffects c w
  | Part000Tsx _ => Part000.loaderEffects c w
  end.

Definition render_ (c : nat) (w : World) : World :=
  match render c w with Some (_, w') => w' | None => w end.

Definition mount (nm : string) (dflt : jsval) (ty : SuspenseType) (w : World) : World :=
  render_ (length (coordinators w))
    (set_coordinators (λ cs, cs ++ [newCoordinator nm dflt ty]) w).

(** Effects do not run in a server render. *)
Definition apply (ev : Event) (w : World) : World :=
  match ev with
  | Mount nm dflt ty => mount nm dflt ty w
  | Render c => render_ c w
  | LoaderEffects c => if isServer w then w else loaderEffects c w
  | WapperEffect c => if isServer w then w else wapperEffect c w
  | Dispatch c arg => loadDispatch c arg w
  | LoaderSettles p s =>
      if isLoaderPromise w p then
        match s with Pending => w | _ => settlePromise p s w end
      else w
  | Tick => tick w
  end.

Definition exec (evs : list Event) (w : World) : World :=
  foldl (λ w ev, apply ev w) w evs.

(** A task of the event loop: the event, then the microtask queue runs
    until it is empty. *)
Definition step (ev : Event) (w : World) : World := drain (apply ev w).

Definition run (evs : list Event) (w : World) : World :=
  foldl (λ w ev, step ev w) w evs.

(** A stretch of events after which the microtask queue runs dry. *)
Definition task (evs : list Event) (w : World) : World := drain (exec evs w).

Definition runTasks (ts : list (list Event)) (w : World) : World :=
  foldl (λ w evs, task evs w) w ts.
End Events.

(** ** The tree collector *)

(** What happens while [getDataFromTree] is suspended in an [await]: a
    stretch of events of the engine, the loader and the job queue, at whose
    end the queue has run dry and the suspended function could resume; or
    the firing of the timer of [setTimeout]. *)
Inductive AsyncEvent :=
  | Task (evs : list Event)
  | TimerFires.

(** How an [await] resumes. *)
Inductive Resumed :=
  | Value (result : jsval)
  | Thrown (e : jsval).

Inductive Outcome :=
  | Returned (context : option SuspenseTreeContextType) (w : World)
      (** the promise of [getDataFromTree] is fulfilled with [context];
          [w] is the world at that moment *)
  | Throws (e : jsval)
  | Waiting        (** the events ran out with the [await] still pending *)
  | OutOfFuel.

(** [Object.values(promiseMap).filter((v) => !isStreaming || !v.streaming)
    .map((v) => v.promise)] *)
Definition awaitedPromises (isStreaming : bool) (w : World) : list (option nat) :=
  map entry_promise
    (List.filter (λ v, negb isStreaming || negb (entry_streaming v))
       (map snd (map_to_list (the_promiseMap w)))).

(** The state of [Promise.all(ps)]: rejected as soon as a member is,
    fulfilled with the array of values once all members are; a member that
    is not a promise counts as its own value. *)
Fixpoint promiseAll (w : World) (ps : list (option nat)) : PromiseState :=
  match ps with
  | [] => Fulfilled (JArr [])
  | o :: ps' =>
      let here :=
        match o with
        | None => Fulfilled JUndefined
        | Some p => default Pending (promiseState w p)
        end in
      match here, promiseAll w ps' with
      | Rejected e, _ => Rejected e
      | _, Rejected e => Rejected e
      | Fulfilled v, Fulfilled (JArr vs) => Fulfilled (JArr (v :: vs))
      | _, _ => Pending
      end
  end.

(** [timeout && setTimeout(resolve, timeout)] arms the timer. *)
Definition timerArmed (timeout : option Z) : bool :=
  match timeout with
  | Some ms => negb (ms =? 0)%Z
  | None => false
  end.

(** The scope of the [TreeContext.Provider] that [getDataFromTree] wraps
    around [element]: empty tables, and nothing mounted yet. *)
Definition freshScope (w : World) : World :=
  mkWorld (isServer w) (document w) emptyContext (cacheSrcMap w) [] [] [] [] [].

Section Collector.
Context `{JSON}.
Variable rev : Revision.
(** ['renderToReadableStream' in ReactDOMServer] *)
Variable isStreaming : bool.

(** [await Promise.race([Promise.all(awaited), promiseTimeout])]: the
    function resumes with the array once every awaited promise is
    fulfilled, with [undefined] when an armed timer fires before that. *)
Fixpoint awaitRace (armed : bool) (awaited : list (option nat))
    (env : list AsyncEvent) (w : World)
    : option (Resumed * World * list AsyncEvent) :=
  match promiseAll w awaited with
  | Fulfilled arr => Some (Value arr, w, env)
  | Rejected e => Some (Thrown e, w, env)
  | Pending =>
      match env with
      | [] => None
      | TimerFires :: env' =>
          if armed then Some (Value JUndefined, w, env')
          else awaitRace armed awaited env' w
      | Task evs :: env' => awaitRace armed awaited env' (task rev evs w)
      end
  end.

(** [await Promise.all(awaited)] *)
Fixpoint awaitAll (awaited : list (option nat))
    (env : list AsyncEvent) (w : World)
    : option (Resumed * World * list AsyncEvent) :=
  match promiseAll w awaited with
  | Fulfilled arr => Some (Value arr, w, env)
  | Rejected e => Some (Thrown e, w, env)
  | Pending =>
      match env with
      | [] => None
      | TimerFires :: env' => awaitAll awaited env' w
      | Task evs :: env' => awaitAll awaited env' (task rev evs w)
      end
  end.

(** The [for (;;)] of the revision with [timeout]. *)
Fixpoint collectLoop (fuel : nat) (armed : bool) (len : nat)
    (env : list AsyncEvent) (w : World) : Outcome :=
  match fuel with
  | O => OutOfFuel
  | S fuel' =>
      match awaitRace armed (awaitedPromises isStreaming w) env w with
      | None => Waiting
      | Some (Thrown e, _, _) => Throws e
      | Some (Value result, w', env') =>
          if negb (truthy result) then Returned (Some (treeContext w')) w'
          else
            let newlength := size (the_promiseMap w') in
            if (newlength =? len)%nat then Returned (Some (treeContext w')) w'
            else collectLoop fuel' armed newlength env' w'
      end
  end.

(** The [for (;;)] of [src/index.tsx]. *)
Fixpoint collectLoopAll (fuel : nat) (len : nat)
    (env : list AsyncEvent) (w : World) : Outcome :=
  match fuel with
  | O => OutOfFuel
  | S fuel' =>
      match awaitAll (awaitedPromises isStreaming w) env w with
      | None => Waiting
      | Some (Thrown e, _, _) => Throws e
      | Some (Value _, w', env') =>
          let newlength := size (the_promiseMap w') in
          if (newlength =? len)%nat then Returned (Some (treeContext w')) w'
          else collectLoopAll fuel' newlength env' w'
      end
  end.
End Collector.

(** [element] is what the engine does synchronously inside
    [renderToReadableStream] (or [renderToStaticNodeStream(...).read()]);
    [env] is what happens afterwards. *)
Module Part000Collector.
Definition getDataFromTree `{JSON} (isReact18 isStreaming : bool)
    (element : list Event) (timeout : option Z)
    (env : list AsyncEvent) (w : World) : Outcome :=
  if negb (isServer w) then Returned None w
  else
    let rev := Part000Tsx isReact18 in
    let w0 := exec rev element (freshScope w) in
    let len := size (the_promiseMap w0) in
    collectLoop rev isStreaming (S (length env)) (timerArmed timeout) len env w0.
End Part000Collector.

Module IndexCollector.
Definition getDataFromTree `{JSON} (isStreaming : bool)
    (element : list Event) (env : list AsyncEvent) (w : World) : Outcome :=
  if negb (isServer w) then Returned None w
  else
    let w0 := exec IndexTsx element (freshScope w) in
    let len := size (the_promiseMap w0) in
    collectLoopAll IndexTsx isStreaming (S (length env)) len env w0.
End IndexCollector.

(** ** Views of a world used in the statements *)

(** The part of a world that only [load], [loadDispatch] and
    [setSuspenseTreeContext] can change. *)
Definition observables (w : World) :=
  (isServer w, document w, cacheSrcMap w, the_promiseMap w, loaderCalls w).

(** A view of the mounted coordinators: one component of each. *)
Definition view {A} (g : Coordinator → A) (w : World) : list A :=
  map g (coordinators w).

(** A component that assignments to the [property] object leave alone. *)
Class PropertyBlind {A} (g : Coordinator → A) :=
  property_blind : ∀ f co, g (set_property f co) = g co.

(** The props of a coordinator: fixed at mount. *)
Definition propsOf (co : Coordinator) : string * jsval * SuspenseType :=
  (name co, defaultValue co, type co).

Global Instance propsOf_blind : PropertyBlind propsOf.
Proof. by intros f []. Qed.

Abbreviation props := (view propsOf).

(** Where [load] takes its promise from, in the order the code tries:
    the promise registered in [promiseMap] (server only), the element with
    id [idName] (client only), the loader. *)
Inductive LoadPath :=
  | FromPending (p : nat)
  | FromMarker (innerHTML : string)
  | FromLoader.

Definition loadPath (w : World) (co : Coordinator) : LoadPath :=
  match (if isServer w then the_promiseMap w !! name co ≫= entry_promise else None) with
  | Some p => FromPending p
  | None =>
      match (if isServer w then None else document w !! idName (name co)) with
      | Some innerHTML => FromMarker innerHTML
      | None => FromLoader
      end
  end.

(** The loader invocations made for the name [nm]. *)
Definition callsFor (w : World) (nm : string) : list LoaderCall :=
  List.filter (λ call, bool_decide (call_name call = nm)) (loaderCalls w).

Definition isDispatch (ev : Event) : bool :=
  match ev with Dispatch _ _ => true | _ => false end.

(** The de-duplication invariant of a server scope: a name has at most one
    loader invocation, and a name that has one has a promise registered. *)
Definition deduplicated (w : World) : Prop :=
  ∀ nm,
    length (callsFor w nm) ≤ 1
    ∧ (callsFor w nm ≠ [] →
       ∃ e p, the_promiseMap w !! nm = Some e ∧ entry_promise e = Some p).



(** The [<script>] element that [SuspenseWapper] renders when
    [isRequestData] holds. *)
Definition dataMarker `{JSON} (co : Coordinator) : string * string :=
  (idName (name co), JSON_stringify (value_object (value (property co)))).


(** The two hook states that decide whether a mounted wrapper can still
    emit: [isVisible] and the wrapper's [isRequestData]. *)
Definition latchOf (co : Coordinator) : bool * option bool :=
  (isVisible co, isRequestData co).

Global Instance latchOf_blind : PropertyBlind latchOf.
Proof. by intros f []. Qed.








(** ** The rest of the two files *)

(** [setSuspenseTreeContext] and [getDataFromTree] of a revision;
    [src/index.tsx] has no [timeout]. *)
Definition setSuspenseTreeContext (rev : Revision)
    (context : option SuspenseTreeContextType) (w : World) : World :=
  match rev with
  | IndexTsx => Index.setSuspenseTreeContext context w
  | Part000Tsx _ => Part000.setSuspenseTreeContext context w
  end.

Definition getDataFromTree `{JSON} (rev : Revision) (isStreaming : bool)
    (element : list Event) (timeout : option Z)
    (env : list AsyncEvent) (w : World) : Outcome :=
  match rev with
  | IndexTsx => IndexCollector.getDataFromTree isStreaming element env w
  | Part000Tsx isReact18 =>
      Part000Collector.getDataFromTree isReact18 isStreaming element timeout env w
  end.

(** The value of [SuspenseDataContext.Provider], [{ value, dispatch }]:
    [dispatch] is the [loadDispatch] of a coordinator, named here by the
    coordinator's index.  In the revision whose [children] may be a
    function, these are also the two arguments of [children(value,
    dispatch)]. *)
Record SuspenseData := mkData {
  data_value : jsval;
  data_dispatch : nat;
}.

Section Children.
Context `{JSON}.
Variable rev : Revision.

(** [useContext(SuspenseDataContext)] in a child of coordinator [c] during
    the evaluation of [c]: the provider is part of the output only when
    [SuspenseWapper] returns its children. *)
Definition providedContext (c : nat) (w : World) : option SuspenseData :=
  match render rev c w with
  | Some (Content _, w') =>
      co ← coordinators w' !! c; Some (mkData (value (property co)) c)
  | _ => None
  end.

(** [useSuspenseData()] and [useSuspenseDispatch()]; without a provider
    [useContext] gives [undefined] and reading its property throws
    ([None]). *)
Definition useSuspenseData (c : nat) (w : World) : option jsval :=
  data_value <$> providedContext c w.

Definition useSuspenseDispatch (c : nat) (w : World) : option nat :=
  data_dispatch <$> providedContext c w.
End Children.

(** ** Further views used in the statements *)

Global Instance isCSRFallback_blind : PropertyBlind isCSRFallback.
Proof. by intros f []. Qed.

(** The loader invocations made by coordinator [c]. *)
Definition callsBy (w : World) (c : nat) : list LoaderCall :=
  List.filter (λ call, bool_decide (call_coordinator call = c)) (loaderCalls w).

(** The record of coordinator [c] is initialized. *)
Definition initialized (w : World) (c : nat) : Prop :=
  ∃ co, coordinators w !! c = Some co ∧ isInit (property co) = true.

(** Every event but the reload of coordinator [c]. *)
Definition reloads_other (c : nat) (ev : Event) : Prop :=
  match ev with
  | Dispatch c' _ => c' ≠ c
  | _ => True
  end.

(** A promise registered in the Pending-Load Table. *)
Definition registered (w : World) (p : nat) : Prop :=
  ∃ nm e, the_promiseMap w !! nm = Some e ∧ entry_promise e = Some p.

(** The promises that something may still reject: those that a loader call
    returned, and those derived by a [then] whose reaction has not run. *)
Definition exposed (w : World) (d : nat) : Prop :=
  d ∈ map call_promise (loaderCalls w)
  ∨ (∃ i cell r, promises w !! i = Some cell ∧ r ∈ reactions cell ∧ derived r = d)
  ∨ (∃ j, j ∈ microtasks w ∧ derived (job_reaction j) = d).

(** Every exposed promise is allocated. *)
Definition bounded (w : World) : Prop :=
  ∀ d, exposed w d → d < length (promises w).

(** An allocated promise that is fulfilled, or pending and not exposed. *)
Definition unrejectable (w : World) (p : nat) : Prop :=
  p < length (promises w)
  ∧ ((∃ v, promiseState w p = Some (Fulfilled v))
     ∨ (promiseState w p = Some Pending ∧ ¬ exposed w p)).

(** From [w] to [w'] no exposed promise is left unallocated and no
    unrejectable promise is lost. *)
Definition advances (w w' : World) : Prop :=
  (bounded w → bounded w') ∧ (∀ p, unrejectable w p → unrejectable w' p).

(** Something can still fulfil [p]: a continuation
    [(v) => { ...; resolve(v); }] whose [resolve] is that of [p] waits as a
    reaction or as a job. *)
Definition resolvable (w : World) (p : nat) : Prop :=
  (∃ i cell r c, promises w !! i = Some cell ∧ r ∈ reactions cell
                 ∧ onFulfilled r = OnLoader c p)
  ∨ (∃ j c, j ∈ microtasks w ∧ onFulfilled (job_reaction j) = OnLoader c p).

(** A pending promise that nothing can settle any more. *)
Definition orphaned (w : World) (p : nat) : Prop :=
  p < length (promises w) ∧ promiseState w p = Some Pending
  ∧ ¬ exposed w p ∧ ¬ resolvable w p.

(** Every promise that a loader call, a reaction or a job refers to is
    allocated. *)
Definition allocated (w : World) : Prop :=
  ∀ p, exposed w p ∨ resolvable w p → p < length (promises w).

(** The invariant of a server-side scope. *)
Definition serverScope (w : World) : Prop :=
  isServer w = true ∧ bounded w ∧ ∀ p, registered w p → unrejectable w p.

(** Every coordinator that the event mounts is of type ['streaming']. *)
Definition mountsStreaming (ev : Event) : Prop :=
  match ev with
  | Mount _ _ ty => ty = streaming
  | _ => True
  end.

(** Every mounted coordinator is of type ['streaming'] and every Pending
    Entry is flagged as streamed. *)
Definition streamingOnly (w : World) : Prop :=
  (∀ x, x ∈ props w → x.2 = streaming)
  ∧ (∀ nm e, the_promiseMap w !! nm = Some e → entry_streaming e = true).

(** * Properties *)

(** ** What the operations leave alone *)

Lemma view_alter {A} (g : Coordinator → A) (f : Coordinator → Coordinator) c w :
  (∀ co, g (f co) = g co) →
  view g (update_coordinator c f w) = view g w.
Proof.
  intros Hf. unfold view, update_coordinator. simpl.
  apply list_eq. intros i. rewrite !list_lookup_fmap.
  destruct (decide (c = i)) as [->|Hne].
  - rewrite list_lookup_alter_eq. destruct (coordinators w !! i) as [co|]; [|done].
    simpl. by rewrite Hf.
  - by rewrite list_lookup_alter_ne.
Qed.

Lemma view_lookup {A} (g : Coordinator → A) w c :
  view g w !! c = g <$> coordinators w !! c.
Proof. unfold view. by rewrite list_lookup_fmap. Qed.

Section Views.
Context {A} (g : Coordinator → A) `{!PropertyBlind g}.

Lemma view_update_property c f w : view g (update_property c f w) = view g w.
Proof. apply (view_alter g (set_property f)). intros co. apply property_blind. Qed.

Lemma view_settlePromise p s w : view g (settlePromise p s w) = view g w.
Proof. unfold settlePromise. by repeat case_match. Qed.

Lemma view_thenPromise p cb w : view g (thenPromise p cb w).2 = view g w.
Proof. unfold thenPromise. simpl. by repeat case_match. Qed.

Lemma view_runCallback cb v w : view g (runCallback cb v w) = view g w.
Proof.
  destruct cb; simpl.
  - case_match; [|done]. apply (view_update_property c _ w).
  - unfold resolvePromise. rewrite view_settlePromise. apply view_update_property.
Qed.

Lemma view_tick w : view g (tick w) = view g w.
Proof.
  unfold tick. destruct (microtasks w) as [|j q]; [done|].
  unfold runJob. destruct (job_settled j); [done| |].
  - unfold resolvePromise. by rewrite view_settlePromise, view_runCallback.
  - unfold rejectPromise. by rewrite view_settlePromise.
Qed.

Lemma view_drainFuel n w : view g (drainFuel n w) = view g w.
Proof.
  revert w. induction n as [|n IH]; intros w; simpl; [done|].
  destruct (microtasks w); [done|]. by rewrite IH, view_tick.
Qed.

Lemma view_adoptCache c w : view g (adoptCache c w) = view g w.
Proof.
  unfold adoptCache. repeat case_match; try done.
  apply (view_update_property c _ w).
Qed.

Lemma view_loadDispatchCore c arg w : view g (loadDispatchCore c arg w) = view g w.
Proof.
  unfold loadDispatchCore. case_match; [|done].
  apply (view_update_property c _ w).
Qed.
End Views.

Lemma observables_settlePromise p s w :
  observables (settlePromise p s w) = observables w.
Proof. unfold settlePromise. by repeat case_match. Qed.

Lemma observables_runCallback cb v w :
  observables (runCallback cb v w) = observables w.
Proof.
  destruct cb; simpl.
  - by case_match.
  - unfold resolvePromise. by rewrite observables_settlePromise.
Qed.

Lemma observables_tick w : observables (tick w) = observables w.
Proof.
  unfold tick. destruct (microtasks w) as [|j q]; [done|].
  unfold runJob. destruct (job_settled j); [done| |].
  - unfold resolvePromise. by rewrite observables_settlePromise, observables_runCallback.
  - unfold rejectPromise. by rewrite observables_settlePromise.
Qed.


Lemma observables_adoptCache c w : observables (adoptCache c w) = observables w.
Proof. unfold adoptCache. by repeat case_match. Qed.

(** Everything but the promise heap and the job queue. *)
Lemma settlePromise_outside p s w :
  isServer (settlePromise p s w) = isServer w
  ∧ document (settlePromise p s w) = document w
  ∧ treeContext (settlePromise p s w) = treeContext w
  ∧ cacheSrcMap (settlePromise p s w) = cacheSrcMap w
  ∧ coordinators (settlePromise p s w) = coordinators w
  ∧ loaderCalls (settlePromise p s w) = loaderCalls w
  ∧ onLoadedCalls (settlePromise p s w) = onLoadedCalls w.
Proof. unfold settlePromise. by repeat case_match. Qed.

Lemma thenPromise_outside p cb w :
  let w' := (thenPromise p cb w).2 in
  isServer w' = isServer w
  ∧ document w' = document w
  ∧ treeContext w' = treeContext w
  ∧ cacheSrcMap w' = cacheSrcMap w
  ∧ coordinators w' = coordinators w
  ∧ loaderCalls w' = loaderCalls w
  ∧ onLoadedCalls w' = onLoadedCalls w.
Proof. unfold thenPromise. simpl. by repeat case_match. Qed.

Section LoadFacts.
Context `{JSON}.

Lemma load_is_Some c w co : coordinators w !! c = Some co → is_Some (load c w).
Proof.
  intros Hc. unfold load. rewrite Hc. simpl.
  repeat case_match; eauto.
Qed.

Lemma load_None c w : coordinators w !! c = None → load c w = None.
Proof. intros Hc. unfold load. by rewrite Hc. Qed.

Lemma loadExecutor_outside c co p w :
  let w' := loadExecutor c co p w in
  isServer w' = isServer w
  ∧ document w' = document w
  ∧ treeContext w' = treeContext w
  ∧ cacheSrcMap w' = cacheSrcMap w.
Proof.
  unfold loadExecutor. simpl.
  destruct (if isServer w then None else document w !! idName (name co)) as [html|].
  - destruct (JSON_parse html ≫= get_value_field);
      unfold resolvePromise, rejectPromise;
      match goal with |- context [settlePromise ?p ?s ?w0] =>
        destruct (settlePromise_outside p s w0) as (-> & -> & -> & -> & _) end; done.
  - match goal with |- context [thenPromise ?p ?s ?w0] =>
      destruct (thenPromise_outside p s w0) as (-> & -> & -> & -> & _) end. done.
Qed.

Lemma view_loadExecutor {A} (g : Coordinator → A) `{!PropertyBlind g} c co p w :
  view g (loadExecutor c co p w) = view g w.
Proof.
  unfold loadExecutor.
  destruct (if isServer w then None else document w !! idName (name co)) as [html|].
  - destruct (JSON_parse html ≫= get_value_field);
      unfold resolvePromise, rejectPromise;
      rewrite view_settlePromise by done; apply (view_update_property g c _ w).
  - simpl. by rewrite view_thenPromise.
Qed.

(** [load] assigns to the [property] object and to nothing else of a
    coordinator. *)
Lemma view_load {A} (g : Coordinator → A) `{!PropertyBlind g} c w p w' :
  load c w = Some (p, w') → view g w' = view g w.
Proof.
  unfold load. destruct (coordinators w !! c) as [co|]; [|done]. simpl.
  set (reg := if isServer w then _ else None).
  destruct reg as [q|]; simpl; intros [= <- <-].
  - assert (∀ w0, view g (if isServer w
        then set_treeContext (set_promiseMap
          (<[name co := mkEntry (bool_decide (type co = streaming)) (Some q)]>)) w0
        else w0) = view g w0) as -> by (intros; by destruct (isServer w)).
    by rewrite view_thenPromise.
  - assert (∀ w0, view g (if isServer w
        then set_treeContext (set_promiseMap
          (<[name co := mkEntry (bool_decide (type co = streaming))
                          (Some (length (promises w)))]>)) w0
        else w0) = view g w0) as -> by (intros; by destruct (isServer w)).
    by rewrite view_thenPromise, view_loadExecutor.
Qed.

Lemma loadExecutor_loaderCalls c co p w :
  loaderCalls (loadExecutor c co p w) =
    match (if isServer w then None else document w !! idName (name co)) with
    | Some _ => loaderCalls w
    | None =>
        loaderCalls w ++
          [mkCall c (name co) (js_or (loaderValue (property co)) (defaultValue co))
             (length (promises w))]
    end.
Proof.
  unfold loadExecutor. simpl.
  destruct (if isServer w then None else document w !! idName (name co)) as [html|].
  - destruct (JSON_parse html ≫= get_value_field);
      unfold resolvePromise, rejectPromise;
      match goal with |- context [settlePromise ?p ?s ?w0] =>
        destruct (settlePromise_outside p s w0) as (_ & _ & _ & _ & _ & -> & _) end; done.
  - match goal with |- context [thenPromise ?p ?s ?w0] =>
      destruct (thenPromise_outside p s w0) as (_ & _ & _ & _ & _ & -> & _) end. done.
Qed.

(** [load] touches neither the flags of the host, nor the document, nor
    the cache, nor any prop. *)
Lemma load_frame c w p w' :
  load c w = Some (p, w') →
  isServer w' = isServer w ∧ document w' = document w
  ∧ cacheSrcMap w' = cacheSrcMap w ∧ the_cacheMap w' = the_cacheMap w
  ∧ props w' = props w.
Proof.
  intros Hl. pose proof (view_load propsOf c w p w' Hl) as Hp. revert Hl.
  unfold load. destruct (coordinators w !! c) as [co|]; [|done]. simpl.
  set (reg := if isServer w then _ else None).
  destruct reg as [q|].
  - intros [= <- <-].
    destruct (thenPromise_outside q (OnSettled c) w) as (Hs & Hd & Ht & Hsrc & _).
    unfold the_cacheMap.
    destruct (isServer w) eqn:Hsrv; simpl; rewrite ?Hs, ?Hd, ?Ht, ?Hsrc; done.
  - simpl. intros [= <- <-].
    set (w0 := set_promises _ w).
    destruct (loadExecutor_outside c co (length (promises w)) w0)
      as (Hs & Hd & Ht & Hsrc).
    destruct (thenPromise_outside (length (promises w)) (OnSettled c)
                (loadExecutor c co (length (promises w)) w0))
      as (Hs' & Hd' & Ht' & Hsrc' & _).
    unfold the_cacheMap.
    destruct (isServer w) eqn:Hsrv; simpl;
      rewrite ?Hs', ?Hd', ?Ht', ?Hsrc', ?Hs, ?Hd, ?Ht, ?Hsrc; done.
Qed.

(** On the server [load] registers the promise it returns under the
      coordinator's name; on the client it leaves [promiseMap] alone. *)
Lemma load_promiseMap c w co p w' :
  coordinators w !! c = Some co →
  load c w = Some (p, w') →
  the_promiseMap w' =
    if isServer w
    then <[name co := mkEntry (bool_decide (type co = streaming)) (Some p)]>
           (the_promiseMap w)
    else the_promiseMap w.
Proof.
  intros Hc. unfold load. rewrite Hc. simpl.
  set (reg := if isServer w then _ else None).
  destruct reg as [q|].
  - intros [= <- <-].
    destruct (thenPromise_outside q (OnSettled c) w) as (_ & _ & Ht & _).
    unfold the_promiseMap. destruct (isServer w); simpl; by rewrite Ht.
  - simpl. intros [= <- <-].
    set (w0 := set_promises _ w).
    destruct (loadExecutor_outside c co (length (promises w)) w0)
      as (_ & _ & Ht & _).
    destruct (thenPromise_outside (length (promises w)) (OnSettled c)
                (loadExecutor c co (length (promises w)) w0))
      as (_ & _ & Ht' & _).
    unfold the_promiseMap. destruct (isServer w); simpl; by rewrite Ht', Ht.
Qed.

(** The loader is invoked only on the third path, with the override if
    it is truthy and the default argument otherwise. *)
Lemma load_loaderCalls c w co p w' :
  coordinators w !! c = Some co →
  load c w = Some (p, w') →
  loaderCalls w' =
    match loadPath w co with
    | FromLoader =>
        loaderCalls w ++
          [mkCall c (name co) (js_or (loaderValue (property co)) (defaultValue co))
             (S (length (promises w)))]
    | _ => loaderCalls w
    end.
Proof.
  intros Hc. unfold load, loadPath. rewrite Hc. simpl.
  set (reg := if isServer w then _ else None).
  destruct reg as [q|].
  - intros [= <- <-].
    destruct (thenPromise_outside q (OnSettled c) w) as (_ & _ & _ & _ & _ & Hl & _).
    destruct (isServer w); simpl; by rewrite Hl.
  - simpl. intros [= <- <-].
    set (w0 := set_promises _ w).
    destruct (thenPromise_outside (length (promises w)) (OnSettled c)
                (loadExecutor c co (length (promises w)) w0))
      as (_ & _ & _ & _ & _ & Hl & _).
    assert (loaderCalls (if isServer w
              then set_treeContext (set_promiseMap
                (<[name co := mkEntry (bool_decide (type co = streaming))
                                (Some (length (promises w)))]>))
                (thenPromise (length (promises w)) (OnSettled c)
                  (loadExecutor c co (length (promises w)) w0)).2
              else (thenPromise (length (promises w)) (OnSettled c)
                  (loadExecutor c co (length (promises w)) w0)).2)
            = loaderCalls (loadExecutor c co (length (promises w)) w0)) as ->.
    { destruct (isServer w); simpl; by rewrite Hl. }
    rewrite loadExecutor_loaderCalls. subst w0. simpl.
    rewrite List.length_app. simpl.
    replace (length (promises w) + 1) with (S (length (promises w))) by lia.
    by destruct (if isServer w then None else document w !! idName (name co)).
Qed.

(** Which promise [load] returns. *)
Lemma load_promise c w co p w' :
  coordinators w !! c = Some co →
  load c w = Some (p, w') →
  p = match loadPath w co with
      | FromPending q => q
      | _ => length (promises w)
      end.
Proof.
  intros Hc. unfold load, loadPath. rewrite Hc. simpl.
  set (reg := if isServer w then _ else None).
  destruct reg as [q|]; simpl.
  - by intros [= <- <-].
  - intros [= <- <-].
    by destruct (if isServer w then None else document w !! idName (name co)).
Qed.
End LoadFacts.

Section RenderFacts.
Context `{JSON}.

Lemma Index_SuspenseWapper_cases c sp w r w' :
  Index.SuspenseWapper c sp w = Some (r, w') →
  observables w' = observables w ∨ ∃ p, load c w = Some (p, w').
Proof.
  unfold Index.SuspenseWapper.
  destruct (coordinators w !! c) as [co|]; simpl; [|done].
  destruct (isInit (property co)); simpl; [intros [= <- <-]; by left|].
  destruct (load c w) as [[p w1]|]; simpl; [|done].
  intros [= <- <-]. right. eauto.
Qed.

Lemma Part000_SuspenseWapper_cases r18 c sp w r w' :
  Part000.SuspenseWapper r18 c sp w = Some (r, w') →
  observables w' = observables w
  ∨ ∃ w0 p, observables w0 = observables w ∧ load c w0 = Some (p, w').
Proof.
  unfold Part000.SuspenseWapper.
  destruct (coordinators w !! c) as [co|]; simpl; [|done].
  destruct (negb (isInit (property co)) && (r18 || negb (isServer w))).
  - destruct (load c w) as [[p w1]|] eqn:Hl; simpl; [|done].
    intros [= <- <-]. right. eauto.
  - destruct (negb (isInit (property co))); [|intros [= <- <-]; by left].
    match goal with |- context [load c ?w1] =>
      destruct (load c w1) as [[p w2]|] eqn:Hl; simpl; [|done] end.
    intros [= <- <-]. right. eexists _, _. split; [|exact Hl]. done.
Qed.

(** An evaluation of [SuspenseLoader] changes what is observable only by
    calling [load], and it calls [load] at most once. *)
Lemma render_cases rev c w r w' :
  render rev c w = Some (r, w') →
  observables w' = observables w
  ∨ ∃ w0 p, observables w0 = observables w ∧ load c w0 = Some (p, w').
Proof.
  assert (Ha := observables_adoptCache c w).
  destruct rev as [|r18]; simpl.
  - unfold Index.SuspenseLoader.
    destruct (coordinators (adoptCache c w) !! c) as [co|]; simpl; [|done].
    destruct (isCSRFallback co); [intros [= <- <-]; by left|].
    destruct (isVisible co); [|intros [= <- <-]; by left].
    intros [Hw|[p Hw]]%Index_SuspenseWapper_cases; [left; congruence|].
    right. eauto.
  - unfold Part000.SuspenseLoader.
    destruct (coordinators (adoptCache c w) !! c) as [co|]; simpl; [|done].
    destruct (isCSRFallback co); [intros [= <- <-]; by left|].
    assert (∀ r w', Part000.SuspenseWapper r18 c
              (streamingProp (adoptCache c w) co) (adoptCache c w) = Some (r, w') →
      observables w' = observables w
      ∨ ∃ w0 p, observables w0 = observables w ∧ load c w0 = Some (p, w')) as Hw.
    { intros r0 w0 [Hw|(w1 & p & Hw1 & Hw)]%Part000_SuspenseWapper_cases;
        [left; congruence|].
      right. exists w1, p. split; [congruence|done]. }
    destruct (isServer (adoptCache c w) && negb r18); [|apply Hw].
    destruct (bool_decide _ && negb _); [intros [= <- <-]; by left|apply Hw].
Qed.
End RenderFacts.

Section EventFacts.
Context `{JSON}.
Variable rev : Revision.

Lemma render__cases c w :
  observables (render_ rev c w) = observables w
  ∨ ∃ w0 p, observables w0 = observables w ∧ load c w0 = Some (p, render_ rev c w).
Proof.
  unfold render_. destruct (render rev c w) as [[r w']|] eqn:Hr; [|by left].
  by apply render_cases in Hr.
Qed.

(** Apart from [dispatch], an event changes what is observable only
    through one call of [load]. *)
Lemma apply_cases ev w :
  isDispatch ev = false →
  observables (apply rev ev w) = observables w
  ∨ ∃ w0 c p, observables w0 = observables w ∧ load c w0 = Some (p, apply rev ev w).
Proof.
  destruct ev as [nm dflt ty|c|c|c|c arg|p s|]; simpl; intros Hd; try done.
  - unfold mount.
    destruct (render__cases (length (coordinators w))
                (set_coordinators (λ cs, cs ++ [newCoordinator nm dflt ty]) w))
      as [Hw|(w0 & p & Hw0 & Hw)]; [by left|]. right. eauto.
  - destruct (render__cases c w) as [Hw|(w0 & p & Hw0 & Hw)]; [by left|].
    right. eauto.
  - left. destruct (isServer w); [done|]. by destruct rev.
  - left. by destruct (isServer w).
  - left. destruct (isLoaderPromise w p); [|done].
    destruct s; [done|apply observables_settlePromise..].
  - left. apply observables_tick.
Qed.

Lemma isServer_apply ev w : isServer (apply rev ev w) = isServer w.
Proof.
  destruct (isDispatch ev) eqn:Hd.
  - destruct ev; try done. simpl.
    unfold loadDispatch, Index.loadDispatch, Part000.loadDispatch, loadDispatchCore.
    destruct rev; by case_match.
  - destruct (apply_cases ev w Hd) as [Hw|(w0 & c & p & Hw0 & Hw)].
    + by injection Hw.
    + apply load_frame in Hw as (-> & _). by injection Hw0.
Qed.

Lemma exec_cons ev evs w : exec rev (ev :: evs) w = exec rev evs (apply rev ev w).
Proof. done. Qed.

Lemma isServer_exec evs w : isServer (exec rev evs w) = isServer w.
Proof.
  revert w. induction evs as [|ev evs IH]; intros w; [done|].
  by rewrite exec_cons, IH, isServer_apply.
Qed.
End EventFacts.

(** ** De-duplication on the server *)

Section Deduplication.
Context `{JSON}.

Lemma callsFor_app w call nm :
  List.filter (λ call, bool_decide (call_name call = nm)) (loaderCalls w ++ [call])
  = callsFor w nm ++ (if bool_decide (call_name call = nm) then [call] else []).
Proof. unfold callsFor. by rewrite List.filter_app. Qed.

Lemma deduplicated_observables w w' :
  observables w' = observables w → deduplicated w → deduplicated w'.
Proof.
  intros [= _ _ _ Hp Hl] Hw nm. unfold callsFor. rewrite Hp, Hl. apply Hw.
Qed.

Lemma deduplicated_load c w p w' :
  isServer w = true → load c w = Some (p, w') →
  deduplicated w → deduplicated w'.
Proof.
  intros Hsrv Hl Hw nm.
  destruct (coordinators w !! c) as [co|] eqn:Hc;
    [|by rewrite load_None in Hl].
  pose proof (load_promiseMap c w co p w' Hc Hl) as Hpm.
  pose proof (load_loaderCalls c w co p w' Hc Hl) as Hlc.
  rewrite Hsrv in Hpm. unfold loadPath in Hlc. rewrite Hsrv in Hlc.
  destruct (Hw nm) as [Hle Hreg].
  destruct (the_promiseMap w !! name co ≫= entry_promise) as [q|] eqn:Hq.
  - (* the registered promise is reused *)
    unfold callsFor. rewrite Hlc, Hpm. split; [done|].
    intros Hne. destruct (decide (name co = nm)) as [->|Hnm].
    + rewrite lookup_insert_eq. eauto.
    + rewrite lookup_insert_ne by done. by apply Hreg.
  - (* the loader is invoked: the name had no invocation yet *)
    unfold callsFor. rewrite Hlc, Hpm, callsFor_app. simpl.
    destruct (decide (name co = nm)) as [Hnm|Hnm];
      [rewrite (bool_decide_eq_true_2 _ Hnm)|rewrite (bool_decide_eq_false_2 _ Hnm)].
    + subst nm. rewrite lookup_insert_eq.
      assert (callsFor w (name co) = []) as ->.
      { destruct (callsFor w (name co)) eqn:Hcalls; [done|].
        destruct Hreg as (e & q & He & Hq'); [done|].
        rewrite He in Hq. simpl in Hq. congruence. }
      simpl. split; [lia|eauto].
    + rewrite app_nil_r, lookup_insert_ne by done. done.
Qed.

Lemma deduplicated_apply rev ev w :
  isServer w = true → isDispatch ev = false →
  deduplicated w → deduplicated (apply rev ev w).
Proof.
  intros Hsrv Hd Hw.
  destruct (apply_cases rev ev w Hd) as [Ho|(w0 & c & p & Ho & Hl)].
  - by eapply deduplicated_observables.
  - eapply deduplicated_load; [|exact Hl|by eapply deduplicated_observables].
    injection Ho as -> _ _ _ _. done.
Qed.

Lemma deduplicated_exec rev evs w :
  isServer w = true → Forall (λ ev, isDispatch ev = false) evs →
  deduplicated w → deduplicated (exec rev evs w).
Proof.
  revert w. induction evs as [|ev evs IH]; intros w Hsrv Hevs Hw; [done|].
  inversion_clear Hevs as [|?? Hev Hevs']. rewrite exec_cons.
  apply IH; [by rewrite isServer_apply|done|by apply deduplicated_apply].
Qed.

Lemma deduplicated_fresh w : loaderCalls w = [] → deduplicated w.
Proof. intros Hl nm. unfold callsFor. rewrite Hl. simpl. split; [lia|done]. Qed.
End Deduplication.

(** C1, as stated, fails on the client: [load] consults and fills
    [promiseMap] only under [isServer], so two coordinators mounted with the
    same name in the client's scope (no Data Marker in the document) each
    invoke the loader. *)
Lemma client_scope_invokes_loader_per_coordinator :
  let w := exec IndexTsx
             [Mount "news" (JNum 7) streaming; Mount "news" (JNum 7) streaming]
             (initialWorld false ∅) in
  isServer w = false
  ∧ map call_coordinator (callsFor w "news") = [0; 1]
  ∧ the_promiseMap w = ∅.
Proof. vm_compute. done. Qed.

(** C1 (amended): within one server-side Tree Context scope, and as long as
    no reload is dispatched, every name has at most one external loader
    invocation, however many coordinators are mounted or re-evaluated with
    that name; a coordinator that finds a promise registered under its name
    gets that same promise back from [load] and no loader call is made. *)
Theorem server_scope_invokes_loader_once `{JSON} (rev : Revision)
    (evs : list Event) (w : World) :
  isServer w = true →
  loaderCalls w = [] →
  Forall (λ ev, isDispatch ev = false) evs →
  (∀ nm, length (callsFor (exec rev evs w) nm) ≤ 1)
  ∧ (∀ c co e q,
       coordinators (exec rev evs w) !! c = Some co →
       the_promiseMap (exec rev evs w) !! name co = Some e →
       entry_promise e = Some q →
       ∃ w', load c (exec rev evs w) = Some (q, w')
             ∧ loaderCalls w' = loaderCalls (exec rev evs w)).
Proof.
  intros Hsrv Hcalls Hevs. split.
  - intros nm.
    by apply (deduplicated_exec rev evs w Hsrv Hevs (deduplicated_fresh w Hcalls)).
  - intros c co e q Hc He Hq.
    destruct (load_is_Some c _ co Hc) as [[p w'] Hl].
    pose proof (load_promise c _ co p w' Hc Hl) as Hp.
    pose proof (load_loaderCalls c _ co p w' Hc Hl) as Hlc.
    unfold loadPath in Hp, Hlc.
    rewrite isServer_exec, Hsrv, He in Hp, Hlc. simpl in Hp, Hlc.
    rewrite Hq in Hp, Hlc. subst p. eauto.
Qed.

Lemma server_scope_invokes_loader_once_witness :
  let evs := [Mount "news" (JNum 7) streaming; Mount "news" (JNum 7) ssr;
              LoaderSettles 1 (Fulfilled (JNum 5)); Tick; Tick;
              Mount "news" (JNum 7) streaming] in
  length (callsFor (exec IndexTsx evs (initialWorld true ∅)) "news") ≤ 1.
Proof.
  intros evs.
  apply (server_scope_invokes_loader_once IndexTsx evs (initialWorld true ∅)).
  - reflexivity.
  - reflexivity.
  - repeat constructor.
Defined.

(** ** Props are fixed at mount *)

Ltac props_alter := apply view_alter; by intros [].

Section PropsFacts.
Context `{JSON}.

Lemma props_set_isRequestData c b w :
  props (update_coordinator c (set_isRequestData b) w) = props w.
Proof. props_alter. Qed.

Lemma props_Index_SuspenseWapper c sp w r w' :
  Index.SuspenseWapper c sp w = Some (r, w') → props w' = props w.
Proof.
  unfold Index.SuspenseWapper.
  destruct (coordinators w !! c) as [co|]; simpl; [|done].
  destruct (isInit (property co)); simpl;
    [intros [= <- <-]; apply props_set_isRequestData|].
  destruct (load c w) as [[p w1]|] eqn:Hl; simpl; [|done].
  intros [= <- <-]. by apply load_frame in Hl as (_ & _ & _ & _ & ->).
Qed.

Lemma props_Part000_SuspenseWapper r18 c sp w r w' :
  Part000.SuspenseWapper r18 c sp w = Some (r, w') → props w' = props w.
Proof.
  unfold Part000.SuspenseWapper.
  destruct (coordinators w !! c) as [co|]; simpl; [|done].
  destruct (negb (isInit (property co)) && (r18 || negb (isServer w))).
  - destruct (load c w) as [[p w1]|] eqn:Hl; simpl; [|done].
    intros [= <- <-]. by apply load_frame in Hl as (_ & _ & _ & _ & ->).
  - destruct (negb (isInit (property co)));
      [|intros [= <- <-]; apply props_set_isRequestData].
    match goal with |- context [load c ?w1] =>
      destruct (load c w1) as [[p w2]|] eqn:Hl; simpl; [|done] end.
    intros [= <- <-]. apply load_frame in Hl as (_ & _ & _ & _ & ->).
    apply props_set_isRequestData.
Qed.

Lemma props_render rev c w r w' : render rev c w = Some (r, w') → props w' = props w.
Proof.
  assert (Ha := view_adoptCache propsOf c w).
  destruct rev as [|r18]; simpl.
  - unfold Index.SuspenseLoader.
    destruct (coordinators (adoptCache c w) !! c) as [co|]; simpl; [|done].
    destruct (isCSRFallback co); [intros [= <- <-]; done|].
    destruct (isVisible co);
      [|intros [= <- <-]; by rewrite props_set_isRequestData].
    intros Hw%props_Index_SuspenseWapper. congruence.
  - unfold Part000.SuspenseLoader.
    destruct (coordinators (adoptCache c w) !! c) as [co|]; simpl; [|done].
    destruct (isCSRFallback co); [intros [= <- <-]; done|].
    destruct (isServer (adoptCache c w) && negb r18);
      [destruct (bool_decide _ && negb _); [intros [= <- <-]; done|]|];
      intros Hw%props_Part000_SuspenseWapper; congruence.
Qed.

Lemma props_apply rev ev w :
  props (apply rev ev w) = props w
  ∨ ∃ nm dflt ty, props (apply rev ev w) = props w ++ [(nm, dflt, ty)].
Proof.
  destruct ev as [nm dflt ty|c|c|c|c arg|p s|]; simpl.
  - right. exists nm, dflt, ty. unfold mount, render_.
    match goal with |- context [render rev ?c ?w0] =>
      destruct (render rev c w0) as [[r w']|] eqn:Hr;
        [apply props_render in Hr; rewrite Hr|] end;
      unfold view; simpl; by rewrite map_app.
  - left. unfold render_. destruct (render rev c w) as [[r w']|] eqn:Hr; [|done].
    by apply props_render in Hr.
  - left. destruct (isServer w); [done|]. destruct rev; simpl; props_alter.
  - left. destruct (isServer w); [done|]. unfold wapperEffect.
    apply view_alter. intros co. by destruct (isRequestData co), co.
  - left. destruct rev; simpl;
      unfold Index.loadDispatch, Part000.loadDispatch;
      rewrite <- (view_loadDispatchCore propsOf c arg w); props_alter.
  - left. destruct (isLoaderPromise w p); [|done].
    destruct s; [done|by apply view_settlePromise..].
  - left. by apply view_tick.
Qed.

(** A mounted coordinator keeps its props through every event. *)
Lemma props_exec rev evs w c x :
  props w !! c = Some x → props (exec rev evs w) !! c = Some x.
Proof.
  revert w. induction evs as [|ev evs IH]; intros w Hc; [done|].
  rewrite exec_cons. apply IH.
  destruct (props_apply rev ev w) as [->|(nm & dflt & ty & ->)]; [done|].
  by apply lookup_app_l_Some.
Qed.

Lemma props_lookup w c co :
  coordinators w !! c = Some co →
  props w !! c = Some (name co, defaultValue co, type co).
Proof. intros Hc. by rewrite view_lookup, Hc. Qed.

Lemma props_lookup_inv w c nm dflt ty :
  props w !! c = Some (nm, dflt, ty) →
  ∃ co, coordinators w !! c = Some co
        ∧ name co = nm ∧ defaultValue co = dflt ∧ type co = ty.
Proof.
  rewrite view_lookup.
  destruct (coordinators w !! c) as [co|]; [|done].
  simpl. intros [= <- <- <-]. eauto.
Qed.
End PropsFacts.

(** ** The reload dispatch *)

Section DispatchFacts.
Context `{JSON}.

Lemma loadDispatchCore_spec c arg w co :
  coordinators w !! c = Some co →
  the_cacheMap (loadDispatchCore c arg w) = delete (name co) (the_cacheMap w)
  ∧ the_promiseMap (loadDispatchCore c arg w) = delete (name co) (the_promiseMap w)
  ∧ coordinators (loadDispatchCore c arg w) !! c
    = Some (set_property
              (λ pr, mkProperty JUndefined false (isSuspenseLoad pr) arg) co)
  ∧ isServer (loadDispatchCore c arg w) = isServer w
  ∧ document (loadDispatchCore c arg w) = document w
  ∧ loaderCalls (loadDispatchCore c arg w) = loaderCalls w
  ∧ promises (loadDispatchCore c arg w) = promises w.
Proof.
  intros Hc. unfold loadDispatchCore. rewrite Hc. simpl.
  repeat split; try done. by rewrite list_lookup_alter_eq, Hc.
Qed.

(** What [dispatch(arg)] does, in either revision: the record is cleared
    and holds the override, both tables lose the name, and [reload({})] has
    been called once more. *)
Lemma loadDispatch_spec rev c arg w co :
  coordinators w !! c = Some co →
  the_cacheMap (loadDispatch rev c arg w) = delete (name co) (the_cacheMap w)
  ∧ the_promiseMap (loadDispatch rev c arg w) = delete (name co) (the_promiseMap w)
  ∧ (∃ co', coordinators (loadDispatch rev c arg w) !! c = Some co'
            ∧ property co' = mkProperty JUndefined false
                               (isSuspenseLoad (property co)) arg
            ∧ reloads co' = S (reloads co)
            ∧ name co' = name co ∧ defaultValue co' = defaultValue co
            ∧ type co' = type co)
  ∧ isServer (loadDispatch rev c arg w) = isServer w
  ∧ document (loadDispatch rev c arg w) = document w
  ∧ loaderCalls (loadDispatch rev c arg w) = loaderCalls w
  ∧ promises (loadDispatch rev c arg w) = promises w.
Proof.
  intros Hc.
  destruct (loadDispatchCore_spec c arg w co Hc) as (Hcm & Hpm & Hco & Hs & Hd & Hl & Hp).
  destruct rev; simpl; unfold Index.loadDispatch, Part000.loadDispatch;
    (repeat split; try done;
     simpl; rewrite list_lookup_alter_eq, Hco; simpl; eexists; split; done).
Qed.
End DispatchFacts.

(** ** The Pending Entry of a name *)

Section PendingEntries.
Context `{JSON}.

Lemma pendingEntry_apply rev ev w nm :
  isDispatch ev = false →
  is_Some (the_promiseMap w !! nm) →
  is_Some (the_promiseMap (apply rev ev w) !! nm).
Proof.
  intros Hd Hnm.
  destruct (apply_cases rev ev w Hd) as [Ho|(w0 & c & p & Ho & Hl)].
  - injection Ho as _ _ _ -> _. done.
  - injection Ho as Hsrv _ _ Hpm _.
    destruct (coordinators w0 !! c) as [co|] eqn:Hc; [|by rewrite load_None in Hl].
    rewrite (load_promiseMap c w0 co p _ Hc Hl), Hpm.
    destruct (isServer w0); [|done].
    destruct (decide (name co = nm)) as [->|Hne].
    + rewrite lookup_insert_eq. eauto.
    + by rewrite lookup_insert_ne.
Qed.

Lemma pendingEntry_exec rev evs w nm :
  Forall (λ ev, isDispatch ev = false) evs →
  is_Some (the_promiseMap w !! nm) →
  is_Some (the_promiseMap (exec rev evs w) !! nm).
Proof.
  revert w. induction evs as [|ev evs IH]; intros w Hevs Hnm; [done|].
  inversion_clear Hevs. rewrite exec_cons. apply IH; [done|].
  by apply pendingEntry_apply.
Qed.

Lemma client_promiseMap_apply rev ev w :
  isServer w = false → isDispatch ev = false →
  the_promiseMap (apply rev ev w) = the_promiseMap w.
Proof.
  intros Hsrv Hd.
  destruct (apply_cases rev ev w Hd) as [Ho|(w0 & c & p & Ho & Hl)].
  - by injection Ho.
  - injection Ho as Hsrv0 _ _ Hpm _.
    destruct (coordinators w0 !! c) as [co|] eqn:Hc; [|by rewrite load_None in Hl].
    rewrite (load_promiseMap c w0 co p _ Hc Hl), Hsrv0, Hsrv. done.
Qed.

Lemma client_promiseMap_exec rev evs w :
  isServer w = false → Forall (λ ev, isDispatch ev = false) evs →
  the_promiseMap (exec rev evs w) = the_promiseMap w.
Proof.
  revert w. induction evs as [|ev evs IH]; intros w Hsrv Hevs; [done|].
  inversion_clear Hevs. rewrite exec_cons, IH; [|by rewrite isServer_apply|done].
  by apply client_promiseMap_apply.
Qed.
End PendingEntries.

(** C4, as stated, fails on the server: the continuation that fills the
    cache does not touch [promiseMap], so after the load of ["news"] has
    settled and its Cache Entry is populated, the Pending Entry is still in
    the table (with the fulfilled promise). *)
Lemma pending_entry_outlives_cache_entry :
  let w := run IndexTsx
             [Mount "news" (JNum 7) ssr; LoaderSettles 1 (Fulfilled (JNum 5))]
             (initialWorld true ∅) in
  the_cacheMap w !! "news" = Some (JNum 5)
  ∧ the_promiseMap w !! "news" = Some (mkEntry false (Some 0))
  ∧ promiseState w 0 = Some (Fulfilled (JNum 5))
  ∧ microtasks w = [].
Proof. vm_compute. done. Qed.

(** C4 (amended): on the server a Pending Entry for a name is registered
    synchronously when [load] is triggered for it, and it stays in the
    Pending-Load Table through every later event -- the population of the
    Cache Entry included -- until a reload of that name deletes it; on the
    client no Pending Entry is ever registered. *)
Theorem pending_entry_kept_until_reload `{JSON} (rev : Revision) (c : nat)
    (co : Coordinator) (w w1 : World) (p : nat) (evs : list Event) (arg : jsval) :
  coordinators w !! c = Some co →
  load c w = Some (p, w1) →
  Forall (λ ev, isDispatch ev = false) evs →
  (isServer w = true →
     the_promiseMap w1 !! name co
       = Some (mkEntry (bool_decide (type co = streaming)) (Some p))
     ∧ is_Some (the_promiseMap (exec rev evs w1) !! name co)
     ∧ the_promiseMap (loadDispatch rev c arg (exec rev evs w1)) !! name co = None)
  ∧ (isServer w = false →
     the_promiseMap (exec rev evs w1) = the_promiseMap w).
Proof.
  intros Hc Hl Hevs.
  pose proof (load_promiseMap c w co p w1 Hc Hl) as Hpm.
  pose proof (load_frame c w p w1 Hl) as (Hsrv1 & _ & _ & _ & Hprops).
  split; intros Hsrv; rewrite Hsrv in Hpm.
  - assert (the_promiseMap w1 !! name co
            = Some (mkEntry (bool_decide (type co = streaming)) (Some p))) as H1
      by (by rewrite Hpm, lookup_insert_eq).
    split; [done|]. split.
    + apply pendingEntry_exec; [done|]. rewrite H1. eauto.
    + pose proof (props_lookup w c co Hc) as Hx. rewrite <- Hprops in Hx.
      apply (props_exec rev evs) in Hx.
      apply props_lookup_inv in Hx as (co' & Hc' & Hn & _).
      destruct (loadDispatch_spec rev c arg _ co' Hc') as (_ & -> & _).
      rewrite Hn. apply lookup_delete_eq.
  - rewrite client_promiseMap_exec; [done| |done]. by rewrite Hsrv1.
Qed.

Lemma pending_entry_kept_until_reload_witness :
  let w := exec IndexTsx [Mount "list" JUndefined ssr] (initialWorld true ∅) in
  let evs := [LoaderSettles 1 (Fulfilled (JArr [JNum 1])); Tick; Tick] in
  is_Some (the_promiseMap (exec IndexTsx evs (load_ 0 w)) !! "list").
Proof.
  intros w evs.
  refine (proj1 (proj2 (proj1
    (pending_entry_kept_until_reload IndexTsx 0
       (mkCoordinator "list" JUndefined ssr emptyProperty false true None 0)
       w (load_ 0 w) 0 evs JUndefined _ _ _) _))).
  - reflexivity.
  - vm_compute. reflexivity.
  - repeat constructor.
  - reflexivity.
Defined.

(** ** The global context bridge *)

(** C7, as stated, fails on the snapshot: [cacheSrcMap = { ...cacheMap }]
    copies the cache of the given context, not the merged cache of
    [globalTreeContext].  Here the client has loaded ["a"] before the
    context with ["b"] arrives. *)
Lemma source_cache_is_the_given_cache_not_the_merged :
  let w := run IndexTsx
             [Mount "a" JUndefined streaming; LoaderSettles 1 (Fulfilled (JNum 1))]
             (initialWorld false ∅) in
  let w' := Index.setSuspenseTreeContext
              (Some (mkContext ∅ {["b" := JNum 2]})) w in
  (the_cacheMap w' !! "a" = Some (JNum 1) ∧ the_cacheMap w' !! "b" = Some (JNum 2))
  ∧ (cacheSrcMap w' !! "a" = None ∧ cacheSrcMap w' !! "b" = Some (JNum 2))
  ∧ cacheSrcMap w' ≠ the_cacheMap w'.
Proof.
  intros w w'. split; [|split].
  - by vm_compute.
  - by vm_compute.
  - intros Heq. apply (f_equal (λ m : gmap string jsval, m !! "a")) in Heq.
    vm_compute in Heq. done.
Qed.

Lemma lookup_Object_assign {A} (target source : gmap string A) nm :
  Object_assign target source !! nm
  = match source !! nm with Some x => Some x | None => target !! nm end.
Proof.
  unfold Object_assign. destruct (source !! nm) as [x|] eqn:Hs.
  - by apply lookup_union_Some_l.
  - by apply lookup_union_r.
Qed.

(** C7 (amended): [setSuspenseTreeContext(context)] is a no-op when
    [context] is absent.  Otherwise, in [src/index.tsx], it merges the given
    [cacheMap] and [promiseMap] into the tables of the process-wide default
    Tree Context with [Object.assign] -- entries under other names are
    preserved, an entry under a given name is replaced by the given one --
    and snapshots a copy of the given [cacheMap] (not of the merged cache)
    as the source cache.  The revision with [timeout] installs the given
    tables in place of the old ones and takes the same snapshot. *)
Theorem setSuspenseTreeContext_merges_and_snapshots_given_cache
    (ctx : SuspenseTreeContextType) (w : World) :
  Index.setSuspenseTreeContext None w = w
  ∧ Part000.setSuspenseTreeContext None w = w
  ∧ (∀ nm, the_cacheMap (Index.setSuspenseTreeContext (Some ctx) w) !! nm
           = match cacheMap ctx !! nm with
             | Some v => Some v
             | None => the_cacheMap w !! nm
             end)
  ∧ (∀ nm, the_promiseMap (Index.setSuspenseTreeContext (Some ctx) w) !! nm
           = match promiseMap ctx !! nm with
             | Some e => Some e
             | None => the_promiseMap w !! nm
             end)
  ∧ cacheSrcMap (Index.setSuspenseTreeContext (Some ctx) w) = cacheMap ctx
  ∧ treeContext (Part000.setSuspenseTreeContext (Some ctx) w) = ctx
  ∧ cacheSrcMap (Part000.setSuspenseTreeContext (Some ctx) w) = cacheMap ctx.
Proof.
  repeat split; try done.
  - intros nm. apply lookup_Object_assign.
  - intros nm. apply lookup_Object_assign.
  - by destruct ctx.
Qed.

(** ** Adoption from the cache *)

Lemma adoptCache_truthy c co w :
  coordinators w !! c = Some co →
  isInit (property co) = false →
  truthy (js_get (the_cacheMap w) (name co)) = true →
  coordinators (adoptCache c w) !! c
  = Some (set_property
            (λ pr, mkProperty (js_get (the_cacheMap w) (name co)) true false
                     (loaderValue pr)) co)
  ∧ observables (adoptCache c w) = observables w
  ∧ promises (adoptCache c w) = promises w
  ∧ microtasks (adoptCache c w) = microtasks w
  ∧ the_cacheMap (adoptCache c w) = the_cacheMap w.
Proof.
  intros Hc Hi Ht. unfold adoptCache. rewrite Hc, Hi, Ht. simpl.
  repeat split. by rewrite list_lookup_alter_eq, Hc.
Qed.

Lemma adoptCache_falsy c co w :
  coordinators w !! c = Some co →
  truthy (js_get (the_cacheMap w) (name co)) = false →
  adoptCache c w = w.
Proof.
  intros Hc Ht. unfold adoptCache. rewrite Hc, Ht. by destruct (isInit _).
Qed.

Lemma adoptCache_initialized c co w :
  coordinators w !! c = Some co → isInit (property co) = true →
  adoptCache c w = w.
Proof. intros Hc Hi. unfold adoptCache. by rewrite Hc, Hi. Qed.

(** C10: a falsy value under the coordinator's name in the cache is not
    adopted, although the key is present: the first block of
    [SuspenseLoader] leaves the world as it is (the record stays
    uninitialized), so the evaluation goes on to [SuspenseWapper], which
    throws [load()]; that load takes its promise from the Pending Entry, the
    Data Marker or a new call of the external loader. *)
Theorem falsy_cache_entry_is_not_adopted `{JSON} (c : nat) (co : Coordinator)
    (w : World) (v : jsval) :
  coordinators w !! c = Some co →
  isInit (property co) = false →
  the_cacheMap w !! name co = Some v →
  truthy v = false →
  adoptCache c w = w
  ∧ ∃ p w',
      load c w = Some (p, w')
      ∧ loaderCalls w' =
          match loadPath w co with
          | FromLoader =>
              loaderCalls w ++
                [mkCall c (name co)
                   (js_or (loaderValue (property co)) (defaultValue co))
                   (S (length (promises w)))]
          | _ => loaderCalls w
          end
      ∧ (isCSRFallback co = false → isVisible co = true →
         Index.SuspenseLoader c w = Some (Suspended p, w'))
      ∧ (∀ isReact18, isCSRFallback co = false →
         isReact18 || negb (isServer w) = true →
         Part000.SuspenseLoader isReact18 c w = Some (Suspended p, w')).
Proof.
  intros Hc Hi Hv Ht.
  assert (adoptCache c w = w) as Ha.
  { apply (adoptCache_falsy c co w Hc). unfold js_get. by rewrite Hv. }
  split; [done|].
  destruct (load_is_Some c w co Hc) as [[p w'] Hl].
  exists p, w'. split; [done|]. split; [by apply (load_loaderCalls c w co p w')|]. split.
  - intros Hf Hvis. unfold Index.SuspenseLoader, Index.SuspenseWapper.
    rewrite Ha, Hc. simpl. rewrite Hf, Hvis, Hi. simpl. by rewrite Hl.
  - intros r18 Hf Hr. unfold Part000.SuspenseLoader, Part000.SuspenseWapper.
    rewrite Ha, Hc. simpl. rewrite Hf, Hi, Hr. simpl. rewrite Hl. simpl.
    destruct (isServer w), r18; done.
Qed.

Lemma falsy_cache_entry_is_not_adopted_witness :
  let w := set_coordinators (λ _, [newCoordinator "count" JUndefined streaming])
             (Index.setSuspenseTreeContext
                (Some (mkContext ∅ {["count" := JNum 0]})) (initialWorld false ∅)) in
  adoptCache 0 w = w.
Proof.
  intros w.
  refine (proj1 (falsy_cache_entry_is_not_adopted 0
    (newCoordinator "count" JUndefined streaming) w (JNum 0) _ _ _ _)).
  - reflexivity.
  - reflexivity.
  - vm_compute. reflexivity.
  - reflexivity.
Defined.

(** ** Evaluations of [SuspenseLoader], case by case *)

Section RenderCases.
Context `{JSON}.

(** An initialized, visible coordinator renders its content; the marker is
    part of it exactly when the wrapper's [isRequestData] holds. *)
Lemma render_initialized rev c co w :
  coordinators w !! c = Some co →
  isInit (property co) = true →
  isCSRFallback co = false →
  isVisible co = true →
  render rev c w
  = Some (Content (if requestDataState w co (streamingProp w co)
                   then Some (dataMarker co) else None),
          update_coordinator c
            (set_isRequestData (Some (requestDataState w co (streamingProp w co)))) w).
Proof.
  intros Hc Hi Hf Hv.
  pose proof (adoptCache_initialized c co w Hc Hi) as Ha.
  destruct rev as [|r18]; simpl.
  - unfold Index.SuspenseLoader, Index.SuspenseWapper.
    rewrite Ha, Hc. simpl. rewrite Hf, Hv, Hi. done.
  - unfold Part000.SuspenseLoader, Part000.SuspenseWapper.
    rewrite Ha, Hc. simpl. rewrite Hf, Hi. simpl.
    rewrite andb_false_r. by destruct (isServer w && negb r18).
Qed.


(** While [isCSRFallback] holds the evaluation ends after the adoption
    block. *)
Lemma render_csr_fallback rev c co w :
  coordinators (adoptCache c w) !! c = Some co →
  isCSRFallback co = true →
  render rev c w = Some (Fallback, adoptCache c w).
Proof.
  intros Hc Hf. destruct rev as [|r18]; simpl.
  - unfold Index.SuspenseLoader. rewrite Hc. simpl. by rewrite Hf.
  - unfold Part000.SuspenseLoader. rewrite Hc. simpl. by rewrite Hf.
Qed.

Lemma lookup_mounted (w : World) co :
  coordinators (set_coordinators (λ cs, cs ++ [co]) w) !! length (coordinators w)
  = Some co.
Proof. simpl. by apply list_lookup_middle. Qed.
End RenderCases.

(** ** Mode ['csr'] *)


Section Csr.
Context `{JSON}.


End Csr.


(** ** The Data Marker and its latch *)


Section Latch.
Context `{JSON}.







End Latch.





(** ** The microtask queue runs dry *)

Lemma sum_reactions_insert (ps : list PromiseCell) p cell cell' :
  ps !! p = Some cell →
  sum_list (map (λ cell, length (reactions cell)) (<[p := cell']> ps))
    + length (reactions cell)
  = sum_list (map (λ cell, length (reactions cell)) ps) + length (reactions cell').
Proof.
  revert p. induction ps as [|x ps IH]; intros [|p] Hp; simplify_eq/=; [lia|].
  specialize (IH p Hp). lia.
Qed.

(** Settling moves reactions from the heap into the queue. *)
Lemma pendingWork_settlePromise p s w :
  pendingWork (settlePromise p s w) = pendingWork w.
Proof.
  unfold settlePromise.
  destruct (promises w !! p) as [[[] rs h]|] eqn:Hp; try done.
  unfold pendingWork. simpl. rewrite List.length_app, length_map.
  pose proof (sum_reactions_insert (promises w) p _ (mkCell s [] h) Hp) as Hsum.
  simpl in Hsum. lia.
Qed.

Lemma pendingWork_runCallback cb v w :
  pendingWork (runCallback cb v w) = pendingWork w.
Proof.
  destruct cb; simpl.
  - by case_match.
  - unfold resolvePromise. by rewrite pendingWork_settlePromise.
Qed.

(** Each job that runs is one unit of work less. *)
Lemma pendingWork_tick w :
  microtasks w ≠ [] → S (pendingWork (tick w)) = pendingWork w.
Proof.
  unfold tick. destruct (microtasks w) as [|j q] eqn:Hq; [done|]. intros _.
  assert (S (pendingWork (set_microtasks (λ _, q) w)) = pendingWork w) as <-.
  { unfold pendingWork. simpl. by rewrite Hq. }
  f_equal. unfold runJob. destruct (job_settled j); [done| |].
  - unfold resolvePromise.
    by rewrite pendingWork_settlePromise, pendingWork_runCallback.
  - unfold rejectPromise. by rewrite pendingWork_settlePromise.
Qed.

Lemma drain_done w : microtasks w = [] → drain w = w.
Proof. intros Hq. unfold drain. destruct (pendingWork w); simpl; by rewrite ?Hq. Qed.

Lemma drain_tick w : microtasks w ≠ [] → drain w = drain (tick w).
Proof.
  intros Hq. unfold drain. rewrite <- (pendingWork_tick w Hq). simpl.
  by destruct (microtasks w).
Qed.

(** [drain] is total and leaves no job behind. *)
Lemma drain_empties w : microtasks (drain w) = [].
Proof.
  remember (pendingWork w) as n eqn:Hn. revert w Hn.
  induction n as [|n IH]; intros w Hn.
  - unfold drain. rewrite <- Hn. simpl.
    unfold pendingWork in Hn. destruct (microtasks w); [done|simpl in Hn; lia].
  - destruct (microtasks w) as [|j q] eqn:Hq; [by rewrite drain_done|].
    rewrite drain_tick by (by rewrite Hq). apply IH.
    pose proof (pendingWork_tick w) as Ht. rewrite Hq in Ht.
    specialize (Ht ltac:(done)). lia.
Qed.


(** ** Lists used as heaps *)

Lemma lookup_app_add {A} (l1 l2 : list A) k :
  (l1 ++ l2) !! (length l1 + k) = l2 !! k.
Proof. rewrite lookup_app_r by lia. f_equal. lia. Qed.

Lemma lookup_app_length {A} (l1 l2 : list A) :
  (l1 ++ l2) !! length l1 = l2 !! 0.
Proof. rewrite <- (lookup_app_add l1 l2 0). f_equal. lia. Qed.

Lemma insert_app_length {A} (l1 l2 : list A) x :
  <[length l1 := x]> (l1 ++ l2) = l1 ++ <[0 := x]> l2.
Proof. rewrite <- (insert_app_r l1 l2 0 x). f_equal. lia. Qed.

Ltac heap_simpl :=
  repeat (progress (rewrite <- ?app_assoc, ?List.length_app, ?lookup_app_add,
                      ?lookup_app_length, ?insert_app_r, ?insert_app_length;
                    simpl)).

(** From here on the setters compute as soon as they meet a literal
    world. *)
Arguments set_promises f !w /.
Arguments set_microtasks f !w /.
Arguments set_coordinators f !w /.
Arguments set_treeContext f !w /.
Arguments set_cacheSrcMap m !w /.
Arguments log_loaderCall call !w /.
Arguments log_onLoaded c v !w /.
Arguments update_property c f !w /.
Arguments update_coordinator c f !w /.

Ltac world_simpl := repeat (progress (simpl; heap_simpl)).

(** Runs the promise machinery on a literal world. *)
Ltac run_simpl :=
  repeat (progress (unfold tick, runJob, resolvePromise, rejectPromise, settlePromise;
                    world_simpl)).

(** ** The three paths of [load], exactly *)

Section LoadPaths.
Context `{JSON}.

(** Path (c): the loader is called.  Four promises are allocated: the one
    [load] returns, the loader's, and the two derived by [then]. *)
Lemma load_from_loader c co w :
  coordinators w !! c = Some co →
  loadPath w co = FromLoader →
  load c w = Some (length (promises w),
    mkWorld (isServer w) (document w)
      (if isServer w
       then set_promiseMap
              (<[name co := mkEntry (bool_decide (type co = streaming))
                              (Some (length (promises w)))]>) (treeContext w)
       else treeContext w)
      (cacheSrcMap w) (coordinators w)
      (promises w ++
         [mkCell Pending [mkReaction (OnSettled c) (length (promises w) + 3)] true;
          mkCell Pending [mkReaction (OnLoader c (length (promises w)))
                            (length (promises w) + 2)] true;
          mkCell Pending [] false; mkCell Pending [] false])
      (microtasks w)
      (loaderCalls w ++
         [mkCall c (name co) (js_or (loaderValue (property co)) (defaultValue co))
            (length (promises w) + 1)])
      (onLoadedCalls w)).
Proof.
  intros Hc Hp. unfold load, loadPath in *. rewrite Hc. simpl.
  destruct (if isServer w then the_promiseMap w !! name co ≫= entry_promise else None)
    as [q|] eqn:Hreg; [done|].
  unfold loadExecutor. simpl.
  destruct (if isServer w then None else document w !! idName (name co))
    as [html|] eqn:Hdoc; [done|].
  destruct w as [s d t src cs ps q lc ol]. simpl in *.
  unfold thenPromise, newPromise. world_simpl.
  by destruct s.
Qed.


(** Path (a): the registered promise is returned and gets one more
    reaction (or, if it is settled, one more job). *)
Lemma load_from_pending c co w q :
  coordinators w !! c = Some co →
  loadPath w co = FromPending q →
  ∃ w', load c w = Some (q, w')
        ∧ loaderCalls w' = loaderCalls w
        ∧ coordinators w' = coordinators w
        ∧ the_cacheMap w' = the_cacheMap w.
Proof.
  intros Hc Hp.
  destruct (load_is_Some c w co Hc) as [[p w'] Hl].
  pose proof (load_promise c w co p w' Hc Hl) as Hq.
  pose proof (load_loaderCalls c w co p w' Hc Hl) as Hlc.
  pose proof (load_frame c w p w' Hl) as (_ & _ & _ & Hcm & _).
  rewrite Hp in Hq, Hlc. subst p. exists w'. repeat split; try done.
  revert Hl. unfold load, loadPath in *. rewrite Hc. simpl.
  destruct (if isServer w then the_promiseMap w !! name co ≫= entry_promise else None)
    as [q'|]; [|by repeat case_match].
  intros [= _ <-].
  destruct (thenPromise_outside q' (OnSettled c) w) as (_ & _ & _ & _ & Hco & _).
  by destruct (isServer w).
Qed.
End LoadPaths.

(** ** A loader that rejects *)

(** C9, as stated, fails on the promise of [load()]: the executor never
    calls a [reject], so when the loader's promise rejects, the promise that
    [load()] returned (address 0) is still pending once the queue has run
    dry; what is rejected, with nobody reacting to it, is the promise
    derived by [loader(...).then(...)] (address 2). *)
Lemma load_promise_stays_pending_when_loader_rejects :
  let w1 := run IndexTsx [Mount "news" (JNum 7) streaming] (initialWorld false ∅) in
  let w2 := run IndexTsx [LoaderSettles 1 (Rejected (JStr "boom"))] w1 in
  map call_promise (loaderCalls w1) = [1]
  ∧ promiseState w2 0 = Some Pending
  ∧ promiseState w2 1 = Some (Rejected (JStr "boom"))
  ∧ promises w2 !! 2 = Some (mkCell (Rejected (JStr "boom")) [] false)
  ∧ microtasks w2 = [].
Proof. vm_compute. done. Qed.

(** C9 (amended): when the externally supplied loader rejects, the core
    does not catch the failure: it surfaces as the rejection, unhandled, of
    the promise derived by [loader(...).then(...)] inside [load]; the
    deferred computation that [load()] returned is not rejected but stays
    pending for good, and the coordinator's record and the Cache Entry table
    are left as they were. *)
Theorem loader_rejection_is_unhandled_and_load_stays_pending `{JSON}
    (rev : Revision) (c : nat) (co : Coordinator) (w : World) (e : jsval) :
  coordinators w !! c = Some co →
  loadPath w co = FromLoader →
  microtasks w = [] →
  ∃ w1,
    load c w = Some (length (promises w), w1)
    ∧ loaderCalls w1
      = loaderCalls w ++
          [mkCall c (name co) (js_or (loaderValue (property co)) (defaultValue co))
             (length (promises w) + 1)]
    ∧ promiseState (step rev (LoaderSettles (length (promises w) + 1) (Rejected e)) w1)
        (length (promises w)) = Some Pending
    ∧ promiseState (step rev (LoaderSettles (length (promises w) + 1) (Rejected e)) w1)
        (length (promises w) + 1) = Some (Rejected e)
    ∧ unhandledRejection
        (step rev (LoaderSettles (length (promises w) + 1) (Rejected e)) w1)
        (length (promises w) + 2)
    ∧ microtasks (step rev (LoaderSettles (length (promises w) + 1) (Rejected e)) w1)
      = []
    ∧ coordinators (step rev (LoaderSettles (length (promises w) + 1) (Rejected e)) w1)
      = coordinators w
    ∧ the_cacheMap (step rev (LoaderSettles (length (promises w) + 1) (Rejected e)) w1)
      = the_cacheMap w.
Proof.
  intros Hc Hp Hq. eexists. split; [by apply load_from_loader|].
  split; [done|].
  set (w1 := mkWorld _ _ _ _ _ _ _ _ _).
  assert (step rev (LoaderSettles (length (promises w) + 1) (Rejected e)) w1
          = mkWorld (isServer w1) (document w1) (treeContext w1) (cacheSrcMap w1)
              (coordinators w)
              (promises w ++
                 [mkCell Pending [mkReaction (OnSettled c) (length (promises w) + 3)]
                    true;
                  mkCell (Rejected e) [] true; mkCell (Rejected e) [] false;
                  mkCell Pending [] false])
              [] (loaderCalls w1) (onLoadedCalls w)) as ->.
  { unfold step. simpl.
    assert (isLoaderPromise w1 (length (promises w) + 1) = true) as ->.
    { apply bool_decide_eq_true_2. subst w1. simpl. rewrite map_app.
      apply elem_of_app. right. by apply list_elem_of_singleton. }
    subst w1. unfold settlePromise. simpl. heap_simpl. rewrite Hq. simpl.
    world_simpl.
    rewrite drain_tick by done.
    unfold tick, runJob, rejectPromise, settlePromise. simpl. heap_simpl.
    world_simpl. by rewrite drain_done. }
  unfold promiseState, unhandledRejection, the_cacheMap. simpl. heap_simpl.
  repeat split; try done.
  - by exists e.
  - by destruct (isServer w).
Qed.

Lemma loader_rejection_is_unhandled_and_load_stays_pending_witness :
  let w := set_coordinators (λ _, [newCoordinator "news" (JNum 7) streaming])
             (initialWorld true ∅) in
  ∃ w1,
    load 0 w = Some (0, w1)
    ∧ loaderCalls w1 = [mkCall 0 "news" (JNum 7) 1]
    ∧ promiseState (step IndexTsx (LoaderSettles 1 (Rejected JNull)) w1) 0
      = Some Pending
    ∧ promiseState (step IndexTsx (LoaderSettles 1 (Rejected JNull)) w1) 1
      = Some (Rejected JNull)
    ∧ unhandledRejection (step IndexTsx (LoaderSettles 1 (Rejected JNull)) w1) 2
    ∧ microtasks (step IndexTsx (LoaderSettles 1 (Rejected JNull)) w1) = []
    ∧ coordinators (step IndexTsx (LoaderSettles 1 (Rejected JNull)) w1)
      = [newCoordinator "news" (JNum 7) streaming]
    ∧ the_cacheMap (step IndexTsx (LoaderSettles 1 (Rejected JNull)) w1) = ∅.
Proof.
  intros w.
  exact (loader_rejection_is_unhandled_and_load_stays_pending IndexTsx 0
           (newCoordinator "news" (JNum 7) streaming) w JNull
           eq_refl eq_refl eq_refl).
Defined.

(** ** Hydration from a Data Marker *)

Section Hydration.
Context `{JSON}.

End Hydration.



(** ** A loader that fulfils, and the reload after it *)

Section Reload.
Context `{JSON}.

(** A load through the loader, the loader's promise fulfilled with [v], and
    the run of the queue: the record is initialized with [v], the cache
    holds [v], [onLoaded] has been called, and all four promises are
    fulfilled. *)
Lemma loader_fulfils rev c co w v :
  coordinators w !! c = Some co →
  loadPath w co = FromLoader →
  microtasks w = [] →
  ∃ w1,
    load c w = Some (length (promises w), w1)
    ∧ loaderCalls w1
      = loaderCalls w ++
          [mkCall c (name co) (js_or (loaderValue (property co)) (defaultValue co))
             (length (promises w) + 1)]
    ∧ step rev (LoaderSettles (length (promises w) + 1) (Fulfilled v)) w1
      = mkWorld (isServer w) (document w)
          (set_cacheMap (<[name co := v]>)
             (if isServer w
              then set_promiseMap
                     (<[name co := mkEntry (bool_decide (type co = streaming))
                                     (Some (length (promises w)))]>) (treeContext w)
              else treeContext w))
          (cacheSrcMap w)
          (alter (set_property (λ pr, mkProperty v true false (loaderValue pr))) c
             (coordinators w))
          (promises w ++
             [mkCell (Fulfilled v) [] true; mkCell (Fulfilled v) [] true;
              mkCell (Fulfilled JUndefined) [] false;
              mkCell (Fulfilled JUndefined) [] false])
          []
          (loaderCalls w ++
             [mkCall c (name co)
                (js_or (loaderValue (property co)) (defaultValue co))
                (length (promises w) + 1)])
          (onLoadedCalls w ++ [(c, v)]).
Proof.
  intros Hc Hp Hq. eexists. split; [by apply load_from_loader|].
  split; [done|].
  set (w1 := mkWorld _ _ _ _ _ _ _ _ _).
  unfold step. simpl.
  assert (isLoaderPromise w1 (length (promises w) + 1) = true) as ->.
  { apply bool_decide_eq_true_2. subst w1. simpl. rewrite map_app.
    apply elem_of_app. right. by apply list_elem_of_singleton. }
  subst w1. unfold settlePromise. simpl. heap_simpl. rewrite Hq. simpl.
  world_simpl.
  rewrite drain_tick by done. run_simpl.
  rewrite drain_tick by done. run_simpl.
  rewrite list_lookup_alter_eq, Hc. run_simpl.
  rewrite drain_done by done. f_equal.
  apply list_eq. intros i. rewrite !list_lookup_alter.
  destruct (decide (c = i)) as [->|]; [|done].
  rewrite decide_True by done. by destruct (coordinators w !! i) as [[]|].
Qed.

End Reload.



(** ** The tree collector *)

Lemma promiseAll_Fulfilled w ps x :
  promiseAll w ps = Fulfilled x → ∃ vs, x = JArr vs.
Proof.
  destruct ps as [|o ps]; simpl; [intros [= <-]; eauto|].
  destruct (match o with
            | Some p => default Pending (promiseState w p)
            | None => Fulfilled JUndefined
            end), (promiseAll w ps) as [|[]|]; intros [= <-]; eauto.
Qed.



Section CollectorFacts.
Context `{JSON}.
Variable rev : Revision.

Lemma runTasks_cons evs ts w :
  runTasks rev (evs :: ts) w = runTasks rev ts (task rev evs w).
Proof. done. Qed.



End CollectorFacts.

Section CollectorLoop.
Context `{JSON}.
Variable rev : Revision.
Variable isStreaming : bool.





(** Without an armed timer the race is the wait for [Promise.all]. *)
Lemma awaitRace_unarmed ps env w : awaitRace rev false ps env w = awaitAll rev ps env w.
Proof.
  revert w. induction env as [|[ev|] env IH]; intros w; simpl; [done|..];
    by rewrite IH.
Qed.

Lemma awaitAll_truthy ps env w x w' env' :
  awaitAll rev ps env w = Some (Value x, w', env') → truthy x = true.
Proof.
  revert w. induction env as [|[ev|] env IH]; intros w; simpl;
    destruct (promiseAll w ps) eqn:Hps; try done; try apply IH;
    intros [= <- <- <-]; by destruct (promiseAll_Fulfilled _ _ _ Hps) as [vs ->].
Qed.

(** The loop of [src/index.tsx] is the loop with [timeout] when no timeout
    is supplied. *)
Lemma collectLoopAll_collectLoop fuel len env w :
  collectLoopAll rev isStreaming fuel len env w
  = collectLoop rev isStreaming fuel false len env w.
Proof.
  revert len env w. induction fuel as [|fuel IH]; intros len env w; [done|].
  cbn [collectLoopAll collectLoop]. rewrite awaitRace_unarmed.
  destruct (awaitAll rev (awaitedPromises isStreaming w) env w)
    as [[[[x|e] w'] env']|] eqn:Hw; [|done..].
  rewrite (awaitAll_truthy _ _ _ _ _ _ Hw). simpl. by rewrite IH.
Qed.
End CollectorLoop.

(** The scenario of a list whose items are loaded by coordinators that only
    mount once the list is there: the first wait ends with three new names,
    the second with none. *)
Example getDataFromTree_discovers_nested_loads :
  let env :=
    [Task [LoaderSettles 1 (Fulfilled (JArr [JNum 1; JNum 2; JNum 3])); Tick; Tick;
           Mount "list" JUndefined ssr; Mount "item/1" (JNum 1) ssr;
           Mount "item/2" (JNum 2) ssr; Mount "item/3" (JNum 3) ssr];
     Task [LoaderSettles 5 (Fulfilled (JStr "one"));
           LoaderSettles 9 (Fulfilled (JStr "two"));
           LoaderSettles 13 (Fulfilled (JStr "three"))]] in
  match Part000Collector.getDataFromTree true true [Mount "list" JUndefined ssr]
          (Some 1400%Z) env (initialWorld true ∅) with
  | Returned (Some ctx) w =>
      cacheMap ctx !! "list" = Some (JArr [JNum 1; JNum 2; JNum 3])
      ∧ cacheMap ctx !! "item/1" = Some (JStr "one")
      ∧ cacheMap ctx !! "item/2" = Some (JStr "two")
      ∧ cacheMap ctx !! "item/3" = Some (JStr "three")
      ∧ size (promiseMap ctx) = 4
      ∧ map call_name (loaderCalls w) = ["list"; "item/1"; "item/2"; "item/3"]
  | _ => False
  end.
Proof. vm_compute. done. Qed.

(** The timeout boundary: the timer fires before the only load settles. *)
Example getDataFromTree_times_out :
  match Part000Collector.getDataFromTree true true [Mount "news" JUndefined ssr]
          (Some 1400%Z)
          [TimerFires; Task [LoaderSettles 1 (Fulfilled (JNum 5))]]
          (initialWorld true ∅) with
  | Returned (Some ctx) w =>
      cacheMap ctx = ∅
      ∧ promiseMap ctx !! "news" = Some (mkEntry false (Some 0))
      ∧ promiseState w 0 = Some Pending
  | _ => False
  end.
Proof. vm_compute. done. Qed.



(** In [src/index.tsx], which has no [timeout], the loop is the same loop
    with a timer that is never armed. *)
Lemma IndexCollector_getDataFromTree_is_the_loop_without_timer `{JSON}
    (isStreaming : bool) (element : list Event) (env : list AsyncEvent) (w : World) :
  isServer w = true →
  IndexCollector.getDataFromTree isStreaming element env w
  = collectLoop IndexTsx isStreaming (S (length env)) (timerArmed None)
      (size (the_promiseMap (exec IndexTsx element (freshScope w)))) env
      (exec IndexTsx element (freshScope w)).
Proof.
  intros Hsrv. unfold IndexCollector.getDataFromTree. rewrite Hsrv.
  apply collectLoopAll_collectLoop.
Qed.

(** * Further properties of the two files *)

(** ** [setSuspenseTreeContext], called at every render of the application *)


(** ** What [getDataFromTree] does not wait for *)

Section Streaming.
Context `{JSON}.
Variable rev : Revision.

(** Only a mount adds a coordinator, with the props of the mount. *)
Lemma props_apply_exact ev w :
  props (apply rev ev w)
  = props w ++ match ev with
               | Mount nm dflt ty => [(nm, dflt, ty)]
               | _ => []
               end.
Proof.
  destruct ev as [nm dflt ty|c|c|c|c arg|p s|]; simpl; rewrite ?app_nil_r.
  - unfold mount, render_.
    match goal with |- context [render rev ?c ?w0] =>
      destruct (render rev c w0) as [[r w']|] eqn:Hr;
        [apply props_render in Hr; rewrite Hr|] end;
      unfold view, set_coordinators; simpl; by rewrite map_app.
  - unfold render_. destruct (render rev c w) as [[r w']|] eqn:Hr; [|done].
    by apply props_render in Hr.
  - destruct (isServer w); [done|]. destruct rev; simpl; props_alter.
  - destruct (isServer w); [done|]. unfold wapperEffect.
    apply view_alter. intros co. by destruct (isRequestData co), co.
  - destruct rev; simpl; unfold Index.loadDispatch, Part000.loadDispatch;
      rewrite <- (view_loadDispatchCore propsOf c arg w); props_alter.
  - destruct (isLoaderPromise w p); [|done].
    destruct s; [done|by apply view_settlePromise..].
  - by apply view_tick.
Qed.

(** A reload only removes from [promiseMap]. *)
Lemma promiseMap_loadDispatch c arg w nm e :
  the_promiseMap (loadDispatch rev c arg w) !! nm = Some e →
  the_promiseMap w !! nm = Some e.
Proof.
  destruct (coordinators w !! c) as [co|] eqn:Hc.
  - destruct (loadDispatch_spec rev c arg w co Hc) as (_ & -> & _).
    by intros [_ ?]%lookup_delete_Some.
  - destruct rev; simpl; unfold Index.loadDispatch, Part000.loadDispatch,
      loadDispatchCore, update_coordinator, set_coordinators, the_promiseMap;
      rewrite Hc; simpl; done.
Qed.

Lemma streamingOnly_apply ev w :
  mountsStreaming ev → streamingOnly w → streamingOnly (apply rev ev w).
Proof.
  intros Hev [Hty Hpm].
  assert (∀ x, x ∈ props (apply rev ev w) → x.2 = streaming) as Hty'.
  { intros x. rewrite props_apply_exact. intros [Hx|Hx]%elem_of_app; [by apply Hty|].
    destruct ev; try by apply not_elem_of_nil in Hx.
    apply list_elem_of_singleton in Hx as ->. exact Hev. }
  split; [done|]. intros nm e.
  destruct (isDispatch ev) eqn:Hd.
  - destruct ev; try done. simpl. intros He. apply (Hpm nm).
    by apply promiseMap_loadDispatch in He.
  - destruct (apply_cases rev ev w Hd) as [Ho|(w0 & c & p & Ho & Hl)].
    + injection Ho as _ _ _ -> _. apply Hpm.
    + injection Ho as Hsrv _ _ Hpm0 _.
      destruct (coordinators w0 !! c) as [co|] eqn:Hc; [|by rewrite load_None in Hl].
      rewrite (load_promiseMap c w0 co p _ Hc Hl), Hpm0.
      destruct (isServer w0); [|apply Hpm].
      destruct (decide (name co = nm)) as [->|Hne].
      * rewrite lookup_insert_eq. intros [= <-]. simpl.
        apply bool_decide_eq_true_2.
        apply (Hty' (name co, defaultValue co, type co)).
        apply load_frame in Hl as (_ & _ & _ & _ & ->).
        apply list_elem_of_lookup. exists c. by apply props_lookup.
      * rewrite lookup_insert_ne by done. apply Hpm.
Qed.

Lemma streamingOnly_exec evs w :
  Forall mountsStreaming evs → streamingOnly w → streamingOnly (exec rev evs w).
Proof.
  revert w. induction evs as [|ev evs IH]; intros w Hevs Hw; [done|].
  inversion_clear Hevs. rewrite exec_cons. apply IH; [done|].
  by apply streamingOnly_apply.
Qed.

(** Under a streaming engine the entries flagged as streamed are filtered
    out of what is awaited. *)
Lemma awaitedPromises_streamingOnly w :
  streamingOnly w → awaitedPromises true w = [].
Proof.
  intros [_ Hpm]. unfold awaitedPromises.
  assert (∀ e, e ∈ map snd (map_to_list (the_promiseMap w)) →
               entry_streaming e = true) as Hall.
  { intros e ([nm e'] & -> & He)%list_elem_of_fmap.
    apply elem_of_map_to_list in He. by apply (Hpm nm). }
  induction (map snd (map_to_list (the_promiseMap w))) as [|e l IH]; [done|].
  simpl. rewrite (Hall e) by left. simpl. apply IH. intros e' He'. apply Hall. by right.
Qed.

(** With nothing to await, [Promise.all([])] is fulfilled with the empty
    array at once, no name has been added, and the loop ends in its first
    turn. *)
Lemma collectLoop_nothing_awaited isStreaming fuel armed env w :
  awaitedPromises isStreaming w = [] →
  collectLoop rev isStreaming (S fuel) armed (size (the_promiseMap w)) env w
  = Returned (Some (treeContext w)) w.
Proof.
  intros Ha. cbn [collectLoop]. rewrite Ha.
  assert (awaitRace rev armed [] env w = Some (Value (JArr []), w, env)) as ->
    by (by destruct env).
  simpl. by rewrite Nat.eqb_refl.
Qed.
End Streaming.

(** X2: Under a streaming engine [getDataFromTree] does not wait for
    coordinators of type ['streaming']: when every coordinator that the
    first render pass mounts is of that type -- in particular when it mounts
    none -- the function returns the tables as that pass left them,
    whatever the timeout is and whatever the loaders do afterwards. *)
Theorem getDataFromTree_does_not_wait_for_streaming_type `{JSON}
    (rev : Revision) (element : list Event) (timeout : option Z)
    (env : list AsyncEvent) (w : World) :
  isServer w = true →
  Forall mountsStreaming element →
  getDataFromTree rev true element timeout env w
  = Returned (Some (treeContext (exec rev element (freshScope w))))
      (exec rev element (freshScope w)).
Proof.
  intros Hsrv Hel.
  assert (awaitedPromises true (exec rev element (freshScope w)) = []) as Ha.
  { apply awaitedPromises_streamingOnly, streamingOnly_exec; [done|].
    split; [intros x Hx; by apply not_elem_of_nil in Hx|done]. }
  destruct rev as [|r18]; simpl.
  - unfold IndexCollector.getDataFromTree. rewrite Hsrv. cbn [negb].
    rewrite collectLoopAll_collectLoop. by apply collectLoop_nothing_awaited.
  - unfold Part000Collector.getDataFromTree. rewrite Hsrv. cbn [negb].
    by apply collectLoop_nothing_awaited.
Qed.

Lemma getDataFromTree_does_not_wait_for_streaming_type_witness :
  getDataFromTree IndexTsx true
    [Mount "news" JUndefined streaming; Mount "top" (JNum 1) streaming] None
    [Task [LoaderSettles 1 (Fulfilled (JNum 5))]] (initialWorld true ∅)
  = Returned
      (Some (treeContext
               (exec IndexTsx
                  [Mount "news" JUndefined streaming; Mount "top" (JNum 1) streaming]
                  (freshScope (initialWorld true ∅)))))
      (exec IndexTsx
         [Mount "news" JUndefined streaming; Mount "top" (JNum 1) streaming]
         (freshScope (initialWorld true ∅))).
Proof.
  apply (getDataFromTree_does_not_wait_for_streaming_type IndexTsx
           [Mount "news" JUndefined streaming; Mount "top" (JNum 1) streaming] None
           [Task [LoaderSettles 1 (Fulfilled (JNum 5))]] (initialWorld true ∅)).
  - reflexivity.
  - repeat constructor.
Defined.

(** ** The pass over a seeded context *)

Section Seeded.
Context `{JSON}.

Lemma adoptCache_idem c w : adoptCache c (adoptCache c w) = adoptCache c w.
Proof.
  destruct (coordinators w !! c) as [co|] eqn:Hc;
    [|unfold adoptCache; by rewrite !Hc].
  destruct (isInit (property co)) eqn:Hi;
    [by rewrite !(adoptCache_initialized c co w Hc Hi)|].
  destruct (truthy (js_get (the_cacheMap w) (name co))) eqn:Ht;
    [|by rewrite !(adoptCache_falsy c co w Hc Ht)].
  destruct (adoptCache_truthy c co w Hc Hi Ht) as (Hc' & _).
  by apply (adoptCache_initialized c _ _ Hc').
Qed.

(** The adoption block is the first thing an evaluation runs. *)
Lemma render_adoptCache rev c w : render rev c (adoptCache c w) = render rev c w.
Proof.
  destruct rev; simpl; unfold Index.SuspenseLoader, Part000.SuspenseLoader;
    by rewrite adoptCache_idem.
Qed.

(** An evaluation that adopts the Cache Entry renders the content in the
    same pass. *)
Lemma render_adopting rev c co w :
  coordinators w !! c = Some co →
  isInit (property co) = false →
  truthy (js_get (the_cacheMap w) (name co)) = true →
  isCSRFallback co = false →
  isVisible co = true →
  isRequestData co = None →
  render rev c w
  = Some (Content
            (if isServer w && streamingProp w co
             then Some (idName (name co),
                        JSON_stringify
                          (value_object (js_get (the_cacheMap w) (name co))))
             else None),
          update_coordinator c
            (set_isRequestData (Some (isServer w && streamingProp w co)))
            (adoptCache c w)).
Proof.
  intros Hc Hi Ht Hf Hv Hrd.
  destruct (adoptCache_truthy c co w Hc Hi Ht) as (Hc' & Ho & _).
  injection Ho as Hs _ Hsrc _ _.
  rewrite <- render_adoptCache.
  rewrite (render_initialized rev c _ _ Hc'); try done.
  unfold requestDataState, streamingProp, dataMarker. simpl.
  by rewrite Hrd, Hs, Hsrc.
Qed.
End Seeded.

(** X3: The hand-over of the README's [_app.tsx]: once
    [setSuspenseTreeContext(context)] has run, a coordinator that mounts
    with a name under which [context.cacheMap] holds a truthy value renders
    its content in its first pass, in either revision and on either side:
    the record is initialized with that value, [onLoaded] is called with it,
    no load is started, the loader is not invoked, and no Data Marker is
    rendered (the name is in the source cache snapshot). *)
Theorem seeded_coordinator_renders_without_loading `{JSON} (rev : Revision)
    (ctx : SuspenseTreeContextType) (w : World) (nm : string) (dflt : jsval)
    (ty : SuspenseType) (v : jsval) :
  cacheMap ctx !! nm = Some v →
  truthy v = true →
  ty ≠ csr →
  ∃ w1,
    render rev (length (coordinators w))
      (set_coordinators (λ cs, cs ++ [newCoordinator nm dflt ty])
         (setSuspenseTreeContext rev (Some ctx) w))
    = Some (Content None, w1)
    ∧ apply rev (Mount nm dflt ty) (setSuspenseTreeContext rev (Some ctx) w) = w1
    ∧ (∃ co, coordinators w1 !! length (coordinators w) = Some co
             ∧ property co = mkProperty v true false JUndefined)
    ∧ loaderCalls w1 = loaderCalls w
    ∧ promises w1 = promises w
    ∧ the_promiseMap w1 = the_promiseMap (setSuspenseTreeContext rev (Some ctx) w)
    ∧ onLoadedCalls w1 = onLoadedCalls w ++ [(length (coordinators w), v)].
Proof.
  intros Hv Ht Hty.
  set (seeded := setSuspenseTreeContext rev (Some ctx) w).
  set (c := length (coordinators w)).
  set (mounted := set_coordinators (λ cs, cs ++ [newCoordinator nm dflt ty]) seeded).
  assert (coordinators seeded = coordinators w ∧ loaderCalls seeded = loaderCalls w
          ∧ promises seeded = promises w ∧ onLoadedCalls seeded = onLoadedCalls w
          ∧ cacheSrcMap seeded = cacheMap ctx
          ∧ the_cacheMap seeded !! nm = Some v) as (Hcs & Hlc & Hps & Hol & Hsrc & Hcm).
  { subst seeded. destruct rev, w as [s d [pm cm] src cs ps q lc ol]; simpl;
      repeat split; try done.
    unfold the_cacheMap. simpl. by rewrite lookup_Object_assign, Hv. }
  assert (coordinators mounted !! c = Some (newCoordinator nm dflt ty)) as Hc.
  { subst mounted c. rewrite <- Hcs. apply lookup_mounted. }
  assert (js_get (the_cacheMap mounted) nm = v) as Hget.
  { subst mounted. unfold js_get, set_coordinators, the_cacheMap in *. simpl.
    by rewrite Hcm. }
  assert (streamingProp mounted (newCoordinator nm dflt ty) = false) as Hsp.
  { subst mounted. unfold streamingProp, js_get, set_coordinators. simpl.
    rewrite Hsrc, Hv. simpl. by rewrite Ht. }
  pose proof (render_adopting rev c _ mounted Hc eq_refl) as Hr.
  simpl in Hr. rewrite Hget, Hsp, andb_false_r in Hr.
  specialize (Hr Ht (bool_decide_eq_false_2 _ Hty) eq_refl eq_refl).
  eexists. split; [exact Hr|].
  split; [simpl; unfold mount, render_; fold seeded; rewrite Hcs; fold c mounted;
          by rewrite Hr|].
  destruct (adoptCache_truthy c _ mounted Hc eq_refl) as (Hc' & Ho & Hp' & _ & _);
    [simpl; by rewrite Hget|].
  simpl in Hc'. rewrite Hget in Hc'.
  injection Ho as _ _ _ Hpm Hlc'.
  unfold update_coordinator, set_coordinators. simpl.
  rewrite list_lookup_alter_eq, Hc'. simpl.
  repeat split.
  - eexists. split; [done|done].
  - rewrite Hlc'. subst mounted. unfold set_coordinators. simpl. exact Hlc.
  - rewrite Hp'. subst mounted. unfold set_coordinators. simpl. exact Hps.
  - unfold the_promiseMap in *. simpl. rewrite Hpm. subst mounted.
    by unfold set_coordinators.
  - unfold adoptCache. rewrite Hc. simpl. rewrite Hget, Ht.
    unfold log_onLoaded, update_property, set_coordinators. simpl. by rewrite Hol.
Qed.

Lemma seeded_coordinator_renders_without_loading_witness :
  let seeded := setSuspenseTreeContext IndexTsx
                  (Some (mkContext ∅ {["news" := JArr [JNum 1]]}))
                  (initialWorld true ∅) in
  ∃ w1, apply IndexTsx (Mount "news" (JNum 7) ssr) seeded = w1
        ∧ loaderCalls w1 = [].
Proof.
  intros seeded.
  destruct (seeded_coordinator_renders_without_loading IndexTsx
              (mkContext ∅ {["news" := JArr [JNum 1]]}) (initialWorld true ∅)
              "news" (JNum 7) ssr (JArr [JNum 1]))
    as (w1 & _ & Ha & _ & Hl & _).
  - vm_compute. reflexivity.
  - reflexivity.
  - discriminate.
  - exists w1. split; [exact Ha|exact Hl].
Defined.

(** ** The React 17 path on the server *)

Section React17.
Context `{JSON}.

(** Under React 17 [SuspenseWapper] throws [load()] only on the client:
    on the server no evaluation of a coordinator suspends. *)
Lemma Part000_server_not_suspended c w r w' :
  isServer w = true →
  render (Part000Tsx false) c w = Some (r, w') →
  ∀ p, r ≠ Suspended p.
Proof.
  intros Hsrv. pose proof (observables_adoptCache c w) as [= Hs _ _ _ _].
  simpl. unfold Part000.SuspenseLoader, Part000.SuspenseWapper.
  destruct (coordinators (adoptCache c w) !! c) as [co|]; simpl; [|done].
  rewrite Hs, Hsrv. simpl. rewrite andb_false_r.
  destruct (isCSRFallback co); [by intros [= <- <-]|].
  destruct (bool_decide _ && negb _); [by intros [= <- <-]|].
  destruct (negb (isInit (property co))); [|by intros [= <- <-]].
  match goal with |- context [load c ?w1] =>
    destruct (load c w1) as [[p w2]|]; simpl; [|done] end.
  by intros [= <- <-].
Qed.

End React17.

(** X4: Under React 17 (the revision with the React 17 path, [isReact18]
    false) no evaluation on the server throws a promise, whatever the state
    of the coordinator. *)
Theorem react17_server_never_suspends `{JSON} (c : nat) (w w' : World)
    (r : Rendered) (p : nat) :
  isServer w = true →
  render (Part000Tsx false) c w = Some (r, w') →
  r ≠ Suspended p.
Proof. intros Hsrv Hr. by apply (Part000_server_not_suspended c w r w'). Qed.

Lemma react17_server_never_suspends_witness :
  fst <$> render (Part000Tsx false) 0
            (set_coordinators (λ _, [newCoordinator "news" (JNum 7) ssr])
               (initialWorld true ∅))
  ≠ Some (Suspended 0).
Proof.
  destruct (render (Part000Tsx false) 0
              (set_coordinators (λ _, [newCoordinator "news" (JNum 7) ssr])
                 (initialWorld true ∅))) as [[r w']|] eqn:Hr; [|discriminate].
  intros [= Heq]. revert Heq.
  apply (react17_server_never_suspends 0
           (set_coordinators (λ _, [newCoordinator "news" (JNum 7) ssr])
              (initialWorld true ∅)) w' r 0).
  - reflexivity.
  - exact Hr.
Defined.



(** ** Markers that cannot be read, or that hold no value *)

Section Markers.
Context `{JSON}.

(** Path (b) when [JSON.parse(node.innerHTML).value] throws: the executor
    has set [isSuspenseLoad] and the throw rejects the promise under
    construction; the loader is never reached. *)
Lemma load_from_unreadable_marker c co w innerHTML :
  coordinators w !! c = Some co →
  loadPath w co = FromMarker innerHTML →
  JSON_parse innerHTML ≫= get_value_field = None →
  ∃ e,
    load c w = Some (length (promises w),
      mkWorld (isServer w) (document w) (treeContext w) (cacheSrcMap w)
        (alter (set_property
                  (λ pr, mkProperty (value pr) (isInit pr) true (loaderValue pr))) c
           (coordinators w))
        (promises w ++ [mkCell (Rejected e) [] true; mkCell Pending [] false])
        (microtasks w ++
           [mkJob (mkReaction (OnSettled c) (length (promises w) + 1)) (Rejected e)])
        (loaderCalls w) (onLoadedCalls w)).
Proof.
  intros Hc Hp Hv. eexists. unfold load, loadPath in *. rewrite Hc. simpl.
  destruct (isServer w) eqn:Hsrv.
  { destruct (the_promiseMap w !! name co ≫= entry_promise); done. }
  unfold loadExecutor. simpl. rewrite Hsrv.
  destruct (document w !! idName (name co)) as [html|] eqn:Hdoc; [|done].
  injection Hp as ->. rewrite Hv.
  destruct w as [s d t src cs ps q lc ol]. simpl in *.
  unfold rejectPromise, settlePromise, thenPromise, newPromise. simpl.
  heap_simpl. world_simpl. done.
Qed.

End Markers.

(** X6: On the client, a marker element whose [innerHTML] cannot be read --
    [JSON.parse] throws, or the text parses to [null] -- makes [load()]
    return a rejected promise: the loader is not invoked as a fallback, the
    record stays as it was except that [isSuspenseLoad] has been set, the
    cache is untouched, [onLoaded] is not called, and the rejection of the
    promise derived by [promise.then(...)] is unhandled. *)
Theorem unreadable_marker_rejects_the_load `{JSON} (c : nat) (co : Coordinator)
    (w : World) (innerHTML : string) :
  isServer w = false →
  microtasks w = [] →
  coordinators w !! c = Some co →
  document w !! idName (name co) = Some innerHTML →
  JSON_parse innerHTML ≫= get_value_field = None →
  ∃ w1 e,
    load c w = Some (length (promises w), w1)
    ∧ promiseState w1 (length (promises w)) = Some (Rejected e)
    ∧ loaderCalls (drain w1) = loaderCalls w
    ∧ unhandledRejection (drain w1) (length (promises w) + 1)
    ∧ the_cacheMap (drain w1) = the_cacheMap w
    ∧ onLoadedCalls (drain w1) = onLoadedCalls w
    ∧ ∃ co', coordinators (drain w1) !! c = Some co'
             ∧ isInit (property co') = isInit (property co)
             ∧ value (property co') = value (property co)
             ∧ isSuspenseLoad (property co') = true.
Proof.
  intros Hsrv Hq Hc Hdoc Hparse.
  assert (loadPath w co = FromMarker innerHTML) as Hpath.
  { unfold loadPath. by rewrite Hsrv, Hdoc. }
  destruct (load_from_unreadable_marker c co w innerHTML Hc Hpath Hparse) as [e Hl].
  eexists _, e. split; [exact Hl|].
  set (w1 := mkWorld _ _ _ _ _ _ _ _ _).
  assert (drain w1
          = mkWorld (isServer w) (document w) (treeContext w) (cacheSrcMap w)
              (coordinators w1)
              (promises w ++ [mkCell (Rejected e) [] true; mkCell (Rejected e) [] false])
              [] (loaderCalls w) (onLoadedCalls w)) as ->.
  { subst w1. rewrite Hq. simpl.
    rewrite drain_tick by done. run_simpl. by rewrite drain_done. }
  split; [subst w1; unfold promiseState; simpl; by heap_simpl|].
  split; [done|]. split; [exists e; simpl; by heap_simpl|].
  split; [done|]. split; [done|].
  subst w1. simpl. rewrite list_lookup_alter_eq, Hc. simpl. eauto.
Qed.

Lemma unreadable_marker_rejects_the_load_witness :
  let doc : gmap string string := {[ idName "news" := "null" ]} in
  let w := set_coordinators (λ _, [newCoordinator "news" (JNum 7) streaming])
             (initialWorld false doc) in
  ∃ w1 e,
    load 0 w = Some (0, w1)
    ∧ promiseState w1 0 = Some (Rejected e)
    ∧ loaderCalls (drain w1) = [].
Proof.
  intros doc w.
  destruct (unreadable_marker_rejects_the_load 0
              (newCoordinator "news" (JNum 7) streaming) w "null")
    as (w1 & e & Hl & Hp & Hlc & _).
  - reflexivity.
  - reflexivity.
  - reflexivity.
  - vm_compute. reflexivity.
  - vm_compute. reflexivity.
  - exists w1, e. split; [exact Hl|]. split; [exact Hp|exact Hlc].
Defined.



(** ** The shape of an evaluation *)

Section Shape.
Context `{JSON}.

(** What an evaluation of [SuspenseLoader] can be, in either revision:
    after the adoption block it renders the fallback; or it sets the wrapper's
    state and renders the hidden boundary or the content (the latter only
    for an initialized record); or it throws [load()]; or (React 17 path) it
    calls [load()] and renders [null]. *)
Lemma render_shape rev c w r w' :
  render rev c w = Some (r, w') →
  (r = Fallback ∧ w' = adoptCache c w)
  ∨ (∃ o, (r = Hidden ∨ (∃ m, r = Content m) ∧ initialized (adoptCache c w) c)
          ∧ w' = update_coordinator c (set_isRequestData o) (adoptCache c w))
  ∨ (¬ initialized (adoptCache c w) c
     ∧ ((∃ p, r = Suspended p ∧ load c (adoptCache c w) = Some (p, w'))
        ∨ (∃ o p, r = Null
                  ∧ load c (update_coordinator c (set_isRequestData o)
                              (adoptCache c w))
                    = Some (p, w')))).
Proof.
  assert (∀ co, coordinators (adoptCache c w) !! c = Some co →
                isInit (property co) = false →
                ¬ initialized (adoptCache c w) c) as Hno.
  { intros co Hc Hi (co' & Hc' & Hi'). congruence. }
  destruct rev as [|r18]; simpl.
  - unfold Index.SuspenseLoader, Index.SuspenseWapper.
    destruct (coordinators (adoptCache c w) !! c) as [co|] eqn:Hc; simpl; [|done].
    destruct (isCSRFallback co); [intros [= <- <-]; by left|].
    destruct (isVisible co);
      [|intros [= <- <-]; right; left; eexists; split; [by left|done]].
    destruct (isInit (property co)) eqn:Hi; simpl.
    + intros [= <- <-]. right. left. eexists. split; [|done].
      right. split; [eauto|]. by exists co.
    + destruct (load c (adoptCache c w)) as [[p w1]|] eqn:Hl; simpl; [|done].
      intros [= <- <-]. right. right. split; [by apply (Hno co)|]. left. eauto.
  - unfold Part000.SuspenseLoader, Part000.SuspenseWapper.
    destruct (coordinators (adoptCache c w) !! c) as [co|] eqn:Hc; simpl; [|done].
    destruct (isCSRFallback co); [intros [= <- <-]; by left|].
    set (wrapped := if negb (isInit (property co))
                       && (r18 || negb (isServer (adoptCache c w))) then _ else _).
    assert (wrapped = Some (r, w') →
      (r = Fallback ∧ w' = adoptCache c w)
      ∨ (∃ o, (r = Hidden ∨ (∃ m, r = Content m) ∧ initialized (adoptCache c w) c)
              ∧ w' = update_coordinator c (set_isRequestData o) (adoptCache c w))
      ∨ (¬ initialized (adoptCache c w) c
         ∧ ((∃ p, r = Suspended p ∧ load c (adoptCache c w) = Some (p, w'))
            ∨ (∃ o p, r = Null
                      ∧ load c (update_coordinator c (set_isRequestData o)
                                  (adoptCache c w))
                        = Some (p, w'))))) as Hw.
    { subst wrapped. destruct (isInit (property co)) eqn:Hi; simpl.
      - intros [= <- <-]. right. left. eexists. split; [|done].
        right. split; [eauto|]. by exists co.
      - destruct (r18 || negb (isServer (adoptCache c w))).
        + destruct (load c (adoptCache c w)) as [[p w1]|] eqn:Hl; simpl; [|done].
          intros [= <- <-]. right. right. split; [by apply (Hno co)|]. left. eauto.
        + match goal with |- context [load c ?w1] =>
            destruct (load c w1) as [[p w2]|] eqn:Hl; simpl; [|done] end.
          intros [= <- <-]. right. right. split; [by apply (Hno co)|]. right. eauto. }
    destruct (isServer (adoptCache c w) && negb r18); [|exact Hw].
    destruct (bool_decide _ && negb _); [intros [= <- <-]; by left|exact Hw].
Qed.

(** [load] assigns at most [isSuspenseLoad], and in the record of its own
    coordinator. *)
Lemma load_coordinators c w p w' :
  load c w = Some (p, w') →
  coordinators w' = coordinators w
  ∨ coordinators w'
    = alter (set_property
               (λ pr, mkProperty (value pr) (isInit pr) true (loaderValue pr))) c
        (coordinators w).
Proof.
  unfold load. destruct (coordinators w !! c) as [co|]; [|done]. simpl.
  set (reg := if isServer w then _ else None).
  assert (∀ f w0, coordinators (if isServer w then set_treeContext f w0 else w0)
                  = coordinators w0) as Hctx
    by (intros; by destruct (isServer w)).
  destruct reg as [q|]; simpl; intros [= <- <-]; rewrite Hctx.
  - destruct (thenPromise_outside q (OnSettled c) w) as (_ & _ & _ & _ & -> & _).
    by left.
  - match goal with |- context [thenPromise ?p ?cb ?w0] =>
      destruct (thenPromise_outside p cb w0) as (_ & _ & _ & _ & -> & _) end.
    unfold loadExecutor. simpl.
    destruct (if isServer w then None else document w !! idName (name co)) as [html|].
    + right. destruct (JSON_parse html ≫= get_value_field);
        unfold resolvePromise, rejectPromise;
        match goal with |- context [settlePromise ?p ?s ?w0] =>
          destruct (settlePromise_outside p s w0) as (_ & _ & _ & _ & -> & _) end;
        done.
    + left.
      match goal with |- context [thenPromise ?p ?cb ?w0] =>
        destruct (thenPromise_outside p cb w0) as (_ & _ & _ & _ & -> & _) end.
      done.
Qed.

(** A call of [load] invokes the loader at most once, for its own
    coordinator. *)
Lemma load_calls_by c w p w' :
  load c w = Some (p, w') →
  loaderCalls w' = loaderCalls w
  ∨ ∃ call, loaderCalls w' = loaderCalls w ++ [call] ∧ call_coordinator call = c.
Proof.
  intros Hl.
  destruct (coordinators w !! c) as [co|] eqn:Hc; [|by rewrite load_None in Hl].
  rewrite (load_loaderCalls c w co p w' Hc Hl).
  destruct (loadPath w co); [by left..|]. right. eauto.
Qed.

(** The loader is invoked only by an evaluation that throws [load()] or
    renders [null], and then for the evaluated coordinator. *)
Lemma render_loaderCalls rev c w r w' :
  render rev c w = Some (r, w') →
  match r with
  | Suspended _ | Null =>
      loaderCalls w' = loaderCalls w
      ∨ ∃ call, loaderCalls w' = loaderCalls w ++ [call] ∧ call_coordinator call = c
  | _ => loaderCalls w' = loaderCalls w
  end.
Proof.
  pose proof (observables_adoptCache c w) as [= _ _ _ _ Ha].
  intros [[-> ->]|[(o & Hr & ->)|[_ [(p & -> & Hl)|(o & p & -> & Hl)]]]]%render_shape.
  - done.
  - destruct Hr as [->|[[m ->] _]]; done.
  - rewrite <- Ha. by apply (load_calls_by c _ p).
  - rewrite <- Ha. by apply (load_calls_by c _ p) in Hl.
Qed.
End Shape.

(** X8: An evaluation of [SuspenseLoader] invokes the loader at most once, on
    behalf of the evaluated coordinator, and only when it throws [load()] or
    (React 17 path) renders [null]: an evaluation that renders the content,
    the fallback or the hidden boundary never invokes it. *)
Theorem evaluation_invokes_loader_only_when_it_suspends `{JSON} (rev : Revision)
    (c : nat) (w w' : World) (r : Rendered) :
  render rev c w = Some (r, w') →
  match r with
  | Suspended _ | Null =>
      loaderCalls w' = loaderCalls w
      ∨ ∃ call, loaderCalls w' = loaderCalls w ++ [call] ∧ call_coordinator call = c
  | _ => loaderCalls w' = loaderCalls w
  end.
Proof. apply render_loaderCalls. Qed.

Lemma evaluation_invokes_loader_only_when_it_suspends_witness :
  let w := run IndexTsx
             [Mount "news" (JNum 7) ssr; LoaderSettles 1 (Fulfilled (JNum 5))]
             (initialWorld true ∅) in
  match render IndexTsx 0 w with
  | Some (Content _, w') => loaderCalls w' = loaderCalls w
  | _ => True
  end.
Proof.
  intros w.
  destruct (render IndexTsx 0 w) as [[r w']|] eqn:Hr; [|exact I].
  pose proof (evaluation_invokes_loader_only_when_it_suspends IndexTsx 0 w w' r Hr)
    as Hcalls.
  destruct r; try exact I. exact Hcalls.
Defined.

(** ** Between a load and the next reload *)

Section Initialized.
Context `{JSON}.

Lemma initialized_alter f c' w c :
  (∀ co, isInit (property co) = true → isInit (property (f co)) = true) →
  initialized w c → initialized (update_coordinator c' f w) c.
Proof.
  intros Hf (co & Hc & Hi).
  unfold initialized, update_coordinator, set_coordinators. simpl.
  destruct (decide (c' = c)) as [->|Hne].
  - rewrite list_lookup_alter_eq, Hc. simpl. eauto.
  - rewrite list_lookup_alter_ne by done. eauto.
Qed.

Lemma initialized_coordinators w w' c :
  coordinators w' = coordinators w → initialized w c → initialized w' c.
Proof. intros Heq (co & Hc & Hi). exists co. by rewrite Heq. Qed.

Lemma initialized_adoptCache c' w c :
  initialized w c → initialized (adoptCache c' w) c.
Proof.
  intros Hw. unfold adoptCache. repeat case_match; try done.
  apply (initialized_coordinators
           (update_coordinator c'
              (set_property (λ pr, mkProperty (js_get (the_cacheMap w) (name c0))
                                     true false (loaderValue pr))) w));
    [done|]. by apply initialized_alter.
Qed.

Lemma initialized_load c' w p w' c :
  load c' w = Some (p, w') → initialized w c → initialized w' c.
Proof.
  intros [Heq|Heq]%load_coordinators Hw.
  - by apply (initialized_coordinators w).
  - apply (initialized_coordinators
             (update_coordinator c'
                (set_property (λ pr, mkProperty (value pr) (isInit pr) true
                                       (loaderValue pr))) w)); [done|].
    by apply initialized_alter.
Qed.

Lemma initialized_render rev c' w r w' c :
  render rev c' w = Some (r, w') → initialized w c → initialized w' c.
Proof.
  intros Hr Hw. apply (initialized_adoptCache c') in Hw.
  apply render_shape in Hr
    as [[_ ->]|[(o & _ & ->)|[_ [(p & _ & Hl)|(o & p & _ & Hl)]]]].
  - done.
  - by apply initialized_alter.
  - by apply (initialized_load c' _ p w' c Hl).
  - apply (initialized_load c' _ p w' c Hl). by apply initialized_alter.
Qed.

Lemma initialized_settlePromise p s w c :
  initialized w c → initialized (settlePromise p s w) c.
Proof.
  apply initialized_coordinators.
  by destruct (settlePromise_outside p s w) as (_ & _ & _ & _ & -> & _).
Qed.

Lemma initialized_runCallback cb v w c :
  initialized w c → initialized (runCallback cb v w) c.
Proof.
  intros Hw. destruct cb as [c'|c' outer]; simpl.
  - destruct (coordinators w !! c') as [co|]; [|done].
    apply (initialized_coordinators
             (update_coordinator c'
                (set_property (λ pr, mkProperty v true (isSuspenseLoad pr)
                                       (loaderValue pr))) w)); [done|].
    by apply initialized_alter.
  - unfold resolvePromise. apply initialized_settlePromise.
    by apply (initialized_alter
                (set_property (λ pr, mkProperty (value pr) (isInit pr) false
                                       (loaderValue pr)))).
Qed.

Lemma initialized_tick w c : initialized w c → initialized (tick w) c.
Proof.
  intros Hw. unfold tick. destruct (microtasks w) as [|j q]; [done|].
  assert (initialized (set_microtasks (λ _, q) w) c) as Hw'
    by (by apply (initialized_coordinators w)).
  unfold runJob. destruct (job_settled j); [done| |].
  - unfold resolvePromise. by apply initialized_settlePromise, initialized_runCallback.
  - unfold rejectPromise. by apply initialized_settlePromise.
Qed.

Lemma initialized_loadDispatch rev c' arg w c :
  c' ≠ c → initialized w c → initialized (loadDispatch rev c' arg w) c.
Proof.
  intros Hne (co & Hc & Hi). exists co. split; [|done].
  destruct rev; simpl; unfold Index.loadDispatch, Part000.loadDispatch,
    loadDispatchCore, update_coordinator, update_property, set_coordinators;
    destruct (coordinators w !! c'); simpl;
    by rewrite ?list_lookup_alter_ne by done.
Qed.

Lemma initialized_mounted w co c :
  initialized w c → initialized (set_coordinators (λ cs, cs ++ [co]) w) c.
Proof.
  intros (co' & Hc & Hi). exists co'. split; [|done].
  unfold set_coordinators. simpl. by apply lookup_app_l_Some.
Qed.

Lemma initialized_apply rev ev w c :
  reloads_other c ev → initialized w c → initialized (apply rev ev w) c.
Proof.
  intros Hev Hw. destruct ev as [nm dflt ty|c'|c'|c'|c' arg|p s|]; simpl.
  - unfold mount, render_.
    match goal with |- context [render rev ?c0 ?w0] =>
      destruct (render rev c0 w0) as [[r w']|] eqn:Hr end;
      [apply (initialized_render rev _ _ r w' c Hr)|]; by apply initialized_mounted.
  - unfold render_. destruct (render rev c' w) as [[r w']|] eqn:Hr; [|done].
    by apply (initialized_render rev c' w r w').
  - destruct (isServer w); [done|].
    destruct rev; simpl; by apply initialized_alter.
  - destruct (isServer w); [done|]. unfold wapperEffect.
    apply initialized_alter; [|done]. intros co. by destruct (isRequestData co).
  - by apply initialized_loadDispatch.
  - destruct (isLoaderPromise w p); [|done].
    destruct s; [done|by apply initialized_settlePromise..].
  - by apply initialized_tick.
Qed.

(** An evaluation of an initialized coordinator does not load. *)
Lemma initialized_render_no_load rev c w r w' :
  initialized w c → render rev c w = Some (r, w') → loaderCalls w' = loaderCalls w.
Proof.
  intros Hw Hr. apply (initialized_adoptCache c) in Hw.
  pose proof (render_loaderCalls rev c w r w' Hr) as Hcalls.
  apply render_shape in Hr
    as [[-> _]|[(o & [->|[[m ->] _]] & _)|[Hno _]]]; done.
Qed.

Lemma callsBy_loaderCalls w w' c :
  loaderCalls w' = loaderCalls w → callsBy w' c = callsBy w c.
Proof. unfold callsBy. by intros ->. Qed.

(** The evaluation of one coordinator invokes nothing for another. *)
Lemma callsBy_render_ne rev c' w r w' c :
  c ≠ c' → render rev c' w = Some (r, w') → callsBy w' c = callsBy w c.
Proof.
  intros Hne Hr%render_loaderCalls.
  assert (loaderCalls w' = loaderCalls w
          ∨ ∃ call, loaderCalls w' = loaderCalls w ++ [call]
                    ∧ call_coordinator call = c') as [Heq|(call & Heq & Hcall)]
    by (destruct r; auto).
  - by apply callsBy_loaderCalls.
  - unfold callsBy. rewrite Heq, List.filter_app. simpl.
    rewrite bool_decide_eq_false_2 by congruence. by rewrite app_nil_r.
Qed.

Lemma loaderCalls_loadDispatch rev c arg w :
  loaderCalls (loadDispatch rev c arg w) = loaderCalls w.
Proof.
  destruct rev; simpl; unfold Index.loadDispatch, Part000.loadDispatch,
    loadDispatchCore, update_coordinator, update_property, set_coordinators,
    set_treeContext; by destruct (coordinators w !! c).
Qed.

(** The invocations for a mounted coordinator change only when that
    coordinator is evaluated. *)
Lemma callsBy_apply rev ev w c :
  c < length (coordinators w) →
  (∀ r w', render rev c w = Some (r, w') → loaderCalls w' = loaderCalls w) →
  callsBy (apply rev ev w) c = callsBy w c.
Proof.
  intros Hlt Hself. destruct ev as [nm dflt ty|c'|c'|c'|c' arg|p s|]; simpl.
  - unfold mount, render_.
    match goal with |- context [render rev ?c0 ?w0] =>
      destruct (render rev c0 w0) as [[r w']|] eqn:Hr end; [|done].
    assert (c ≠ length (coordinators w)) as Hne by lia.
    by rewrite (callsBy_render_ne rev _ _ r w' c Hne Hr).
  - unfold render_. destruct (render rev c' w) as [[r w']|] eqn:Hr; [|done].
    destruct (decide (c = c')) as [<-|Hne].
    + apply callsBy_loaderCalls. by apply (Hself r).
    + by apply (callsBy_render_ne rev c' w r w').
  - apply callsBy_loaderCalls. destruct (isServer w); [done|]. by destruct rev.
  - apply callsBy_loaderCalls. by destruct (isServer w).
  - apply callsBy_loaderCalls, loaderCalls_loadDispatch.
  - apply callsBy_loaderCalls. destruct (isLoaderPromise w p); [|done].
    destruct s as [|v|e]; [done|..];
      match goal with |- context [settlePromise ?p0 ?s0 ?w0] =>
        by destruct (settlePromise_outside p0 s0 w0) as (_ & _ & _ & _ & _ & -> & _)
      end.
  - apply callsBy_loaderCalls.
    by pose proof (observables_tick w) as [= _ _ _ _ ->].
Qed.
End Initialized.

(** X9: Once the record of a coordinator is initialized -- by adoption from the
    cache or by a settled load -- it stays initialized through every event
    other than that coordinator's own reload: evaluations of any coordinator,
    effects, settlements of loader promises, reaction jobs, mounts, and the
    reloads of other coordinators (also of one that shares its name).  In
    all that time no loader invocation is made on its behalf. *)
Theorem initialized_coordinator_stays_so_until_its_reload `{JSON}
    (rev : Revision) (c : nat) (evs : list Event) (w : World) :
  initialized w c →
  Forall (reloads_other c) evs →
  initialized (exec rev evs w) c
  ∧ callsBy (exec rev evs w) c = callsBy w c.
Proof.
  revert w. induction evs as [|ev evs IH]; intros w Hw Hevs; [done|].
  inversion_clear Hevs as [|?? Hev Hevs']. rewrite exec_cons.
  destruct (IH (apply rev ev w)) as [Hi Hcalls];
    [by apply initialized_apply|done|].
  split; [done|]. rewrite Hcalls. apply callsBy_apply.
  - destruct Hw as (co & Hc & _). by apply lookup_lt_Some in Hc.
  - intros r w'. by apply initialized_render_no_load.
Qed.

Lemma initialized_coordinator_stays_so_until_its_reload_witness :
  let w := run IndexTsx
             [Mount "news" (JNum 7) streaming; LoaderSettles 1 (Fulfilled (JNum 5));
              Mount "news" (JNum 8) streaming]
             (initialWorld false ∅) in
  let evs := [Render 0; LoaderEffects 0; Dispatch 1 JUndefined; Render 1;
              LoaderEffects 1; Render 1; Render 0; Tick] in
  initialized (exec IndexTsx evs w) 0
  ∧ callsBy (exec IndexTsx evs w) 0 = callsBy w 0.
Proof.
  intros w evs.
  apply (initialized_coordinator_stays_so_until_its_reload IndexTsx 0 evs w).
  - eexists. split; [vm_compute; reflexivity|reflexivity].
  - repeat constructor; simpl; lia.
Defined.

(** ** Type ['csr'] on the server *)

Section CsrServer.
Context `{JSON}.

(** An evaluation leaves alone every component of every coordinator that
    is neither in the [property] object nor the wrapper's state. *)
Lemma view_render {A} (g : Coordinator → A) `{!PropertyBlind g} rev c w r w' :
  (∀ o co, g (set_isRequestData o co) = g co) →
  render rev c w = Some (r, w') → view g w' = view g w.
Proof.
  intros Hg Hr. pose proof (view_adoptCache g c w) as Ha.
  apply render_shape in Hr
    as [[_ ->]|[(o & _ & ->)|[_ [(p & _ & Hl)|(o & p & _ & Hl)]]]].
  - done.
  - rewrite <- Ha. by apply view_alter.
  - by rewrite (view_load g c _ p w' Hl).
  - rewrite (view_load g c _ p w' Hl), <- Ha. by apply view_alter.
Qed.

(** On the server nothing clears [isCSRFallback]: the effect that would
    does not run. *)
Lemma csrFallback_apply rev ev w c :
  isServer w = true →
  view isCSRFallback w !! c = Some true →
  view isCSRFallback (apply rev ev w) !! c = Some true.
Proof.
  intros Hsrv Hw. destruct ev as [nm dflt ty|c'|c'|c'|c' arg|p s|]; simpl.
  - unfold mount, render_.
    assert (view isCSRFallback
              (set_coordinators (λ cs, cs ++ [newCoordinator nm dflt ty]) w) !! c
            = Some true) as Hm.
    { unfold view, set_coordinators in *. simpl. rewrite map_app.
      by apply lookup_app_l_Some. }
    match goal with |- context [render rev ?c0 ?w0] =>
      destruct (render rev c0 w0) as [[r w']|] eqn:Hr end; [|done].
    by rewrite (view_render isCSRFallback rev _ _ r w' ltac:(by intros ? []) Hr).
  - unfold render_. destruct (render rev c' w) as [[r w']|] eqn:Hr; [|done].
    by rewrite (view_render isCSRFallback rev _ _ r w' ltac:(by intros ? []) Hr).
  - by rewrite Hsrv.
  - by rewrite Hsrv.
  - rewrite <- Hw. f_equal.
    destruct rev; simpl; unfold Index.loadDispatch, Part000.loadDispatch;
      rewrite <- (view_loadDispatchCore isCSRFallback c' arg w);
      apply view_alter; by intros [].
  - destruct (isLoaderPromise w p); [|done].
    destruct s; [done|by rewrite view_settlePromise..].
  - by rewrite view_tick.
Qed.

Lemma csrFallback_render rev c w :
  view isCSRFallback w !! c = Some true →
  render rev c w = Some (Fallback, adoptCache c w).
Proof.
  intros Hw. rewrite <- (view_adoptCache isCSRFallback c w), view_lookup in Hw.
  destruct (coordinators (adoptCache c w) !! c) as [co|] eqn:Hc; [|done].
  injection Hw as Hf. by apply (render_csr_fallback rev c co).
Qed.
End CsrServer.

(** X10: On the server a coordinator in its ['csr'] fallback phase -- the phase
    in which every coordinator of type ['csr'] is mounted -- never leaves it:
    the effect that ends the phase does not run in a server render.  Through
    every sequence of events it renders the fallback, and no loader
    invocation is ever made on its behalf. *)
Theorem csr_coordinator_never_loads_on_server `{JSON} (rev : Revision)
    (c : nat) (co : Coordinator) (evs : list Event) (w : World) :
  isServer w = true →
  coordinators w !! c = Some co →
  isCSRFallback co = true →
  callsBy (exec rev evs w) c = callsBy w c
  ∧ render rev c (exec rev evs w)
    = Some (Fallback, adoptCache c (exec rev evs w)).
Proof.
  intros Hsrv Hc Hf.
  assert (view isCSRFallback w !! c = Some true) as Hw
    by (by rewrite view_lookup, Hc; simpl; rewrite Hf).
  clear Hf. apply lookup_lt_Some in Hc. revert w Hsrv Hc Hw.
  induction evs as [|ev evs IH]; intros w Hsrv Hc Hw.
  - split; [done|]. by apply csrFallback_render.
  - rewrite exec_cons.
    destruct (IH (apply rev ev w)) as [Hcalls Hr].
    + by rewrite isServer_apply.
    + pose proof (csrFallback_apply rev ev w c Hsrv Hw) as Hw'.
      rewrite view_lookup in Hw'.
      destruct (coordinators (apply rev ev w) !! c) eqn:Hc'; [|done].
      by apply lookup_lt_Some in Hc'.
    + by apply csrFallback_apply.
    + split; [|done]. rewrite Hcalls. apply callsBy_apply; [done|].
      intros r w'. rewrite (csrFallback_render rev c w Hw). intros [= _ <-].
      by pose proof (observables_adoptCache c w) as [= _ _ _ _ ->].
Qed.

Lemma csr_coordinator_never_loads_on_server_witness :
  let w := exec IndexTsx [Mount "news" (JNum 7) csr] (initialWorld true ∅) in
  let evs := [Render 0; LoaderEffects 0; Render 0; Dispatch 0 (JNum 8); Render 0] in
  callsBy (exec IndexTsx evs w) 0 = callsBy w 0
  ∧ render IndexTsx 0 (exec IndexTsx evs w)
    = Some (Fallback, adoptCache 0 (exec IndexTsx evs w)).
Proof.
  intros w evs.
  apply (csr_coordinator_never_loads_on_server IndexTsx 0
           (newCoordinator "news" (JNum 7) csr) evs w).
  - reflexivity.
  - vm_compute. reflexivity.
  - reflexivity.
Defined.

(** ** The client has no de-duplication *)

Section ClientEvaluations.
Context `{JSON}.

End ClientEvaluations.



(** ** The reload of [src/index.tsx] on the client *)



(** ** What the children are given *)

Section ChildrenFacts.
Context `{JSON}.

Lemma providedContext_Some rev c w d :
  providedContext rev c w = Some d →
  ∃ co, coordinators (adoptCache c w) !! c = Some co
        ∧ isInit (property co) = true
        ∧ d = mkData (value (property co)) c.
Proof.
  unfold providedContext.
  destruct (render rev c w) as [[r w']|] eqn:Hr; [|done].
  destruct r as [| | | |m]; try done.
  apply render_shape in Hr
    as [[? _]|[(o & [?|[_ (co & Hc & Hi)]] & ->)|[_ [(? & ? & _)|(? & ? & ? & _)]]]];
    try done.
  unfold update_coordinator, set_coordinators. simpl.
  rewrite list_lookup_alter_eq, Hc. simpl. intros [= <-]. by exists co.
Qed.
End ChildrenFacts.

(** X13: The children of a coordinator are rendered, and [useSuspenseData()]
    and [useSuspenseDispatch()] have a provider to read, only in an
    evaluation whose record is initialized: what [useSuspenseData()]
    returns is the [value] of that record, and what
    [useSuspenseDispatch()] returns is the reload of that coordinator. *)
Theorem children_are_given_an_initialized_record `{JSON} (rev : Revision)
    (c : nat) (w : World) (v : jsval) :
  useSuspenseData rev c w = Some v →
  ∃ co, coordinators (adoptCache c w) !! c = Some co
        ∧ isInit (property co) = true
        ∧ v = value (property co)
        ∧ useSuspenseDispatch rev c w = Some c.
Proof.
  unfold useSuspenseData, useSuspenseDispatch.
  destruct (providedContext rev c w) as [d|] eqn:Hd; [|done].
  apply providedContext_Some in Hd as (co & Hc & Hi & ->).
  intros [= <-]. by exists co.
Qed.

Lemma children_are_given_an_initialized_record_witness :
  let w := run IndexTsx
             [Mount "news" (JNum 7) streaming; LoaderSettles 1 (Fulfilled (JNum 5))]
             (initialWorld false ∅) in
  ∃ co, coordinators (adoptCache 0 w) !! 0 = Some co
        ∧ isInit (property co) = true
        ∧ JNum 5 = value (property co)
        ∧ useSuspenseDispatch IndexTsx 0 w = Some 0.
Proof.
  intros w.
  apply (children_are_given_an_initialized_record IndexTsx 0 w (JNum 5)).
  vm_compute. reflexivity.
Defined.

(** X14: After a load through the loader has been fulfilled with a value, the
    next evaluation hands that very value to the children, also when it is
    falsy or [undefined] (the case of a loader that guards its failures by
    resolving to [undefined], as the README's does). *)
Theorem children_read_the_loaded_value `{JSON} (rev : Revision) (c : nat)
    (co : Coordinator) (w : World) (v : jsval) :
  coordinators w !! c = Some co →
  loadPath w co = FromLoader →
  microtasks w = [] →
  isCSRFallback co = false →
  isVisible co = true →
  ∃ w1,
    load c w = Some (length (promises w), w1)
    ∧ useSuspenseData rev c
        (step rev (LoaderSettles (length (promises w) + 1) (Fulfilled v)) w1)
      = Some v
    ∧ useSuspenseDispatch rev c
        (step rev (LoaderSettles (length (promises w) + 1) (Fulfilled v)) w1)
      = Some c.
Proof.
  intros Hc Hp Hq Hf Hv.
  destruct (loader_fulfils rev c co w v Hc Hp Hq) as (w1 & Hl & _ & Hw2).
  exists w1. split; [done|]. rewrite Hw2.
  set (w2 := mkWorld _ _ _ _ _ _ _ _ _).
  assert (coordinators w2 !! c
          = Some (set_property (λ pr, mkProperty v true false (loaderValue pr)) co))
    as Hc2 by (subst w2; cbn [coordinators]; by rewrite list_lookup_alter_eq, Hc).
  unfold useSuspenseData, useSuspenseDispatch, providedContext.
  rewrite (render_initialized rev c _ w2 Hc2); try done.
  unfold update_coordinator, set_coordinators. simpl.
  by rewrite list_lookup_alter_eq, list_lookup_alter_eq, Hc.
Qed.

Lemma children_read_the_loaded_value_witness :
  let w := set_coordinators (λ _, [newCoordinator "news" (JNum 7) streaming])
             (initialWorld false ∅) in
  ∃ w1,
    load 0 w = Some (0, w1)
    ∧ useSuspenseData IndexTsx 0
        (step IndexTsx (LoaderSettles 1 (Fulfilled JUndefined)) w1)
      = Some JUndefined
    ∧ useSuspenseDispatch IndexTsx 0
        (step IndexTsx (LoaderSettles 1 (Fulfilled JUndefined)) w1)
      = Some 0.
Proof.
  intros w.
  exact (children_read_the_loaded_value IndexTsx 0
           (newCoordinator "news" (JNum 7) streaming) w JUndefined
           eq_refl eq_refl eq_refl eq_refl eq_refl).
Defined.

(** ** Coordinators that share a name on the server *)

Section Shared.
Context `{JSON}.

(** Two coordinators with one name on the server, from the first [load] to
    the run of the queue after the loader's promise is fulfilled. *)
Lemma load_shared rev c1 c2 co1 co2 w v :
  isServer w = true →
  microtasks w = [] →
  c1 ≠ c2 →
  coordinators w !! c1 = Some co1 →
  coordinators w !! c2 = Some co2 →
  name co2 = name co1 →
  loadPath w co1 = FromLoader →
  ∃ w1 w2 wf,
    load c1 w = Some (length (promises w), w1)
    ∧ load c2 w1 = Some (length (promises w), w2)
    ∧ loaderCalls w2
      = loaderCalls w ++
          [mkCall c1 (name co1)
             (js_or (loaderValue (property co1)) (defaultValue co1))
             (length (promises w) + 1)]
    ∧ step rev (LoaderSettles (length (promises w) + 1) (Fulfilled v)) w2 = wf
    ∧ loaderCalls wf = loaderCalls w2
    ∧ (∃ co, coordinators wf !! c1 = Some co
             ∧ value (property co) = v ∧ isInit (property co) = true)
    ∧ (∃ co, coordinators wf !! c2 = Some co
             ∧ value (property co) = v ∧ isInit (property co) = true)
    ∧ the_cacheMap wf !! name co1 = Some v
    ∧ onLoadedCalls wf = onLoadedCalls w ++ [(c1, v); (c2, v)]
    ∧ microtasks wf = [].
Proof.
  intros Hsrv Hq Hne Hc1 Hc2 Hnm Hpath.
  eexists _, _, _. split; [by apply load_from_loader|].
  rewrite Hsrv. simpl.
  split.
  { unfold load. simpl. rewrite Hc2. simpl. rewrite Hnm.
    unfold the_promiseMap, set_promiseMap. simpl. rewrite lookup_insert_eq. simpl.
    unfold thenPromise, newPromise. world_simpl. reflexivity. }
  split; [simpl; done|].
  split.
  { unfold step. simpl.
    match goal with |- context [isLoaderPromise ?w0 ?p0] =>
      assert (isLoaderPromise w0 p0 = true) as ->
    end.
    { apply bool_decide_eq_true_2. simpl. rewrite map_app.
      apply elem_of_app. right. by apply list_elem_of_singleton. }
    unfold settlePromise. simpl. heap_simpl. rewrite Hq. simpl. world_simpl.
    rewrite drain_tick by done. run_simpl.
    rewrite drain_tick by done. run_simpl.
    rewrite list_lookup_alter_eq, Hc1. run_simpl.
    rewrite drain_tick by done. run_simpl.
    rewrite !list_lookup_alter_ne, Hc2 by done. run_simpl.
    rewrite drain_done by done. reflexivity. }
  simpl. split; [done|].
  split; [|split; [|split; [|split]]].
  - rewrite list_lookup_alter_ne, !list_lookup_alter_eq, Hc1 by done. simpl. eauto.
  - rewrite list_lookup_alter_eq, !list_lookup_alter_ne, Hc2 by done. simpl. eauto.
  - unfold the_cacheMap. simpl. rewrite ?Hnm. apply lookup_insert_eq.
  - done.
  - done.
Qed.
End Shared.

(** X15: On the server, a second coordinator that evaluates with a name whose
    load is pending gets the registered promise back, and the one loader
    invocation serves both: when the loader's promise is fulfilled, each of
    the two records is initialized with the value, [onLoaded] is called once
    for each coordinator, in the order in which they called [load], and the
    cache holds the value under the shared name. *)
Theorem shared_load_is_delivered_to_both_coordinators `{JSON} (rev : Revision)
    (c1 c2 : nat) (co1 co2 : Coordinator) (w : World) (v : jsval) :
  isServer w = true →
  microtasks w = [] →
  c1 ≠ c2 →
  coordinators w !! c1 = Some co1 →
  coordinators w !! c2 = Some co2 →
  name co2 = name co1 →
  loadPath w co1 = FromLoader →
  ∃ w1 w2 wf,
    load c1 w = Some (length (promises w), w1)
    ∧ load c2 w1 = Some (length (promises w), w2)
    ∧ loaderCalls w2
      = loaderCalls w ++
          [mkCall c1 (name co1)
             (js_or (loaderValue (property co1)) (defaultValue co1))
             (length (promises w) + 1)]
    ∧ step rev (LoaderSettles (length (promises w) + 1) (Fulfilled v)) w2 = wf
    ∧ loaderCalls wf = loaderCalls w2
    ∧ (∃ co, coordinators wf !! c1 = Some co
             ∧ value (property co) = v ∧ isInit (property co) = true)
    ∧ (∃ co, coordinators wf !! c2 = Some co
             ∧ value (property co) = v ∧ isInit (property co) = true)
    ∧ the_cacheMap wf !! name co1 = Some v
    ∧ onLoadedCalls wf = onLoadedCalls w ++ [(c1, v); (c2, v)]
    ∧ microtasks wf = [].
Proof. apply load_shared. Qed.

Lemma shared_load_is_delivered_to_both_coordinators_witness :
  let w := set_coordinators
             (λ _, [newCoordinator "news" (JNum 7) ssr;
                    newCoordinator "news" (JNum 8) streaming])
             (initialWorld true ∅) in
  ∃ w1 w2 wf,
    load 0 w = Some (0, w1)
    ∧ load 1 w1 = Some (0, w2)
    ∧ loaderCalls w2 = [mkCall 0 "news" (JNum 7) 1]
    ∧ step IndexTsx (LoaderSettles 1 (Fulfilled (JStr "x"))) w2 = wf
    ∧ loaderCalls wf = loaderCalls w2
    ∧ (∃ co, coordinators wf !! 0 = Some co
             ∧ value (property co) = JStr "x" ∧ isInit (property co) = true)
    ∧ (∃ co, coordinators wf !! 1 = Some co
             ∧ value (property co) = JStr "x" ∧ isInit (property co) = true)
    ∧ the_cacheMap wf !! "news" = Some (JStr "x")
    ∧ onLoadedCalls wf = [(0, JStr "x"); (1, JStr "x")]
    ∧ microtasks wf = [].
Proof.
  intros w.
  exact (shared_load_is_delivered_to_both_coordinators IndexTsx 0 1
           (newCoordinator "news" (JNum 7) ssr)
           (newCoordinator "news" (JNum 8) streaming) w (JStr "x")
           eq_refl eq_refl ltac:(discriminate) eq_refl eq_refl eq_refl eq_refl).
Defined.

(** ** On the server no registered promise is rejected *)

Section ServerScope.
Context `{JSON}.

Lemma exposed_frame w w' d :
  promises w' = promises w → microtasks w' = microtasks w →
  loaderCalls w' = loaderCalls w →
  exposed w' d ↔ exposed w d.
Proof. intros Hp Hq Hl. unfold exposed. by rewrite Hp, Hq, Hl. Qed.

Lemma advances_frame w w' :
  promises w' = promises w → microtasks w' = microtasks w →
  loaderCalls w' = loaderCalls w →
  advances w w'.
Proof.
  intros Hp Hq Hl. split.
  - intros Hb d Hd. rewrite Hp. apply Hb. by apply (exposed_frame w w').
  - intros p [Hlt Hs]. split; [by rewrite Hp|].
    unfold promiseState in *. rewrite Hp.
    destruct Hs as [Hf|[Hpen Hne]]; [by left|right].
    split; [done|]. by rewrite (exposed_frame w w').
Qed.

Lemma advances_refl w : advances w w.
Proof. by split. Qed.

Lemma advances_trans w1 w2 w3 : advances w1 w2 → advances w2 w3 → advances w1 w3.
Proof. intros [Hb1 Hu1] [Hb2 Hu2]. split; auto. Qed.

Lemma exposed_newPromise w d : exposed (newPromise w).2 d ↔ exposed w d.
Proof.
  unfold exposed, newPromise, set_promises. simpl.
  split; (intros [?|[(i & cell & r & Hi & Hr & Hd)|?]]; [by left| |by right; right]).
  - right; left. apply lookup_app_Some in Hi as [Hi|[_ Hi]]; [eauto 10|].
    apply list_lookup_singleton_Some in Hi as [_ <-]. simpl in Hr.
    by apply not_elem_of_nil in Hr.
  - right; left. exists i, cell, r. split; [by apply lookup_app_l_Some|done].
Qed.

Lemma advances_newPromise w : advances w (newPromise w).2.
Proof.
  split.
  - intros Hb d Hd. apply (proj1 (exposed_newPromise w d)), Hb in Hd.
    unfold newPromise, set_promises. simpl. rewrite List.length_app. simpl. lia.
  - intros p [Hlt Hs]. split.
    + unfold newPromise, set_promises. simpl. rewrite List.length_app. simpl. lia.
    + assert (promiseState (newPromise w).2 p = promiseState w p) as ->.
      { unfold promiseState, newPromise, set_promises. simpl.
        by rewrite lookup_app_l by done. }
      destruct Hs as [Hf|[Hpen Hne]]; [by left|right].
      split; [done|]. by rewrite exposed_newPromise.
Qed.

(** What [then] does to the heap, for any world in the place of the one
    with the derived promise allocated. *)
Lemma thenPromise_unfold q cb w :
  (thenPromise q cb w).2
  = match promises (newPromise w).2 !! q with
    | Some (mkCell Pending rs _) =>
        set_promises
          (<[q := mkCell Pending (rs ++ [mkReaction cb (length (promises w))]) true]>)
          (newPromise w).2
    | Some (mkCell s rs _) =>
        set_microtasks (λ q0, q0 ++ [mkJob (mkReaction cb (length (promises w))) s])
          (set_promises (<[q := mkCell s rs true]>) (newPromise w).2)
    | None => (newPromise w).2
    end.
Proof.
  unfold thenPromise. simpl.
  match goal with |- context [?l !! q] =>
    destruct (l !! q) as [[[] rs h]|] end; done.
Qed.

Lemma exposed_react q r w d :
  exposed
    (match promises w !! q with
     | Some (mkCell Pending rs _) =>
         set_promises (<[q := mkCell Pending (rs ++ [r]) true]>) w
     | Some (mkCell s rs _) =>
         set_microtasks (λ q0, q0 ++ [mkJob r s])
           (set_promises (<[q := mkCell s rs true]>) w)
     | None => w
     end) d →
  exposed w d ∨ d = derived r.
Proof.
  destruct (promises w !! q) as [[st rs h]|] eqn:Hq; [|by left].
  assert (∀ st' rs' h' i cell r0,
            <[q := mkCell st' rs' h']> (promises w) !! i = Some cell →
            r0 ∈ reactions cell → r0 ∈ rs' ∨ exposed w (derived r0)) as Hins.
  { intros st' rs' h' i cell r0 [(-> & <- & _)|[_ Hi]]%list_lookup_insert_Some Hr;
      [by left|right]. right; left. by exists i, cell, r0. }
  assert (∀ r0, r0 ∈ rs → exposed w (derived r0)) as Hrs.
  { intros r0 Hr. right; left. exists q, (mkCell st rs h), r0. done. }
  unfold exposed at 1.
  destruct st; unfold set_promises, set_microtasks; simpl;
    (intros [Hl|[(i & cell & r0 & Hi & Hr & <-)|(j & Hj & <-)]]; [by left; left| |]).
  - destruct (Hins _ _ _ _ _ _ Hi Hr) as [Hr'|?]; [|by left].
    apply elem_of_app in Hr' as [Hr'|Hr']; [left; by apply Hrs|].
    apply list_elem_of_singleton in Hr' as ->. by right.
  - left. right; right. eauto.
  - destruct (Hins _ _ _ _ _ _ Hi Hr) as [Hr'|?]; [left; by apply Hrs|by left].
  - apply elem_of_app in Hj as [Hj|Hj]; [left; right; right; eauto|].
    apply list_elem_of_singleton in Hj as ->. by right.
  - destruct (Hins _ _ _ _ _ _ Hi Hr) as [Hr'|?]; [left; by apply Hrs|by left].
  - apply elem_of_app in Hj as [Hj|Hj]; [left; right; right; eauto|].
    apply list_elem_of_singleton in Hj as ->. by right.
Qed.

Lemma pstate_react q r w p :
  promiseState
    (match promises w !! q with
     | Some (mkCell Pending rs _) =>
         set_promises (<[q := mkCell Pending (rs ++ [r]) true]>) w
     | Some (mkCell s rs _) =>
         set_microtasks (λ q0, q0 ++ [mkJob r s])
           (set_promises (<[q := mkCell s rs true]>) w)
     | None => w
     end) p
  = promiseState w p
  ∧ length (promises
      (match promises w !! q with
       | Some (mkCell Pending rs _) =>
           set_promises (<[q := mkCell Pending (rs ++ [r]) true]>) w
       | Some (mkCell s rs _) =>
           set_microtasks (λ q0, q0 ++ [mkJob r s])
             (set_promises (<[q := mkCell s rs true]>) w)
       | None => w
       end)) = length (promises w).
Proof.
  destruct (promises w !! q) as [[st rs h]|] eqn:Hq; [|done].
  unfold promiseState.
  destruct st; unfold set_promises, set_microtasks; simpl;
    rewrite length_insert; (split; [|done]);
    (destruct (decide (q = p)) as [->|Hne];
     [rewrite list_lookup_insert_eq by (by apply lookup_lt_Some in Hq); by rewrite Hq
     |by rewrite list_lookup_insert_ne by done]).
Qed.

Lemma advances_thenPromise q cb w : advances w (thenPromise q cb w).2.
Proof.
  rewrite thenPromise_unfold.
  pose proof (advances_newPromise w) as [Hb1 Hu1].
  assert (length (promises (newPromise w).2) = S (length (promises w))) as Hlen.
  { unfold newPromise, set_promises. simpl. rewrite List.length_app. simpl. lia. }
  split.
  - intros Hb d Hd.
    destruct (pstate_react q (mkReaction cb (length (promises w))) (newPromise w).2 0)
      as [_ ->].
    apply exposed_react in Hd as [Hd| ->]; [by apply Hb1|]. rewrite Hlen. simpl. lia.
  - intros p Hp. pose proof Hp as [Hlt _]. apply Hu1 in Hp as [Hlt1 Hs].
    unfold unrejectable.
    destruct (pstate_react q (mkReaction cb (length (promises w))) (newPromise w).2 p)
      as [-> ->].
    split; [done|]. destruct Hs as [Hf|[Hpen Hne]]; [by left|right].
    split; [done|]. intros [Hd|Hd]%exposed_react; [done|]. simpl in Hd. lia.
Qed.

Lemma exposed_settlePromise q s w d :
  exposed (settlePromise q s w) d → exposed w d.
Proof.
  unfold settlePromise.
  destruct (promises w !! q) as [[[] rs h]|] eqn:Hq; try done.
  unfold exposed, set_promises, set_microtasks. simpl.
  intros [Hl|[(i & cell & r0 & Hi & Hr & <-)|(j & Hj & <-)]]; [by left| |].
  - apply list_lookup_insert_Some in Hi as [(-> & <- & _)|[_ Hi]].
    + simpl in Hr. by apply not_elem_of_nil in Hr.
    + right; left. by exists i, cell, r0.
  - apply elem_of_app in Hj as [Hj|Hj]; [right; right; eauto|].
    apply list_elem_of_fmap in Hj as (r0 & -> & Hr).
    right; left. by exists q, (mkCell Pending rs h), r0.
Qed.

Lemma length_settlePromise q s w :
  length (promises (settlePromise q s w)) = length (promises w).
Proof.
  unfold settlePromise.
  destruct (promises w !! q) as [[[] rs h]|]; try done.
  unfold set_promises, set_microtasks. simpl. by rewrite length_insert.
Qed.

Lemma bounded_settlePromise q s w : bounded w → bounded (settlePromise q s w).
Proof.
  intros Hb d Hd%exposed_settlePromise. rewrite length_settlePromise. by apply Hb.
Qed.

(** Settling keeps a promise unrejectable, unless it rejects that very
    promise while it is pending. *)
Lemma unrejectable_settlePromise q s w p :
  (∀ e, s = Rejected e → q ≠ p ∨ ∃ v, promiseState w p = Some (Fulfilled v)) →
  unrejectable w p → unrejectable (settlePromise q s w) p.
Proof.
  intros Hs [Hlt Hp]. split; [by rewrite length_settlePromise|].
  assert (¬ exposed w p → ¬ exposed (settlePromise q s w) p) as Hne
    by (intros Hne Hd; by apply Hne, (exposed_settlePromise q s)).
  unfold settlePromise in *.
  destruct (promises w !! q) as [[[] rs h]|] eqn:Hq;
    try (destruct Hp as [?|[? ?]]; by auto).
  unfold promiseState in *. unfold set_promises, set_microtasks in *. simpl in *.
  destruct (decide (q = p)) as [->|Hqp].
  - rewrite list_lookup_insert_eq by done. simpl.
    rewrite Hq in Hp. simpl in Hp.
    destruct s as [|v|e]; [right; destruct Hp as [[? ?]|[_ ?]]; [done|auto]
                          |left; eauto|].
    destruct (Hs e eq_refl) as [?|[v Hv]]; [done|]. by rewrite Hq in Hv.
  - rewrite list_lookup_insert_ne by done. destruct Hp as [?|[? ?]]; auto.
Qed.

(** Fulfilling never endangers anything; rejecting an exposed promise
    neither. *)
Lemma advances_settlePromise q s w :
  (∀ e, s = Rejected e → exposed w q) → advances w (settlePromise q s w).
Proof.
  intros Hs. split; [apply bounded_settlePromise|].
  intros p Hp. apply unrejectable_settlePromise; [|done].
  intros e He. destruct (decide (q = p)) as [->|]; [right|by left].
  destruct Hp as [_ [?|[_ Hne]]]; [done|]. destruct Hne. by apply (Hs e).
Qed.

(** The loader's promise is allocated and recorded as returned by the
    call. *)
Lemma advances_loaderCall c nm arg w :
  advances w (log_loaderCall (mkCall c nm arg (length (promises w))) (newPromise w).2).
Proof.
  assert (∀ d, exposed (log_loaderCall (mkCall c nm arg (length (promises w)))
                          (newPromise w).2) d →
               exposed w d ∨ d = length (promises w)) as Hex.
  { intros d. unfold exposed, log_loaderCall, newPromise, set_promises. simpl.
    intros [Hl|[(i & cell & r & Hi & Hr & Hd)|?]]; [|left|by left; right; right].
    - rewrite map_app in Hl. apply elem_of_app in Hl as [?|Hl]; [by left; left|].
      apply list_elem_of_singleton in Hl. by right.
    - right; left. apply lookup_app_Some in Hi as [Hi|[_ Hi]]; [eauto 10|].
      apply list_lookup_singleton_Some in Hi as [_ <-]. simpl in Hr.
      by apply not_elem_of_nil in Hr. }
  assert (length (promises (log_loaderCall (mkCall c nm arg (length (promises w)))
                              (newPromise w).2)) = S (length (promises w))) as Hlen.
  { unfold log_loaderCall, newPromise, set_promises. simpl.
    rewrite List.length_app. simpl. lia. }
  split.
  - intros Hb d [Hd| ->]%Hex; rewrite Hlen; [|lia]. apply Hb in Hd. lia.
  - intros p [Hlt Hp]. split; [rewrite Hlen; lia|].
    assert (promiseState (log_loaderCall (mkCall c nm arg (length (promises w)))
                            (newPromise w).2) p = promiseState w p) as ->.
    { unfold promiseState, log_loaderCall, newPromise, set_promises. simpl.
      by rewrite lookup_app_l by done. }
    destruct Hp as [?|[? Hne]]; [by left|right]. split; [done|].
    intros [?|?]%Hex; [done|lia].
Qed.

Lemma advances_update_coordinator c f w : advances w (update_coordinator c f w).
Proof. by apply advances_frame. Qed.

Lemma advances_loadExecutor c co w :
  advances w (loadExecutor c co (length (promises w)) (newPromise w).2).
Proof.
  unfold loadExecutor.
  destruct (if isServer (newPromise w).2 then None
            else document (newPromise w).2 !! idName (name co)) as [html|].
  - assert (advances w
              (update_property c
                 (λ pr, mkProperty (value pr) (isInit pr) true (loaderValue pr))
                 (newPromise w).2)) as [Hb1 Hu1].
    { eapply advances_trans; [apply advances_newPromise|by apply advances_frame]. }
    destruct (JSON_parse html ≫= get_value_field) as [v|];
      unfold resolvePromise, rejectPromise.
    + eapply advances_trans; [by split|]. apply advances_settlePromise. by intros e.
    + split; [intros Hb; by apply bounded_settlePromise, Hb1|].
      intros p Hp. pose proof Hp as [Hlt _].
      apply unrejectable_settlePromise; [|by apply Hu1].
      intros e _. left. lia.
  - eapply advances_trans; [apply advances_newPromise|].
    eapply advances_trans;
      [apply (advances_loaderCall c (name co)
                (js_or (loaderValue (property co)) (defaultValue co)))|].
    apply advances_thenPromise.
Qed.

Lemma advances_load c w q w' : load c w = Some (q, w') → advances w w'.
Proof.
  unfold load. destruct (coordinators w !! c) as [co|]; [|done]. simpl.
  set (reg := if isServer w then _ else None).
  assert (∀ f w0, advances w0 (if isServer w then set_treeContext f w0 else w0))
    as Hctx.
  { intros. destruct (isServer w); [by apply advances_frame|apply advances_refl]. }
  destruct reg as [q'|]; simpl; intros [= <- <-].
  - eapply advances_trans; [apply advances_thenPromise|apply Hctx].
  - eapply advances_trans; [|apply Hctx].
    eapply advances_trans; [apply advances_loadExecutor|apply advances_thenPromise].
Qed.

Lemma advances_adoptCache c w : advances w (adoptCache c w).
Proof.
  unfold adoptCache. repeat case_match; try apply advances_refl.
  by apply advances_frame.
Qed.

Lemma advances_render rev c w r w' : render rev c w = Some (r, w') → advances w w'.
Proof.
  pose proof (advances_adoptCache c w) as Ha.
  intros [[_ ->]|[(o & _ & ->)|[_ [(p & _ & Hl)|(o & p & _ & Hl)]]]]%render_shape.
  - done.
  - eapply advances_trans; [done|apply advances_update_coordinator].
  - eapply advances_trans; [done|by apply (advances_load c _ p)].
  - eapply advances_trans; [done|].
    eapply advances_trans;
      [apply advances_update_coordinator|by apply (advances_load c _ p)].
Qed.

Lemma advances_runCallback cb v w : advances w (runCallback cb v w).
Proof.
  destruct cb as [c|c outer]; simpl.
  - destruct (coordinators w !! c); [by apply advances_frame|apply advances_refl].
  - unfold resolvePromise.
    eapply advances_trans; [|apply advances_settlePromise; by intros e].
    by apply advances_frame.
Qed.

Lemma advances_tick w : advances w (tick w).
Proof.
  unfold tick. destruct (microtasks w) as [|j q] eqn:Hq; [apply advances_refl|].
  assert (∀ d, exposed (set_microtasks (λ _, q) w) d → exposed w d) as Hex.
  { intros d. unfold exposed, set_microtasks. simpl.
    intros [?|[?|(j' & Hj & Hd)]]; [by left|by right; left|].
    right; right. exists j'. rewrite Hq. split; [by right|done]. }
  assert (advances w (set_microtasks (λ _, q) w)) as [Hb0 Hu0].
  { split.
    - intros Hb d Hd%Hex. by apply Hb.
    - intros p [Hlt Hp]. split; [done|].
      destruct Hp as [?|[? Hne]]; [by left|right]. split; [done|].
      intros Hd%Hex. done. }
  unfold runJob. destruct (job_settled j) as [|v|e] eqn:Hs; [by split|..].
  - eapply advances_trans; [by split|].
    eapply advances_trans; [apply advances_runCallback|].
    apply advances_settlePromise. by intros e.
  - split; [intros Hb; by apply bounded_settlePromise, Hb0|].
    intros p Hp. apply unrejectable_settlePromise; [|by apply Hu0].
    intros e' _. destruct Hp as [_ [[v Hv]|[_ Hne]]]; [right; by exists v|left].
    intros <-. apply Hne. right; right. exists j. rewrite Hq. split; [by left|done].
Qed.


Lemma serverScope_advances w w' :
  observables w' = observables w → advances w w' →
  serverScope w → serverScope w'.
Proof.
  intros [= Hs _ _ Hpm _] [Hb Hu] (Hsrv & Hbw & Hreg).
  split; [by rewrite Hs|]. split; [by apply Hb|].
  intros p (nm & e & Hnm & He). apply Hu, Hreg. exists nm, e. by rewrite <- Hpm.
Qed.

(** The promise that [load] registers on the server is unrejectable: it is
    the one that was registered already, or a new one that nothing but the
    continuation of the loader's promise can settle. *)
Lemma serverScope_load c w q w' :
  serverScope w → load c w = Some (q, w') → serverScope w'.
Proof.
  intros (Hsrv & Hb & Hreg) Hl.
  pose proof (advances_load c w q w' Hl) as [Hb' Hu'].
  destruct (coordinators w !! c) as [co|] eqn:Hc; [|by rewrite load_None in Hl].
  pose proof (load_promiseMap c w co q w' Hc Hl) as Hpm. rewrite Hsrv in Hpm.
  pose proof (load_frame c w q w' Hl) as (Hsrv' & _).
  pose proof (load_promise c w co q w' Hc Hl) as Hq.
  split; [by rewrite Hsrv'|]. split; [by apply Hb'|].
  intros p (nm & e & Hnm & He). rewrite Hpm in Hnm.
  apply lookup_insert_Some in Hnm as [[<- <-]|[Hne Hnm]];
    [|apply Hu', Hreg; by exists nm, e].
  simpl in He. injection He as <-.
  destruct (loadPath w co) as [q0|html|] eqn:Hpath.
  - subst q. apply Hu', Hreg. unfold loadPath in Hpath. rewrite Hsrv in Hpath.
    destruct (the_promiseMap w !! name co) as [e0|] eqn:He0; [|done].
    simpl in Hpath. exists (name co), e0. split; [done|].
    destruct (entry_promise e0); [by injection Hpath as ->|done].
  - unfold loadPath in Hpath. rewrite Hsrv in Hpath.
    by destruct (the_promiseMap w !! name co ≫= entry_promise).
  - rewrite (load_from_loader c co w Hc Hpath) in Hl. injection Hl as _ <-.
    subst q. split; [simpl; rewrite List.length_app; simpl; lia|]. right. split.
    { unfold promiseState. simpl. by rewrite lookup_app_length. }
    intros [Hd|[(i & cell & r & Hi & Hr & Hd)|(j & Hj & Hd)]]; simpl in *.
    + rewrite map_app in Hd. apply elem_of_app in Hd as [Hd|Hd].
      * assert (exposed w (length (promises w))) as Hex by (by left).
        apply Hb in Hex. lia.
      * apply list_elem_of_singleton in Hd. simpl in Hd. lia.
    + apply lookup_app_Some in Hi as [Hi|[Hle Hi]].
      * assert (exposed w (length (promises w))) as Hex
          by (right; left; by exists i, cell, r).
        apply Hb in Hex. lia.
      * destruct (i - length (promises w)) as [|[|[|[|k]]]]; simpl in Hi;
          simplify_eq; simpl in Hr;
          try (by apply not_elem_of_nil in Hr);
          apply list_elem_of_singleton in Hr as ->; simpl in Hd; lia.
    + assert (exposed w (length (promises w))) as Hex
        by (right; right; by exists j).
      apply Hb in Hex. lia.
Qed.

Lemma serverScope_render rev c w r w' :
  serverScope w → render rev c w = Some (r, w') → serverScope w'.
Proof.
  intros Hw.
  assert (serverScope (adoptCache c w)) as Ha.
  { apply (serverScope_advances w); [apply observables_adoptCache| |done].
    apply advances_adoptCache. }
  assert (∀ o, serverScope (update_coordinator c (set_isRequestData o) (adoptCache c w)))
    as Hu.
  { intros o. apply (serverScope_advances (adoptCache c w)); [done| |done].
    apply advances_update_coordinator. }
  intros [[_ ->]|[(o & _ & ->)|[_ [(p & _ & Hl)|(o & p & _ & Hl)]]]]%render_shape.
  - done.
  - apply Hu.
  - by apply (serverScope_load c _ p w' Ha).
  - by apply (serverScope_load c _ p w' (Hu o)).
Qed.

Lemma serverScope_loadDispatch rev c arg w :
  serverScope w → serverScope (loadDispatch rev c arg w).
Proof.
  intros (Hsrv & Hb & Hreg).
  assert (isServer (loadDispatch rev c arg w) = isServer w
          ∧ promises (loadDispatch rev c arg w) = promises w
          ∧ microtasks (loadDispatch rev c arg w) = microtasks w
          ∧ loaderCalls (loadDispatch rev c arg w) = loaderCalls w)
    as (Hs & Hp & Hq & Hl).
  { destruct rev; simpl; unfold Index.loadDispatch, Part000.loadDispatch,
      loadDispatchCore, update_coordinator, update_property, set_coordinators,
      set_treeContext; by destruct (coordinators w !! c). }
  destruct (advances_frame w _ Hp Hq Hl) as [Hb' Hu'].
  split; [by rewrite Hs|]. split; [by apply Hb'|].
  intros p (nm & e & Hnm & He). apply Hu', Hreg. exists nm, e.
  split; [|done]. by apply (promiseMap_loadDispatch rev c arg).
Qed.

Lemma serverScope_tick w : serverScope w → serverScope (tick w).
Proof.
  apply serverScope_advances; [apply observables_tick|apply advances_tick].
Qed.

Lemma serverScope_apply rev ev w : serverScope w → serverScope (apply rev ev w).
Proof.
  intros Hw. pose proof Hw as (Hsrv & _).
  destruct ev as [nm dflt ty|c|c|c|c arg|p s|]; simpl.
  - unfold mount, render_.
    assert (serverScope (set_coordinators (λ cs, cs ++ [newCoordinator nm dflt ty]) w))
      as Hm by (apply (serverScope_advances w); [done|by apply advances_frame|done]).
    match goal with |- context [render rev ?c0 ?w0] =>
      destruct (render rev c0 w0) as [[r w']|] eqn:Hr end; [|done].
    by apply (serverScope_render rev _ _ r w' Hm Hr).
  - unfold render_. destruct (render rev c w) as [[r w']|] eqn:Hr; [|done].
    by apply (serverScope_render rev c w r w').
  - by rewrite Hsrv.
  - by rewrite Hsrv.
  - by apply serverScope_loadDispatch.
  - destruct (isLoaderPromise w p) eqn:Hp; [|done].
    destruct s as [|v|e]; [done|..];
      (apply (serverScope_advances w);
       [apply observables_settlePromise|apply advances_settlePromise|done]);
      intros e' _; left; by apply bool_decide_eq_true_1 in Hp.
  - by apply serverScope_tick.
Qed.

Lemma serverScope_exec rev evs w : serverScope w → serverScope (exec rev evs w).
Proof.
  revert w. induction evs as [|ev evs IH]; intros w Hw; [done|].
  rewrite exec_cons. by apply IH, serverScope_apply.
Qed.



Lemma serverScope_freshScope w : isServer w = true → serverScope (freshScope w).
Proof.
  intros Hsrv. split; [done|]. split.
  - intros d [Hd|[(i & cell & r & Hi & _)|(j & Hj & _)]]; simpl in *;
      [by apply not_elem_of_nil in Hd|done|by apply not_elem_of_nil in Hj].
  - by intros p (nm & e & Hnm & _).
Qed.

(** What is unrejectable stays so through every event. *)
Lemma advances_apply rev ev w : advances w (apply rev ev w).
Proof.
  destruct ev as [nm dflt ty|c|c|c|c arg|p s|]; simpl.
  - unfold mount, render_.
    match goal with |- context [render rev ?c0 ?w0] =>
      destruct (render rev c0 w0) as [[r w']|] eqn:Hr end;
      [|by apply advances_frame].
    eapply advances_trans; [|by apply (advances_render rev _ _ r w' Hr)].
    by apply advances_frame.
  - unfold render_. destruct (render rev c w) as [[r w']|] eqn:Hr;
      [by apply (advances_render rev c w r w')|apply advances_refl].
  - destruct (isServer w); [apply advances_refl|].
    destruct rev; by apply advances_frame.
  - destruct (isServer w); [apply advances_refl|]. by apply advances_frame.
  - apply advances_frame;
      destruct rev; simpl; unfold Index.loadDispatch, Part000.loadDispatch,
        loadDispatchCore, update_coordinator, update_property, set_coordinators,
        set_treeContext; by destruct (coordinators w !! c).
  - destruct (isLoaderPromise w p) eqn:Hp; [|apply advances_refl].
    destruct s as [|v|e]; [apply advances_refl|..];
      apply advances_settlePromise; intros e' _; left;
      by apply bool_decide_eq_true_1 in Hp.
  - apply advances_tick.
Qed.

Lemma advances_exec rev evs w : advances w (exec rev evs w).
Proof.
  revert w. induction evs as [|ev evs IH]; intros w; [apply advances_refl|].
  rewrite exec_cons. eapply advances_trans; [apply advances_apply|apply IH].
Qed.


Lemma unrejectable_not_rejected w p e :
  unrejectable w p → promiseState w p ≠ Some (Rejected e).
Proof. intros [_ [[v ->]|[-> _]]]; done. Qed.
End ServerScope.

(** X16: On the server a promise that has been registered in the Pending-Load
    Table is never rejected: not by a loader that rejects, not after a
    reload has deleted its entry, through no sequence of events.  (The
    executor of [load] has no [reject], and on the server it reads no
    marker.  The loader is a function that returns a promise, as its type
    [(value: V) => Promise<T>] says: it fails by rejecting that promise.) *)
Theorem server_registered_promise_is_never_rejected `{JSON} (rev : Revision)
    (before after : list Event) (w : World) (p : nat) (e : jsval) :
  isServer w = true →
  registered (exec rev before (freshScope w)) p →
  promiseState (exec rev after (exec rev before (freshScope w))) p
  ≠ Some (Rejected e).
Proof.
  intros Hsrv Hp. apply unrejectable_not_rejected.
  apply advances_exec.
  by apply (serverScope_exec rev before _ (serverScope_freshScope w Hsrv)).
Qed.

Lemma server_registered_promise_is_never_rejected_witness :
  promiseState
    (exec IndexTsx [LoaderSettles 1 (Rejected (JStr "boom")); Tick; Dispatch 0 JNull;
                    Render 0; Tick]
       (exec IndexTsx [Mount "news" (JNum 7) ssr] (freshScope (initialWorld true ∅))))
    0
  ≠ Some (Rejected (JStr "boom")).
Proof.
  apply (server_registered_promise_is_never_rejected IndexTsx
           [Mount "news" (JNum 7) ssr]
           [LoaderSettles 1 (Rejected (JStr "boom")); Tick; Dispatch 0 JNull;
            Render 0; Tick]
           (initialWorld true ∅) 0 (JStr "boom")).
  - reflexivity.
  - exists "news", (mkEntry false (Some 0)). split; [vm_compute; reflexivity|done].
Defined.

Section NeverThrows.
Context `{JSON}.


End NeverThrows.


(** ** A promise that nothing can settle *)

Section Orphaned.
Context `{JSON}.

Lemma resolvable_frame w w' p :
  promises w' = promises w → microtasks w' = microtasks w →
  resolvable w' p ↔ resolvable w p.
Proof. intros Hp Hq. unfold resolvable. by rewrite Hp, Hq. Qed.

Lemma resolvable_newPromise w p : resolvable (newPromise w).2 p → resolvable w p.
Proof.
  unfold resolvable, newPromise, set_promises. simpl.
  intros [(i & cell & r & c & Hi & Hr & Hc)|?]; [left|by right].
  apply lookup_app_Some in Hi as [Hi|[_ Hi]]; [eauto 10|].
  apply list_lookup_singleton_Some in Hi as [_ <-]. simpl in Hr.
  by apply not_elem_of_nil in Hr.
Qed.

Lemma resolvable_react q r w p :
  resolvable
    (match promises w !! q with
     | Some (mkCell Pending rs _) =>
         set_promises (<[q := mkCell Pending (rs ++ [r]) true]>) w
     | Some (mkCell s rs _) =>
         set_microtasks (λ q0, q0 ++ [mkJob r s])
           (set_promises (<[q := mkCell s rs true]>) w)
     | None => w
     end) p →
  resolvable w p ∨ ∃ c, onFulfilled r = OnLoader c p.
Proof.
  destruct (promises w !! q) as [[st rs h]|] eqn:Hq; [|by left].
  assert (∀ st' rs' h' i cell r0 c,
            <[q := mkCell st' rs' h']> (promises w) !! i = Some cell →
            r0 ∈ reactions cell → onFulfilled r0 = OnLoader c p →
            r0 ∈ rs' ∨ resolvable w p) as Hins.
  { intros st' rs' h' i cell r0 c [(-> & <- & _)|[_ Hi]]%list_lookup_insert_Some Hr Hc;
      [by left|right]. left. by exists i, cell, r0, c. }
  assert (∀ r0 c, r0 ∈ rs → onFulfilled r0 = OnLoader c p → resolvable w p) as Hrs.
  { intros r0 c Hr Hc. left. by exists q, (mkCell st rs h), r0, c. }
  unfold resolvable at 1.
  destruct st; unfold set_promises, set_microtasks; simpl;
    (intros [(i & cell & r0 & c & Hi & Hr & Hc)|(j & c & Hj & Hc)]).
  - destruct (Hins _ _ _ _ _ _ _ Hi Hr Hc) as [Hr'|?]; [|by left].
    apply elem_of_app in Hr' as [Hr'|Hr']; [left; by apply (Hrs r0 c)|].
    apply list_elem_of_singleton in Hr' as ->. right. by exists c.
  - left. right. eauto.
  - destruct (Hins _ _ _ _ _ _ _ Hi Hr Hc) as [Hr'|?];
      [left; by apply (Hrs r0 c)|by left].
  - apply elem_of_app in Hj as [Hj|Hj]; [left; right; eauto|].
    apply list_elem_of_singleton in Hj as ->. right. by exists c.
  - destruct (Hins _ _ _ _ _ _ _ Hi Hr Hc) as [Hr'|?];
      [left; by apply (Hrs r0 c)|by left].
  - apply elem_of_app in Hj as [Hj|Hj]; [left; right; eauto|].
    apply list_elem_of_singleton in Hj as ->. right. by exists c.
Qed.

Lemma resolvable_settlePromise q s w p :
  resolvable (settlePromise q s w) p → resolvable w p.
Proof.
  unfold settlePromise.
  destruct (promises w !! q) as [[[] rs h]|] eqn:Hq; try done.
  unfold resolvable, set_promises, set_microtasks. simpl.
  intros [(i & cell & r0 & c & Hi & Hr & Hc)|(j & c & Hj & Hc)].
  - apply list_lookup_insert_Some in Hi as [(-> & <- & _)|[_ Hi]].
    + simpl in Hr. by apply not_elem_of_nil in Hr.
    + left. by exists i, cell, r0, c.
  - apply elem_of_app in Hj as [Hj|Hj]; [right; eauto|].
    apply list_elem_of_fmap in Hj as (r0 & -> & Hr).
    left. by exists q, (mkCell Pending rs h), r0, c.
Qed.

Lemma orphaned_unrejectable w p : orphaned w p → unrejectable w p.
Proof. intros (Hlt & Hs & Hne & _). split; [done|]. by right. Qed.

Lemma orphaned_intro w p :
  unrejectable w p → promiseState w p = Some Pending → ¬ resolvable w p →
  orphaned w p.
Proof.
  intros [Hlt [[v Hv]|[_ Hne]]] Hs Hnr; [congruence|]. by split.
Qed.

Lemma orphaned_frame w w' p :
  promises w' = promises w → microtasks w' = microtasks w →
  loaderCalls w' = loaderCalls w →
  orphaned w p → orphaned w' p.
Proof.
  intros Hp Hq Hl Hw. pose proof Hw as (_ & Hs & _ & Hnr).
  apply orphaned_intro.
  - by apply (advances_frame w w' Hp Hq Hl), orphaned_unrejectable.
  - unfold promiseState in *. by rewrite Hp.
  - by rewrite (resolvable_frame w w').
Qed.

Lemma orphaned_newPromise w p : orphaned w p → orphaned (newPromise w).2 p.
Proof.
  intros Hw. pose proof Hw as (Hlt & Hs & _ & Hnr). apply orphaned_intro.
  - by apply advances_newPromise, orphaned_unrejectable.
  - unfold promiseState, newPromise, set_promises in *. simpl.
    by rewrite lookup_app_l.
  - by intros ?%resolvable_newPromise.
Qed.

Lemma orphaned_thenPromise q cb w p :
  (∀ c, cb ≠ OnLoader c p) → orphaned w p → orphaned (thenPromise q cb w).2 p.
Proof.
  intros Hcb Hw. pose proof (orphaned_newPromise w p Hw) as (_ & Hs & _ & Hnr).
  apply orphaned_intro.
  - by apply advances_thenPromise, orphaned_unrejectable.
  - rewrite thenPromise_unfold.
    by destruct (pstate_react q (mkReaction cb (length (promises w)))
                   (newPromise w).2 p) as [-> _].
  - rewrite thenPromise_unfold. intros [?|[c Hc]]%resolvable_react; [done|].
    by apply (Hcb c).
Qed.

Lemma orphaned_settlePromise q s w p :
  q ≠ p → orphaned w p → orphaned (settlePromise q s w) p.
Proof.
  intros Hne Hw. pose proof Hw as (_ & Hs & _ & Hnr). apply orphaned_intro.
  - apply unrejectable_settlePromise; [by left|by apply orphaned_unrejectable].
  - unfold settlePromise, promiseState in *.
    destruct (promises w !! q) as [[[] rs h]|]; try done.
    unfold set_promises, set_microtasks. simpl.
    by rewrite list_lookup_insert_ne.
  - by intros ?%resolvable_settlePromise.
Qed.

Lemma orphaned_loaderCall c nm arg w p :
  orphaned w p →
  orphaned (log_loaderCall (mkCall c nm arg (length (promises w))) (newPromise w).2) p.
Proof.
  intros Hw. pose proof (orphaned_newPromise w p Hw) as (_ & Hs & _ & Hnr).
  apply orphaned_intro.
  - by apply advances_loaderCall, orphaned_unrejectable.
  - done.
  - done.
Qed.

Lemma orphaned_loadExecutor c co w p :
  orphaned w p →
  orphaned (loadExecutor c co (length (promises w)) (newPromise w).2) p.
Proof.
  intros Hw. pose proof Hw as (Hlt & _). unfold loadExecutor.
  destruct (if isServer (newPromise w).2 then None
            else document (newPromise w).2 !! idName (name co)) as [html|].
  - destruct (JSON_parse html ≫= get_value_field) as [v|];
      unfold resolvePromise, rejectPromise;
      (apply orphaned_settlePromise; [lia|]);
      apply (orphaned_frame (newPromise w).2); try done;
      by apply orphaned_newPromise.
  - apply orphaned_thenPromise.
    + intros c' [= _ Heq]. lia.
    + apply (orphaned_loaderCall c (name co)
               (js_or (loaderValue (property co)) (defaultValue co))).
      by apply orphaned_newPromise.
Qed.

Lemma orphaned_load c w q w' p :
  load c w = Some (q, w') → orphaned w p → orphaned w' p.
Proof.
  unfold load. destruct (coordinators w !! c) as [co|]; [|done]. simpl.
  set (reg := if isServer w then _ else None).
  assert (∀ f w0, orphaned w0 p →
                  orphaned (if isServer w then set_treeContext f w0 else w0) p)
    as Hctx.
  { intros f w0 Hw0. destruct (isServer w); [|done]. by apply (orphaned_frame w0). }
  destruct reg as [q'|]; simpl; intros [= <- <-] Hw; apply Hctx.
  - by apply orphaned_thenPromise.
  - apply orphaned_thenPromise; [done|]. by apply orphaned_loadExecutor.
Qed.

Lemma orphaned_render rev c w r w' p :
  render rev c w = Some (r, w') → orphaned w p → orphaned w' p.
Proof.
  intros Hr Hw.
  assert (orphaned (adoptCache c w) p) as Ha.
  { unfold adoptCache. by repeat case_match. }
  assert (∀ o, orphaned (update_coordinator c (set_isRequestData o) (adoptCache c w)) p)
    as Hu by (intros o; by apply (orphaned_frame (adoptCache c w))).
  apply render_shape in Hr
    as [[_ ->]|[(o & _ & ->)|[_ [(q & _ & Hl)|(o & q & _ & Hl)]]]].
  - done.
  - apply Hu.
  - by apply (orphaned_load c _ q w' p Hl).
  - by apply (orphaned_load c _ q w' p Hl).
Qed.

Lemma orphaned_tick w p : orphaned w p → orphaned (tick w) p.
Proof.
  intros Hw. pose proof Hw as (_ & _ & Hne & Hnr).
  unfold tick. destruct (microtasks w) as [|j q] eqn:Hq; [done|].
  assert (orphaned (set_microtasks (λ _, q) w) p) as Hw0.
  { pose proof Hw as (_ & Hs & _). apply orphaned_intro; [|done|].
    - pose proof (advances_tick w) as _.
      destruct Hw as (Hlt & _). split; [done|]. right. split; [done|].
      unfold exposed, set_microtasks. simpl.
      intros [?|[?|(j' & Hj & Hd)]];
        [apply Hne; by left|apply Hne; by right; left|].
      apply Hne. right; right. exists j'. rewrite Hq. split; [by right|done].
    - unfold resolvable, set_microtasks. simpl.
      intros [?|(j' & c & Hj & Hc)]; [apply Hnr; by left|].
      apply Hnr. right. exists j', c. rewrite Hq. split; [by right|done]. }
  assert (derived (job_reaction j) ≠ p) as Hd.
  { intros <-. apply Hne. right; right. exists j. rewrite Hq. split; [by left|done]. }
  unfold runJob. destruct (job_settled j) as [|v|e]; [done|..].
  - unfold resolvePromise. apply orphaned_settlePromise; [done|].
    destruct (onFulfilled (job_reaction j)) as [c|c outer] eqn:Hcb; simpl.
    + destruct (coordinators _ !! c); [|done].
      by apply (orphaned_frame (set_microtasks (λ _, q) w)).
    + unfold resolvePromise. apply orphaned_settlePromise.
      * intros ->. apply Hnr. right. exists j, c. rewrite Hq. split; [by left|done].
      * by apply (orphaned_frame (set_microtasks (λ _, q) w)).
  - unfold rejectPromise. by apply orphaned_settlePromise.
Qed.

Lemma orphaned_apply rev ev w p : orphaned w p → orphaned (apply rev ev w) p.
Proof.
  intros Hw. pose proof Hw as (_ & _ & Hne & _).
  destruct ev as [nm dflt ty|c|c|c|c arg|q s|]; simpl.
  - unfold mount, render_.
    assert (orphaned (set_coordinators (λ cs, cs ++ [newCoordinator nm dflt ty]) w) p)
      as Hm by (by apply (orphaned_frame w)).
    match goal with |- context [render rev ?c0 ?w0] =>
      destruct (render rev c0 w0) as [[r w']|] eqn:Hr end; [|done].
    by apply (orphaned_render rev _ _ r w' p Hr).
  - unfold render_. destruct (render rev c w) as [[r w']|] eqn:Hr; [|done].
    by apply (orphaned_render rev c w r w' p Hr).
  - destruct (isServer w); [done|]. destruct rev; by apply (orphaned_frame w).
  - destruct (isServer w); [done|]. by apply (orphaned_frame w).
  - apply (orphaned_frame w); [..|done];
      destruct rev; simpl; unfold Index.loadDispatch, Part000.loadDispatch,
        loadDispatchCore, update_coordinator, update_property, set_coordinators,
        set_treeContext; by destruct (coordinators w !! c).
  - destruct (isLoaderPromise w q) eqn:Hq; [|done].
    destruct s as [|v|e]; [done|..]; (apply orphaned_settlePromise; [|done]);
      intros ->; apply Hne; left; by apply bool_decide_eq_true_1 in Hq.
  - by apply orphaned_tick.
Qed.

Lemma orphaned_exec rev evs w p : orphaned w p → orphaned (exec rev evs w) p.
Proof.
  revert w. induction evs as [|ev evs IH]; intros w Hw; [done|].
  rewrite exec_cons. by apply IH, orphaned_apply.
Qed.

Lemma orphaned_drainFuel n w p : orphaned w p → orphaned (drainFuel n w) p.
Proof.
  revert w. induction n as [|n IH]; intros w Hw; simpl; [done|].
  destruct (microtasks w) eqn:Hq; [done|]. by apply IH, orphaned_tick.
Qed.

Lemma orphaned_runTasks rev ts w p : orphaned w p → orphaned (runTasks rev ts w) p.
Proof.
  revert w. induction ts as [|evs ts IH]; intros w Hw; [done|].
  rewrite runTasks_cons. by apply IH, orphaned_drainFuel, orphaned_exec.
Qed.
End Orphaned.

(** ** After the loader has rejected *)

Section Rejection.
Context `{JSON}.

(** A load through the loader, the rejection of the loader's promise, and
    the run of the queue. *)
Lemma loader_rejects rev c co w e :
  coordinators w !! c = Some co →
  loadPath w co = FromLoader →
  microtasks w = [] →
  ∃ w1,
    load c w = Some (length (promises w), w1)
    ∧ step rev (LoaderSettles (length (promises w) + 1) (Rejected e)) w1
      = mkWorld (isServer w) (document w) (treeContext w1) (cacheSrcMap w)
          (coordinators w)
          (promises w ++
             [mkCell Pending [mkReaction (OnSettled c) (length (promises w) + 3)] true;
              mkCell (Rejected e) [] true; mkCell (Rejected e) [] false;
              mkCell Pending [] false])
          [] (loaderCalls w1) (onLoadedCalls w).
Proof.
  intros Hc Hp Hq. eexists. split; [by apply load_from_loader|].
  set (w1 := mkWorld _ _ _ _ _ _ _ _ _).
  unfold step. simpl.
  assert (isLoaderPromise w1 (length (promises w) + 1) = true) as ->.
  { apply bool_decide_eq_true_2. subst w1. simpl. rewrite map_app.
    apply elem_of_app. right. by apply list_elem_of_singleton. }
  subst w1. unfold settlePromise. simpl. heap_simpl. rewrite Hq. simpl.
  world_simpl.
  rewrite drain_tick by done.
  unfold tick, runJob, rejectPromise, settlePromise. simpl. heap_simpl.
  world_simpl. by rewrite drain_done.
Qed.

(** In that world the promise that [load()] returned is orphaned. *)
Lemma orphaned_after_rejection w c e tc lc ol :
  allocated w →
  length (promises w) ∉ map call_promise lc →
  orphaned
    (mkWorld (isServer w) (document w) tc (cacheSrcMap w) (coordinators w)
       (promises w ++
          [mkCell Pending [mkReaction (OnSettled c) (length (promises w) + 3)] true;
           mkCell (Rejected e) [] true; mkCell (Rejected e) [] false;
           mkCell Pending [] false])
       [] (loaderCalls w ++ lc) ol)
    (length (promises w)).
Proof.
  intros Hall Hlc. split; [simpl; rewrite List.length_app; simpl; lia|].
  split; [unfold promiseState; simpl; by rewrite lookup_app_length|].
  split.
  - intros [Hd|[(i & cell & r & Hi & Hr & Hd)|(j & Hj & Hd)]]; simpl in *.
    + rewrite map_app in Hd. apply elem_of_app in Hd as [Hd|Hd]; [|done].
      assert (length (promises w) < length (promises w)); [|lia].
      apply Hall. left. by left.
    + apply lookup_app_Some in Hi as [Hi|[Hle Hi]].
      * assert (length (promises w) < length (promises w)); [|lia].
        apply Hall. left. right; left. by exists i, cell, r.
      * destruct (i - length (promises w)) as [|[|[|[|k]]]]; simpl in Hi;
          simplify_eq; simpl in Hr;
          try (by apply not_elem_of_nil in Hr).
        apply list_elem_of_singleton in Hr as ->. simpl in Hd. lia.
    + by apply not_elem_of_nil in Hj.
  - intros [(i & cell & r & c' & Hi & Hr & Hcb)|(j & c' & Hj & _)]; simpl in *.
    + apply lookup_app_Some in Hi as [Hi|[Hle Hi]].
      * assert (length (promises w) < length (promises w)); [|lia].
        apply Hall. right. left. by exists i, cell, r, c'.
      * destruct (i - length (promises w)) as [|[|[|[|k]]]]; simpl in Hi;
          simplify_eq; simpl in Hr;
          try (by apply not_elem_of_nil in Hr).
        by apply list_elem_of_singleton in Hr as ->.
    + by apply not_elem_of_nil in Hj.
Qed.

Lemma allocated_nil w :
  promises w = [] → microtasks w = [] → loaderCalls w = [] → allocated w.
Proof.
  intros Hp Hq Hl p. unfold exposed, resolvable. rewrite Hp, Hq, Hl. simpl.
  intros [[Hd|[(i & cell & r & Hi & _)|(j & Hj & _)]]
         |[(i & cell & r & c & Hi & _)|(j & c & Hj & _)]];
    try done; by apply not_elem_of_nil in Hd || by apply not_elem_of_nil in Hj.
Qed.
End Rejection.

(** X18: When the loader's promise is rejected, the promise that [load()]
    returned is not only still pending once the queue has run dry: nothing
    can settle it any more, and it stays pending through every later event
    -- evaluations, reloads, other loads, on the server and on the
    client.  (The heap is assumed well formed: what it refers to is
    allocated.) *)
Theorem rejected_loader_leaves_load_pending_for_good `{JSON} (rev : Revision)
    (c : nat) (co : Coordinator) (w : World) (e : jsval) (evs : list Event) :
  allocated w →
  coordinators w !! c = Some co →
  loadPath w co = FromLoader →
  microtasks w = [] →
  ∃ w1,
    load c w = Some (length (promises w), w1)
    ∧ promiseState
        (exec rev evs
           (step rev (LoaderSettles (length (promises w) + 1) (Rejected e)) w1))
        (length (promises w))
      = Some Pending.
Proof.
  intros Hall Hc Hp Hq.
  destruct (loader_rejects rev c co w e Hc Hp Hq) as (w1 & Hl & Hw2).
  exists w1. split; [done|]. rewrite Hw2.
  pose proof Hl as Hl'. rewrite (load_from_loader c co w Hc Hp) in Hl'.
  injection Hl' as <-. simpl.
  match goal with |- promiseState (exec rev evs ?w2) _ = _ =>
    assert (orphaned w2 (length (promises w))) as Ho end.
  { apply (orphaned_after_rejection w c e); [done|].
    simpl. intros Hin%list_elem_of_singleton. lia. }
  by apply (orphaned_exec rev evs) in Ho as (_ & Hs & _).
Qed.

Lemma rejected_loader_leaves_load_pending_for_good_witness :
  let w := set_coordinators (λ _, [newCoordinator "news" (JNum 7) streaming])
             (initialWorld false ∅) in
  ∃ w1,
    load 0 w = Some (0, w1)
    ∧ promiseState
        (exec IndexTsx [Render 0; Tick; Dispatch 0 JNull; LoaderEffects 0; Render 0]
           (step IndexTsx (LoaderSettles 1 (Rejected (JStr "boom"))) w1)) 0
      = Some Pending.
Proof.
  intros w.
  apply (rejected_loader_leaves_load_pending_for_good IndexTsx 0
           (newCoordinator "news" (JNum 7) streaming) w (JStr "boom")
           [Render 0; Tick; Dispatch 0 JNull; LoaderEffects 0; Render 0]).
  - by apply allocated_nil.
  - reflexivity.
  - reflexivity.
  - reflexivity.
Defined.

(** ** A wait that cannot end *)

Section WaitForEver.
Context `{JSON}.
Variable rev : Revision.





End WaitForEver.




